(** * torch_ecg: a shallow embedding of the configuration container, the
    archive extraction guard, the LTAFDB / PhysioNet readers and the
    DenseNet channel bookkeeping, with the properties proved about them.

    Part I holds the definitions, one module per source class or file;
    Part II holds the lemmas and theorems. *)

From Stdlib Require Import ZArith Lia Bool Ascii String QArith Qround.
From Stdlib Require Import Qabs Qminmax.
From stdpp Require Import base option list strings gmap sorting.

Set Warnings "-register-all".

Local Open Scope string_scope.
Local Open Scope list_scope.
Local Open Scope Z_scope.

(* ===================================================================== *)
(** * Part I: definitions                                                 *)
(* ===================================================================== *)

(** ** Python results: a value or a raised exception *)

Inductive exn : Type :=
| AssertionError
| AttributeError
| TypeError
| KeyError
| ZeroDivisionError
| NotImplementedError
| FileNotFoundError
| JSONDecodeError
| RuntimeError
| UnboundLocalError
| IndexError
| ValueError
| OverflowError
| Exception.

Inductive result (A : Type) : Type :=
| Ok (a : A)
| Raise (e : exn).
Arguments Ok {A} a.
Arguments Raise {A} e.

Definition rbind {A B : Type} (r : result A) (k : A -> result B) : result B :=
  match r with
  | Ok a => k a
  | Raise e => Raise e
  end.

#[export] Instance result_ret : MRet result := fun A a => Ok a.
#[export] Instance result_bind : MBind result := fun A B k r => rbind r k.
#[export] Instance result_fmap : FMap result :=
  fun A B f r => rbind r (fun a => Ok (f a)).

Definition assert (b : bool) : result unit :=
  if b then Ok tt else Raise AssertionError.

Definition is_ok {A : Type} (r : result A) : bool :=
  match r with Ok _ => true | Raise _ => false end.

(** ** Python dictionaries: insertion-ordered association lists *)

Module PyDict.

Fixpoint get {V : Type} (k : string) (d : list (string * V)) : option V :=
  match d with
  | [] => None
  | (k', v) :: rest => if String.eqb k k' then Some v else get k rest
  end.

(** [d[k] = v]: overwrite in place when the key is present, append
    otherwise. *)
Fixpoint set {V : Type} (k : string) (v : V) (d : list (string * V))
  : list (string * V) :=
  match d with
  | [] => [(k, v)]
  | (k', v') :: rest =>
      if String.eqb k k' then (k', v) :: rest else (k', v') :: set k v rest
  end.

Definition contains {V : Type} (k : string) (d : list (string * V)) : bool :=
  match get k d with Some _ => true | None => false end.

Definition keys {V : Type} (d : list (string * V)) : list string := d.*1.

(** A dictionary comprehension [{k: v for ...}]: later items overwrite
    earlier ones with the same key. *)
Definition of_list {V : Type} (items : list (string * V))
  : list (string * V) :=
  foldl (fun d kv => set kv.1 kv.2 d) [] items.

(** [d[k].append(x)] for a dictionary of lists; a missing key leaves the
    dictionary alone (the readers below only append at keys they have put
    there, see [LTAFDB_facts.scan_current_is_key]). *)
Definition append_at {V : Type} (k : string) (x : V)
    (d : list (string * list V)) : list (string * list V) :=
  match get k d with
  | Some l => set k (l ++ [x]) d
  | None => d
  end.

End PyDict.

(** ** Python strings *)

Module PyStr.

(** [s.lower()].  A string is the sequence of the bytes of its UTF-8
    encoding.  The code reads a lowered string only to compare it with
    words made of the letters a-z, the underscore and the Greek letter mu
    (U+03BC, bytes 206 188), and the code points that [str.lower] turns
    into a character of such a word are the letters A-Z, the Greek
    capital letter mu (U+039C, bytes 206 156) and the Kelvin sign
    (U+212A, bytes 226 132 170, lowered to k).  These are lowered here;
    the other code points, whose lower case is none of these characters,
    are left as they are. *)
Definition lower_ascii (a : ascii) : ascii :=
  let n := nat_of_ascii a in
  if (65 <=? n)%nat && (n <=? 90)%nat then ascii_of_nat (n + 32) else a.

Fixpoint lower (s : string) : string :=
  match s with
  | EmptyString => EmptyString
  | String a s1 =>
      match s1 with
      | EmptyString => String (lower_ascii a) EmptyString
      | String b s2 =>
          if Ascii.eqb a "206" && Ascii.eqb b "156"
          then String "206" (String "188" (lower s2))
          else
            match s2 with
            | EmptyString => String (lower_ascii a) (lower s1)
            | String c s3 =>
                if Ascii.eqb a "226" && Ascii.eqb b "132" && Ascii.eqb c "170"
                then String "k" (lower s3)
                else String (lower_ascii a) (lower s1)
            end
      end
  end.

Definition str_in (s : string) (l : list string) : bool :=
  existsb (String.eqb s) l.

End PyStr.

(** ** Python floats *)

Module PyFloat.

(** A Python [float] is an IEEE 754 double.  A finite one is a rational
    [m * 2 ^ e] with [|m| < 2 ^ 53] and [-1074 <= e]; it is carried here as
    that rational, and an operation gives the double nearest to the exact
    result, halves going to the even significand.  The results met here
    stay below the overflow threshold, so that infinities do not arise. *)

Definition pow2 (e : Z) : Q :=
  if 0 <=? e then inject_Z (2 ^ e) else 1 / inject_Z (2 ^ (- e)).

(** The nearest integer, halves to the even one. *)
Definition rne (q : Q) : Z :=
  let fl := Qfloor q in
  match (q - inject_Z fl ?= 1 # 2)%Q with
  | Lt => fl
  | Gt => fl + 1
  | Eq => if Z.even fl then fl else fl + 1
  end.

(** [floor (log2 q)] of a positive [q]: the logarithms of numerator and
    denominator give it up to one, and the comparison settles it. *)
Definition ilog2 (q : Q) : Z :=
  let a := Z.log2 (Qnum q) - Z.log2 (Zpos (Qden q)) in
  if Qle_bool (pow2 a) q then a else a - 1.

(** The exponent of the last place of the doubles around a positive [q]:
    53 significant bits, and [-1074] for the subnormal ones. *)
Definition quantum (q : Q) : Z := Z.max (ilog2 q - 52) (-1074).

Definition round_pos (q : Q) : Q :=
  let e := quantum q in (inject_Z (rne (q / pow2 e)) * pow2 e)%Q.

(** The double nearest to [q]. *)
Definition round (q : Q) : Q :=
  match (q ?= 0)%Q with
  | Gt => round_pos q
  | Lt => (- round_pos (- q))%Q
  | Eq => 0%Q
  end.

(** [x * y] for two floats. *)
Definition mul (x y : Q) : Q := round (x * y).

(** [float(n)] for an [int]: exact below [2 ^ 53], rounded above, and an
    [OverflowError] from [2 ^ 1024 - 2 ^ 970] on, where the nearest double
    would be [2 ^ 1024]. *)
Definition of_int (n : Z) : result Q :=
  if Z.abs n <? 2 ^ 53 then Ok (inject_Z n)
  else if 2 ^ 1024 - 2 ^ 970 <=? Z.abs n then Raise OverflowError
  else Ok (round (inject_Z n)).

(** [n * y] for an [int] and a [float]: the [int] is converted first. *)
Definition int_mul (n : Z) (y : Q) : result Q :=
  x ← of_int n; Ok (mul x y).

End PyFloat.

(** ** cfg.py: [CFG], the hierarchical configuration dictionary *)

Module CFG.

(** The class of a mapping: a plain [dict], an [EasyDict], or a [CFG],
    which is an [EasyDict]. *)
Inductive cls : Type := Dict | Easy | Cfg.

(** A configuration value is a scalar or a mapping with its class and its
    items in the order of insertion. *)
Inductive value : Type :=
| VInt (z : Z)
| VStr (s : string)
| VMap (c : cls) (d : list (string * value)).

Abbreviation items := (list (string * value)).

(** [easydict] is not part of the repository and no release of it is
    required there.  Its [__setattr__], which also is its [__setitem__],
    stores a [dict] after turning it into an [EasyDict]: up to release
    1.10 into an instance of the class of the object written to, unless
    it is one already ([isinstance(value, self.__class__)]); from release
    1.11 on into a plain [EasyDict], unless it is an [EasyDict]
    already. *)
Inductive easydict : Type := upto_1_10 | from_1_11.

(** Python truthiness, as used by [new_cfg or CFG()]. *)
Definition truthy (v : value) : bool :=
  match v with
  | VInt z => negb (Z.eqb z 0)
  | VStr s => negb (String.eqb s EmptyString)
  | VMap _ d => match d with [] => false | _ => true end
  end.

(** [isinstance(x, owner)] for a mapping [x] of class [c] *)
Definition instance_of (c owner : cls) : bool :=
  match owner, c with
  | Dict, _ => true
  | Easy, (Easy | Cfg) => true
  | Cfg, Cfg => true
  | _, _ => false
  end.

(** Whether [__setattr__] of an object of class [owner] stores a mapping
    of class [c] as it is, and the class it turns it into otherwise. *)
Definition kept (ver : easydict) (owner c : cls) : bool :=
  match ver with
  | upto_1_10 => instance_of c owner
  | from_1_11 => instance_of c Easy
  end.

Definition target (ver : easydict) (owner : cls) : cls :=
  match ver with
  | upto_1_10 => owner
  | from_1_11 => Easy
  end.

(** What [setattr(self, k, v)] stores at [k] for [self] of class [owner]
    ([Easy] or [Cfg]).  A mapping that is not kept is rebuilt by the
    constructor of the target class, which stores its items one by one
    in the same way; the keys of a mapping being distinct, each of them
    is appended. *)
Fixpoint stored (ver : easydict) (owner : cls) (v : value) {struct v}
  : value :=
  match v with
  | VMap c d =>
      if kept ver owner c then v
      else VMap (target ver owner)
             ((fix init (d : items) : items :=
                 match d with
                 | [] => []
                 | (k, v') :: rest =>
                     (k, stored ver (target ver owner) v') :: init rest
                 end) d)
  | _ => v
  end.

(** An [EasyDict] holds its keys as attributes too: once it holds the key
    ["update"], [self.update] is the value stored there and no longer the
    method, and calling it raises [TypeError]. *)
Definition shadowed (d : items) : bool := PyDict.contains "update" d.

(** [dict.update(self, other)] *)
Definition dict_update (self : items) (other : value) : result items :=
  match other with
  | VMap _ m => Ok (foldl (fun s kv => PyDict.set kv.1 kv.2 s) self m)
  | VInt _ => Raise TypeError
  | VStr s => if String.eqb s EmptyString then Ok self else Raise ValueError
  end.

(** [EasyDict.update(self, e)] without keyword arguments:
    [d = e or dict()], then [d.update(f)] with the empty [f], then
    [setattr(self, k, d[k])] for every key of [d]. *)
Definition easy_update (ver : easydict) (self : items) (e : value)
  : result items :=
  match e with
  | VMap c m =>
      match m with
      | [] => Ok self
      | _ =>
          if instance_of c Easy && shadowed m then Raise TypeError
          else Ok (foldl (fun s kv => PyDict.set kv.1 (stored ver Easy kv.2) s)
                         self m)
      end
  | _ => if truthy e then Raise AttributeError else Ok self
  end.

(** The body of [CFG.update(self, new_cfg)], called without keyword
    arguments.  A falsy argument is replaced by an empty [CFG]; iterating
    a truthy scalar raises [TypeError].  In the loop, a mapping met at a
    key that [self] already holds is merged by [self[k].update(...)]:
    this raises [AttributeError] when [self[k]] is a scalar and
    [TypeError] when it is an [EasyDict] that holds the key ["update"],
    and otherwise runs the [update] of the class of [self[k]], which
    changes [self[k]] in place.  Everything else is stored with
    [setattr].  The result is what [self] holds when the call returns;
    what a call that raises leaves in [self] is not represented. *)
Fixpoint cfg_update (ver : easydict) (new_cfg : value) {struct new_cfg}
  : items -> result items :=
  match new_cfg with
  | VMap _ m =>
      (fix loop (its : items) (self : items) {struct its} : result items :=
         match its with
         | [] => Ok self
         | (k, v) :: rest =>
             match v, PyDict.get k self with
             | VMap _ _, Some old =>
                 old' ← match old with
                        | VMap Cfg d =>
                            if shadowed d then Raise TypeError
                            else VMap Cfg <$> cfg_update ver v d
                        | VMap Easy d =>
                            if shadowed d then Raise TypeError
                            else VMap Easy <$> easy_update ver d v
                        | VMap Dict d => VMap Dict <$> dict_update d v
                        | _ => Raise AttributeError
                        end;
                 loop rest (PyDict.set k old' self)
             | _, _ => loop rest (PyDict.set k (stored ver Cfg v) self)
             end
         end) m
  | v => fun self => if truthy v then Raise TypeError else Ok self
  end.

(** [old.update(arg)]: the attribute [update] of [old] is looked up and
    called. *)
Definition method_update (ver : easydict) (old arg : value) : result value :=
  match old with
  | VMap Cfg d =>
      if shadowed d then Raise TypeError
      else VMap Cfg <$> cfg_update ver arg d
  | VMap Easy d =>
      if shadowed d then Raise TypeError
      else VMap Easy <$> easy_update ver d arg
  | VMap Dict d => VMap Dict <$> dict_update d arg
  | _ => Raise AttributeError
  end.

(** [c.update(new_cfg)] for a [CFG] [c] that holds [self]. *)
Definition update (ver : easydict) (self : items) (new_cfg : value)
  : result items :=
  if shadowed self then Raise TypeError else cfg_update ver new_cfg self.

End CFG.

(** ** Vocabulary for statements about [CFG.update] *)

Module CFG_spec.
Import CFG.







End CFG_spec.


(** ** utils/download.py: guarded extraction of tar archives *)

Module Download.

(** *** The pieces of [os.path] (POSIX flavour) the guard is built from *)

(** [s.split("/")] *)
Fixpoint split_sep (s : string) : list string :=
  match s with
  | EmptyString => [EmptyString]
  | String a s' =>
      let r := split_sep s' in
      if Ascii.eqb a "/"%char then EmptyString :: r
      else match r with
           | h :: t => String a h :: t
           | [] => [String a EmptyString]
           end
  end.

(** ["/".join(comps)] *)
Fixpoint join_sep (comps : list string) : string :=
  match comps with
  | [] => EmptyString
  | [c] => c
  | c :: rest => c +:+ "/" +:+ join_sep rest
  end.

Fixpoint endswith_sep (s : string) : bool :=
  match s with
  | EmptyString => false
  | String a EmptyString => Ascii.eqb a "/"%char
  | String _ s' => endswith_sep s'
  end.

Definition isabs (s : string) : bool := String.prefix "/" s.

(** [os.path.join(a, b)] *)
Definition join (a b : string) : string :=
  if String.prefix "/" b then b
  else if String.eqb a EmptyString || endswith_sep a then a +:+ b
  else a +:+ "/" +:+ b.

(** The component loop of [posixpath.normpath]; [new_comps] is kept in
    reverse, so that its head is [new_comps[-1]]. *)
Fixpoint normpath_loop (initial_slashes : nat) (comps : list string)
    (new_comps : list string) : list string :=
  match comps with
  | [] => rev new_comps
  | comp :: rest =>
      if String.eqb comp EmptyString || String.eqb comp "." then
        normpath_loop initial_slashes rest new_comps
      else if negb (String.eqb comp "..")
              || (Nat.eqb initial_slashes 0 && bool_decide (new_comps = []))
              || match new_comps with
                 | last :: _ => String.eqb last ".."
                 | [] => false
                 end
      then normpath_loop initial_slashes rest (comp :: new_comps)
      else match new_comps with
           | _ :: popped => normpath_loop initial_slashes rest popped
           | [] => normpath_loop initial_slashes rest new_comps
           end
  end.

Definition normpath (path : string) : string :=
  if String.eqb path EmptyString then "."
  else
    let initial_slashes :=
      if String.prefix "/" path then
        if String.prefix "//" path && negb (String.prefix "///" path)
        then 2%nat else 1%nat
      else 0%nat in
    let comps := normpath_loop initial_slashes (split_sep path) [] in
    let path' :=
      match initial_slashes with
      | 0%nat => join_sep comps
      | 1%nat => "/" +:+ join_sep comps
      | _ => "//" +:+ join_sep comps
      end in
    if String.eqb path' EmptyString then "." else path'.

(** [os.path.abspath], with the working directory made explicit. *)
Definition abspath (cwd path : string) : string :=
  normpath (if isabs path then path else join cwd path).

(** [os.path.commonprefix([a, b])]: the longest common prefix of the two
    strings, character by character. *)
Fixpoint commonprefix (a b : string) : string :=
  match a, b with
  | String x a', String y b' =>
      if Ascii.eqb x y then String x (commonprefix a' b') else EmptyString
  | _, _ => EmptyString
  end.

(** *** The guard *)

Definition _is_within_directory (cwd directory target : string) : bool :=
  let abs_directory := abspath cwd directory in
  let abs_target := abspath cwd target in
  let prefix := commonprefix abs_directory abs_target in
  String.eqb prefix abs_directory.

(** A member of an archive: its stored name and its contents.  The members
    are regular files; the guard reads nothing but their names, and
    directories and links are not represented. *)
Record TarInfo : Type := mkTarInfo { name : string; data : string }.

(** The file system, as the map from absolute normalised paths to file
    contents. *)
Abbreviation filesystem := (gmap string string).

(** [tar.extractall(dst_dir, members)]: every selected member is written
    below [dst_dir] at its stored name; [members=None] selects them all.
    The directories on the way are created as needed; what the file system
    may refuse (a path that runs through an existing file) is not
    represented. *)
Definition extractall (cwd : string) (tar : list TarInfo) (dst_dir : string)
    (members : option (list TarInfo)) (fs : filesystem) : filesystem :=
  foldl (fun fs' member =>
           <[abspath cwd (join dst_dir (name member)) := data member]> fs')
        fs (default tar members).

(** [members or tar.getmembers()] *)
Definition members_or_all (tar : list TarInfo)
    (members : option (list TarInfo)) : list TarInfo :=
  match members with
  | Some (m :: ms) => m :: ms
  | _ => tar
  end.

(** The checking loop: the first member that fails the test raises. *)
Fixpoint check_members (cwd dst_dir : string) (ms : list TarInfo)
  : result unit :=
  match ms with
  | [] => Ok tt
  | member :: rest =>
      let member_path := join dst_dir (name member) in
      if negb (_is_within_directory cwd dst_dir member_path)
      then Raise Exception
      else check_members cwd dst_dir rest
  end.

(** [_safe_tar_extract(tar, dst_dir, members)]: the outcome together with
    the file system it leaves behind. *)
Definition _safe_tar_extract (cwd : string) (tar : list TarInfo)
    (dst_dir : string) (members : option (list TarInfo)) (fs : filesystem)
  : result unit * filesystem :=
  match check_members cwd dst_dir (members_or_all tar members) with
  | Raise e => (Raise e, fs)
  | Ok _ => (Ok tt, extractall cwd tar dst_dir members fs)
  end.

(** What it means for a path to lie in a directory: the components of the
    directory's absolute path are the leading components of the target's. *)
Definition components (cwd path : string) : list string :=
  filter (fun c => c <> EmptyString) (split_sep (abspath cwd path)).

Definition lies_within (cwd directory target : string) : bool :=
  bool_decide (components cwd directory `prefix_of` components cwd target).

End Download.

(** ** Vocabulary for statements about the extraction guard *)

Module Download_spec.

(** POSIX keeps exactly two leading slashes apart from one or three. *)
Definition two_slashes (s : string) : bool :=
  String.prefix "//" s && negb (String.prefix "///" s).

(** The string holds a separator. *)
Definition has_sep (s : string) : bool :=
  existsb (Ascii.eqb "/"%char) (list_ascii_of_string s).

(** A path component as [normpath] keeps it: non-empty and free of
    separators. *)
Definition plain (c : string) : Prop := c <> EmptyString /\ has_sep c = false.

End Download_spec.

(** ** The parts of the [wfdb] package the readers call

    [wfdb] is not part of the repository.  [rdann] is taken as wfdb 4
    has it: [check_read_inputs], then [proc_ann_bytes], and
    [Annotation.apply_range] only [if sampfrom > 0 and sampto is not
    None]. *)

Module Wfdb.

(** An annotation file is a sequence of annotations; [wfdb.Annotation]
    exposes it as the parallel arrays [sample], [symbol] and [aux_note]. *)
Record ann_entry : Type :=
  mkEntry { entry_sample : Z; entry_symbol : string; entry_aux_note : string }.

Abbreviation Annotation := (list ann_entry).

Definition sample (a : Annotation) : list Z := entry_sample <$> a.
Definition symbol (a : Annotation) : list string := entry_symbol <$> a.
Definition aux_note (a : Annotation) : list string := entry_aux_note <$> a.

(** [check_read_inputs(sampfrom, sampto, ...)], the first thing [rdann]
    does: [if sampto and sampto <= sampfrom: raise ValueError] and
    [if sampfrom < 0: raise ValueError]. *)
Definition check_read_inputs (sampfrom : Z) (sampto : option Z)
  : result unit :=
  let sampto_truthy :=
    match sampto with Some t => negb (t =? 0) | None => false end in
  if sampto_truthy && (default 0 sampto <=? sampfrom) then Raise ValueError
  else if sampfrom <? 0 then Raise ValueError
  else Ok tt.

(** [proc_ann_bytes(filebytes, sampto)] reads the annotations one after
    the other; with a truthy [sampto] it drops the first annotation whose
    sample is beyond [sampto] and stops there. *)
Fixpoint read_until (sampto : Z) (a : Annotation) : Annotation :=
  match a with
  | [] => []
  | e :: rest =>
      if sampto <? entry_sample e then [] else e :: read_until sampto rest
  end.

Definition proc_ann_bytes (a : Annotation) (sampto : option Z) : Annotation :=
  match sampto with
  | Some t => if t =? 0 then a else read_until t a
  | None => a
  end.

(** [Annotation.apply_range(sampfrom, sampto)]:
    [sampto = sampto or self.sample[-1]], then the annotations with
    [sampfrom <= sample <= sampto] are kept. *)
Definition apply_range (sampfrom sampto : Z) (a : Annotation)
  : result Annotation :=
  sampto ← (if sampto =? 0
            then match last (sample a) with
                 | Some s => Ok s
                 | None => Raise IndexError
                 end
            else Ok sampto);
  Ok (filter (fun e => Is_true ((sampfrom <=? entry_sample e)
                                && (entry_sample e <=? sampto))) a).

(** What [rdann] returns of the annotations [a] of the file, after the
    check of its arguments: the range is applied only
    [if sampfrom > 0 and sampto is not None]. *)
Definition select (sampfrom : Z) (sampto : option Z) (a : Annotation)
  : result Annotation :=
  let a := proc_ann_bytes a sampto in
  match sampto with
  | Some t => if 0 <? sampfrom then apply_range sampfrom t a else Ok a
  | None => Ok a
  end.

End Wfdb.

(** ** databases/physionet_databases/ltafdb.py: the [LTAFDB] reader *)

Module LTAFDB.
Import PyStr Wfdb.

Abbreviation interval := (Z * Z)%type.

(** The files of the database directory the annotation loaders touch. *)
Inductive file : Type :=
| FHeader (sig_len : Z)
| FAnnotation (a : Annotation)
| FJson (d : list (string * list interval))
| FOther (contents : string).

Abbreviation db_dir := (gmap string file).

(** The interval utilities of [utils/utils_interval.py]. *)
Class IntervalOps : Type := {
  generalized_intervals_intersection :
    list interval -> list interval -> list interval
}.

Definition manual_ann_ext : string := "atr".

Definition rhythm_types : list string :=
  ["(N"; "(AB"; "(AFIB"; "(B"; "(IVR"; "(SBR"; "(SVTA"; "(T"; "(VT"; "NOISE"].

(** [k.replace] of the opening parenthesis by nothing *)
Fixpoint replace_paren (s : string) : string :=
  match s with
  | EmptyString => EmptyString
  | String a s' =>
      if Ascii.eqb a "("%char then replace_paren s'
      else String a (replace_paren s')
  end.

Definition rhythm_types_map : list (string * Z) :=
  PyDict.of_list
    (imap (fun idx k => (replace_paren k, Z.of_nat idx)) rhythm_types).

Definition beat_types : list string := ["A"; "N"; "Q"; "V"].

(** [x or d] on optional integers: [None] and [0] are both falsy. *)
Definition int_or (x : option Z) (d : Z) : Z :=
  match x with
  | Some v => if Z.eqb v 0 then d else v
  | None => d
  end.

Definition rdheader (db : db_dir) (rec : string) : result Z :=
  match db !! (rec +:+ ".hea") with
  | Some (FHeader sig_len) => Ok sig_len
  | _ => Raise FileNotFoundError
  end.

(** [wfdb.rdann(fp, extension, sampfrom, sampto)]: the arguments are
    checked before the file is opened. *)
Definition rdann (db : db_dir) (rec extension : string)
    (sampfrom : Z) (sampto : option Z) : result Annotation :=
  _ ← check_read_inputs sampfrom sampto;
  match db !! (rec +:+ "." +:+ extension) with
  | Some (FAnnotation a) => select sampfrom sampto a
  | _ => Raise FileNotFoundError
  end.

(** *** [load_rhythm_ann] *)

(** The state of the scan over the annotated samples: the dictionary being
    filled, [start] and [current_rhythm]. *)
Definition scan_state : Type := list (string * list interval) * Z * string.

Definition scan_step (st : scan_state) (item : Z * string) : scan_state :=
  let '(ann, start, current_rhythm) := st in
  let '(idx, rhythm) := item in
  if negb (str_in rhythm rhythm_types) then st
  else (PyDict.append_at current_rhythm (start, idx) ann,
        idx, replace_paren rhythm).

Definition scan_init : scan_state :=
  (PyDict.of_list ((fun k => (k, [])) <$> PyDict.keys rhythm_types_map),
   0, "NOISE").

(** The full-record scan of the [else] branch: from the annotation file
    and the signal length to the dictionary of rhythm intervals. *)
Definition scan_rhythms (wfdb_ann : Annotation) (sig_len : Z)
  : result (list (string * list interval)) :=
  let critical_points := sample wfdb_ann in
  let '(ann, start, current_rhythm) :=
    foldl scan_step scan_init (zip critical_points (aux_note wfdb_ann)) in
  match last critical_points with
  | None => Raise IndexError
  | Some last_point =>
      let ann := PyDict.append_at current_rhythm (start, last_point) ann in
      Ok (PyDict.append_at "NOISE" (last_point, sig_len) ann)
  end.

Definition simplified_fp (rec : string) : string := rec +:+ "_ann.json".

(** Lines 284-306: read the stored intervals when the file is there, else
    scan the annotation file and store the intervals. *)
Definition load_full_rhythm_ann (db : db_dir) (rec : string) (sig_len : Z)
  : result (list (string * list interval)) * db_dir :=
  match db !! simplified_fp rec with
  | Some (FJson ann) => (Ok ann, db)
  | Some _ => (Raise JSONDecodeError, db)
  | None =>
      match wfdb_ann ← rdann db rec manual_ann_ext 0 None;
            scan_rhythms wfdb_ann sig_len with
      | Ok ann => (Ok ann, <[simplified_fp rec := FJson ann]> db)
      | Raise e => (Raise e, db)
      end
  end.

(** The bounds Python computes for the slice [a:b] of a sequence of
    length [n]. *)
Definition slice_bound (i n : Z) : Z :=
  if i <? 0 then Z.max (i + n) 0 else Z.min i n.

(** [arr[a:b] = v] *)
Definition slice_assign (a b v : Z) (arr : list Z) : list Z :=
  let n := Z.of_nat (length arr) in
  let lo := slice_bound a n in
  let hi := slice_bound b n in
  imap (fun i x =>
          if (lo <=? Z.of_nat i) && (Z.of_nat i <? hi) then v else x) arr.

Fixpoint paint_intervals (sf v : Z) (l_itv : list interval) (arr : list Z)
  : list Z :=
  match l_itv with
  | [] => arr
  | itv :: rest => paint_intervals sf v rest
                     (slice_assign (itv.1 - sf) (itv.2 - sf) v arr)
  end.

Fixpoint paint_rhythms (sf : Z) (tmp : list (string * list interval))
    (arr : list Z) : result (list Z) :=
  match tmp with
  | [] => Ok arr
  | (rhythm, l_itv) :: rest =>
      match l_itv with
      | [] => paint_rhythms sf rest arr
      | _ =>
          match PyDict.get rhythm rhythm_types_map with
          | Some v => paint_rhythms sf rest (paint_intervals sf v l_itv arr)
          | None => Raise KeyError
          end
      end
  end.

Inductive rhythm_ann : Type :=
| RhythmIntervals (ann : list (string * list interval))
| RhythmMask (mask : list Z).

(** Lines 308-309: cut every class to the window and drop the classes left
    without intervals. *)
Definition window_intervals `{IntervalOps} (sf st : Z)
    (ann : list (string * list interval)) : list (string * list interval) :=
  filter (fun kl : string * list interval =>
            bool_decide (0 < length kl.2)%nat)
    (PyDict.of_list
       ((fun kl : string * list interval =>
           (kl.1, generalized_intervals_intersection kl.2 [(sf, st)]))
          <$> ann)).

Definition load_rhythm_ann `{IntervalOps} (db : db_dir) (rec : string)
    (sampfrom sampto : option Z) (rhythm_format : string)
    (keep_original : bool) : result rhythm_ann * db_dir :=
  match
    (_ ← assert (str_in (lower rhythm_format) ["interval"; "mask"]);
     sig_len ← rdheader db rec;
     let sf := int_or sampfrom 0 in
     let st := int_or sampto sig_len in
     _ ← assert (sf <? st);
     Ok (sig_len, sf, st))
  with
  | Raise e => (Raise e, db)
  | Ok (sig_len, sf, st) =>
      match load_full_rhythm_ann db rec sig_len with
      | (Raise e, db') => (Raise e, db')
      | (Ok ann, db') =>
          let ann := window_intervals sf st ann in
          if String.eqb (lower rhythm_format) "mask" then
            let N := default 0 (PyDict.get "N" rhythm_types_map) in
            (RhythmMask <$>
               paint_rhythms sf ann (replicate (Z.to_nat (st - sf)) N), db')
          else if negb keep_original then
            (Ok (RhythmIntervals
                   (PyDict.of_list
                      ((fun kl : string * list interval =>
                          (kl.1, (fun itv : interval =>
                                    (itv.1 - sf, itv.2 - sf)) <$> kl.2))
                         <$> ann))), db')
          else (Ok (RhythmIntervals ann), db')
      end
  end.

(** *** [load_beat_ann] *)

(** [databases/base.py]: the [BeatAnn] dataclass. *)
Record BeatAnn : Type := mkBeatAnn { index : Z; beat_symbol : string }.

Inductive beat_ann : Type :=
| BeatDict (ann : list (string * list Z))
| BeatList (ann : list BeatAnn).

Definition beat_step (ann : list (string * list Z)) (item : Z * string)
  : list (string * list Z) :=
  let '(idx, bt) := item in
  if negb (str_in bt beat_types) then ann
  else PyDict.append_at bt idx ann.

Definition load_beat_ann (db : db_dir) (rec : string)
    (sampfrom sampto : option Z) (beat_format : string)
    (keep_original : bool) : result beat_ann :=
  _ ← assert (str_in (lower beat_format) ["beat"; "dict"]);
  sig_len ← rdheader db rec;
  let sf := int_or sampfrom 0 in
  let st := int_or sampto sig_len in
  _ ← assert (sf <? st);
  wfdb_ann ← rdann db rec manual_ann_ext sf sampto;
  let ann := PyDict.of_list ((fun k => (k, [])) <$> beat_types) in
  let ann := foldl beat_step ann (zip (sample wfdb_ann) (symbol wfdb_ann)) in
  let ann :=
    if negb keep_original && bool_decide (sampfrom <> None)
    then PyDict.of_list
           ((fun kv : string * list Z =>
               (kv.1, (fun i => i - sf) <$> kv.2)) <$> ann)
    else PyDict.of_list ((fun kv : string * list Z => (kv.1, kv.2)) <$> ann) in
  if String.eqb (lower beat_format) "beat"
  then Ok (BeatList
             (mjoin ((fun kl : string * list Z =>
                        (fun i => mkBeatAnn i kl.1) <$> kl.2) <$> ann)))
  else Ok (BeatDict ann).

(** *** [load_rpeak_indices] *)

Definition auto_ann_ext : string := "qrs".

Definition load_rpeak_indices (db : db_dir) (rec : string)
    (sampfrom sampto : option Z) (use_manual keep_original : bool)
  : result (list Z) :=
  let ext := if use_manual then manual_ann_ext else auto_ann_ext in
  wfdb_ann ← rdann db rec ext (int_or sampfrom 0) sampto;
  let rpeak_inds :=
    fst <$> filter (fun it : Z * string => str_in it.2 beat_types)
              (zip (sample wfdb_ann) (symbol wfdb_ann)) in
  if negb keep_original
  then match sampfrom with
       | Some s => Ok ((fun i => i - s) <$> rpeak_inds)
       | None => Ok rpeak_inds
       end
  else Ok rpeak_inds.

End LTAFDB.

(** ** Vocabulary for statements about labelled intervals *)

Module Intervals.

(** [itv] read as the half-open range [[start, end)]. *)
Definition covers (x : Z) (itv : Z * Z) : bool :=
  (itv.1 <=? x) && (x <? itv.2).

(** How many intervals of the list contain [x]. *)
Definition count_cover (x : Z) (l : list (Z * Z)) : nat :=
  length (filter (fun itv => covers x itv = true) l).

(** Each interval starts where the previous one ends, from [s] to [e]. *)
Fixpoint chain (s : Z) (l : list (Z * Z)) (e : Z) : Prop :=
  match l with
  | [] => s = e
  | itv :: rest => itv.1 = s /\ chain itv.2 rest e
  end.

Definition proper (itv : Z * Z) : Prop := itv.1 <= itv.2.

Definition overlap (i1 i2 : Z * Z) : Prop :=
  exists x, covers x i1 = true /\ covers x i2 = true.

(** Some interval of the class contains [x]. *)
Definition class_covers (x : Z) (kl : string * list (Z * Z)) : bool :=
  existsb (covers x) kl.2.

(** The intervals of a dictionary of interval lists, each with its key. *)
Definition labelled (d : list (string * list (Z * Z)))
  : list (string * (Z * Z)) :=
  mjoin ((fun kl : string * list (Z * Z) => (fun itv => (kl.1, itv)) <$> kl.2)
           <$> d).

End Intervals.

(** ** What the readers rely on from the interval utilities *)

Module LTAFDB_contract.
Import LTAFDB Intervals.

(** [generalized_intervals_intersection l [[sf, st]]] returns intervals
    that lie in the window, and every point of a returned interval is a
    point of some interval of [l]. *)
Class IntervalLaws `{IntervalOps} : Prop := {
  intersection_bounds :
    forall (l : list interval) (sf st : Z) (itv : interval),
      itv ∈ generalized_intervals_intersection l [(sf, st)] ->
      sf <= itv.1 /\ itv.1 <= itv.2 /\ itv.2 <= st;
  intersection_sound :
    forall (l w : list interval) (itv : interval) (x : Z),
      Forall proper l ->
      itv ∈ generalized_intervals_intersection l w ->
      covers x itv = true ->
      exists itv', itv' ∈ l /\ covers x itv' = true
}.

End LTAFDB_contract.

(** ** The sequence of [append] calls of the rhythm scan *)

Module LTAFDB_trace.
Import PyStr Wfdb LTAFDB.

(** The labelled intervals that the loop of [load_rhythm_ann] appends, in
    the order of the calls, with the [start] and [current_rhythm] the loop
    ends with. *)
Fixpoint trace_items (start : Z) (current_rhythm : string)
    (items : list (Z * string))
  : list (string * interval) * (Z * string) :=
  match items with
  | [] => ([], (start, current_rhythm))
  | (idx, rhythm) :: rest =>
      if negb (str_in rhythm rhythm_types)
      then trace_items start current_rhythm rest
      else let '(tr, fin) := trace_items idx (replace_paren rhythm) rest in
           ((current_rhythm, (start, idx)) :: tr, fin)
  end.

(** All appends of the full-record scan, the two after the loop included. *)
Definition scan_trace (wfdb_ann : Annotation) (sig_len : Z)
  : list (string * interval) :=
  let '(tr, (start, current_rhythm)) :=
    trace_items 0 "NOISE" (zip (sample wfdb_ann) (aux_note wfdb_ann)) in
  match last (sample wfdb_ann) with
  | None => tr
  | Some last_point =>
      tr ++ [(current_rhythm, (start, last_point));
             ("NOISE", (last_point, sig_len))]
  end.

End LTAFDB_trace.

(** ** Two-dimensional [numpy] arrays *)

Module Numpy.

Section arrays.
Context {A : Type}.

Record ndarray2 : Type := mkArray {
  nrows : nat;
  ncols : nat;
  item : nat -> nat -> A
}.

(** [a.T] *)
Definition T (a : ndarray2) : ndarray2 :=
  {| nrows := ncols a; ncols := nrows a; item := fun i j => item a j i |}.

(** [a[:, cols]] *)
Definition select_cols (cols : list nat) (a : ndarray2) : ndarray2 :=
  {| nrows := nrows a;
     ncols := length cols;
     item := fun i j => item a i (nth j cols 0%nat) |}.


Definition map_array (f : A -> A) (a : ndarray2) : ndarray2 :=
  {| nrows := nrows a; ncols := ncols a;
     item := fun i j => f (item a i j) |}.

(** Same shape and same entries. *)
Definition array_eq (a b : ndarray2) : Prop :=
  nrows a = nrows b /\ ncols a = ncols b /\
  forall i j, (i < nrows a)%nat -> (j < ncols a)%nat ->
              item a i j = item b i j.

(** What [load_data] returns: a matrix, or a flat vector. *)
Inductive ndarray : Type :=
| Arr2 (a : ndarray2)
| Arr1 (size : nat) (item1 : nat -> A).

(** [a.flatten()], row by row *)
Definition flatten (a : ndarray2) : ndarray :=
  Arr1 (nrows a * ncols a)
       (fun k => item a (k / ncols a)%nat (k mod ncols a)%nat).

End arrays.
Arguments ndarray2 A : clear implicits.
Arguments ndarray A : clear implicits.

End Numpy.

(** ** databases/base.py: [PhysioNetDataBase.load_data] *)

Module PhysioNetDataBase.
Import PyStr Numpy.

(** A lead is named by a string or by an integer. *)
Inductive lead : Type :=
| LeadName (s : string)
| LeadNumber (n : Z).

#[export] Instance lead_eq_dec : EqDecision lead.
Proof. solve_decision. Defined.

(** The [leads] argument: [None], one lead, or a sequence of leads. *)
Inductive leads_arg : Type :=
| NoLeads
| OneLead (ld : lead)
| ManyLeads (l : list lead).

(** Unit conversion and resampling ([scipy.signal.resample_poly] along
    axis 0, cast back to the array's dtype). *)
Class SignalOps (A : Type) : Type := {
  times1000 : A -> A;
  resample_poly : ndarray2 A -> Q -> Q -> ndarray2 A
}.


(** A record as [wfdb] reads it: header fields and the samples of every
    channel, digital and physical. *)
Record WfdbRecord (A : Type) : Type := mkRecord {
  rec_fs : Q;
  sig_name : list string;
  sig_len : nat;
  d_signal : nat -> nat -> A;
  p_signal : nat -> nat -> A
}.
Arguments rec_fs {A} _.
Arguments sig_name {A} _.
Arguments sig_len {A} _.
Arguments d_signal {A} _ _ _.
Arguments p_signal {A} _ _ _.

(** A database reader: the attribute [all_leads] when the class has it,
    the attribute [fs] (which may hold [None]), and the records of the
    database directory. *)
Record DataBase (A : Type) : Type := mkDataBase {
  all_leads : option (list lead);
  self_fs : option Q;
  records : gmap string (WfdbRecord A)
}.
Arguments all_leads {A} _.
Arguments self_fs {A} _.
Arguments records {A} _.

(** [l[i]] with Python's negative indices *)
Definition py_getitem {X : Type} (l : list X) (i : Z) : option X :=
  let n := Z.of_nat (length l) in
  if (0 <=? i) && (i <? n) then l !! Z.to_nat i
  else if (- n <=? i) && (i <? 0) then l !! Z.to_nat (i + n)
  else None.

(** [l.index(x)] *)
Fixpoint list_index `{EqDecision X} (x : X) (l : list X) : option nat :=
  match l with
  | [] => None
  | y :: rest => if decide (y = x) then Some 0%nat
                 else S <$> list_index x rest
  end.

Fixpoint result_mapM {X Y : Type} (f : X -> result Y) (l : list X)
  : result (list Y) :=
  match l with
  | [] => Ok []
  | x :: rest => y ← f x; ys ← result_mapM f rest; Ok (y :: ys)
  end.

Definition _normalize_leads (leads : leads_arg) (all_leads : list lead)
  : result (list lead) :=
  _leads ←
    match leads with
    | NoLeads => Ok all_leads
    | OneLead (LeadName s) =>
        if String.eqb (lower s) "all" then Ok all_leads
        else Ok [LeadName s]
    | OneLead (LeadNumber n) =>
        _ ← assert ((n <? Z.of_nat (length all_leads)) && (0 <=? n));
        match py_getitem all_leads n with
        | Some ld => Ok [ld]
        | None => Raise IndexError
        end
    | ManyLeads l =>
        result_mapM
          (fun ld => match ld with
                     | LeadName _ => Ok ld
                     | LeadNumber n =>
                         match py_getitem all_leads n with
                         | Some ld' => Ok ld'
                         | None => Raise AssertionError
                         end
                     end) l
    end;
  _ ← assert (forallb (fun ld => bool_decide (ld ∈ all_leads)) _leads);
  Ok _leads.

(** [wfdb.rdrecord(fp, sampfrom, sampto, physical, channels)]: the
    samples [sampfrom .. sampto - 1] of the chosen channels, one column
    per entry of [channels].  A channel or a window outside the record
    raises [ValueError], and a channel asked for twice [TypeError]. *)
Definition rdrecord {A : Type} (r : WfdbRecord A) (sampfrom : nat)
    (sampto : option nat) (physical : bool) (channels : list nat)
  : result (ndarray2 A) :=
  let stop := default (sig_len r) sampto in
  if negb (forallb (fun c => (c <? length (sig_name r))%nat) channels)
  then Raise ValueError
  else if negb ((stop <=? sig_len r)%nat && (sampfrom <? stop)%nat)
  then Raise ValueError
  else if negb (bool_decide (NoDup channels)) then Raise TypeError
  else
    let signal := if physical then p_signal r else d_signal r in
    Ok {| nrows := stop - sampfrom;
          ncols := length channels;
          item := fun i j => signal (sampfrom + i)%nat (nth j channels 0%nat) |}.

Definition allowed_data_format : list string :=
  ["channel_first"; "lead_first"; "channel_last"; "lead_last"; "flat"; "plain"].

Definition allowed_units : list string := ["mv"; "uv"; "μv"; "muv"].

(** [x or 0] *)
Definition nat_or_0 (x : option nat) : nat := default 0%nat x.

(** From the samples read to the data returned: units, then sampling
    frequency. *)
Definition convert_units `{SignalOps A} (units : option string)
    (read : ndarray2 A) : ndarray2 A :=
  match units with
  | None => read
  | Some u =>
      if String.eqb (lower u) "mv" then read else map_array times1000 read
  end.

Definition resample `{SignalOps A} (data_fs : option Q) (rec_fs : Q)
    (data : ndarray2 A) : result (ndarray2 A) :=
  match data_fs with
  | None => Raise TypeError
  | Some f =>
      if Qeq_bool f rec_fs then Ok data
      else Ok (resample_poly data f rec_fs)
  end.

(** [load_data].  The path of the record comes from
    [get_absolute_path], which looks [rec] up in the table of records: a
    record that is not there raises [KeyError]. *)
Definition load_data `{SignalOps A} (self : DataBase A) (rec : string)
    (leads : leads_arg) (sampfrom sampto : option nat)
    (data_format : string) (units : option string) (fs : option Q)
    (return_fs : bool) : result (ndarray A * option (option Q)) :=
  r ← match records self !! rec with
      | Some r => Ok r
      | None => Raise KeyError
      end;
  let all_leads := default (LeadName <$> sig_name r) (all_leads self) in
  _leads ← _normalize_leads leads all_leads;
  _ ← assert (str_in (lower data_format) allowed_data_format);
  _ ← (if (1 <? length _leads)%nat
       then assert (str_in (lower data_format)
                      ["channel_first"; "lead_first"; "channel_last";
                       "lead_last"])
       else Ok tt);
  _ ← assert (match units with
              | None => true
              | Some u => str_in (lower u) allowed_units
              end);
  channels ← result_mapM
               (fun ld => match list_index ld all_leads with
                          | Some c => Ok c
                          | None => Raise ValueError
                          end) _leads;
  wfdb_rec ← rdrecord r (nat_or_0 sampfrom) sampto
               (bool_decide (units <> None)) channels;
  let data := convert_units units wfdb_rec in
  let data_fs := match fs with Some f => Some f | None => self_fs self end in
  data ← resample data_fs (rec_fs r) data;
  let data :=
    if str_in (lower data_format) ["channel_first"; "lead_first"]
    then Arr2 (T data)
    else if str_in (lower data_format) ["flat"; "plain"]
    then flatten data
    else Arr2 data in
  Ok (data, if return_fs then Some data_fs else None).

(** [_normalize_leads(leads, all_leads, numeric=True)]: the positions of
    the normalised leads. *)
Definition _normalize_leads_numeric (leads : leads_arg)
    (all_leads : list lead) : result (list nat) :=
  _leads ← _normalize_leads leads all_leads;
  result_mapM (fun ld => match list_index ld all_leads with
                         | Some c => Ok c
                         | None => Raise ValueError
                         end) _leads.

(** [f] applied to every entry of what [load_data] returns. *)
Definition map_ndarray {A : Type} (f : A -> A) (a : ndarray A) : ndarray A :=
  match a with
  | Arr2 a => Arr2 (map_array f a)
  | Arr1 size item1 => Arr1 size (fun k => f (item1 k))
  end.

(** A floating-point sample: a finite number, an infinity or a NaN. *)
Inductive float : Type :=
| Finite (q : Q)
| PInf
| NInf
| NaN.

(** The entries of a signal, as [wfdb] gives them: floating-point numbers
    (physical values), or signed integers of [bits] bits (digital
    values). *)
Inductive samples : Type :=
| Floats (l : list float)
| Ints (bits : Z) (l : list Z).

Inductive scalar : Type :=
| FloatScalar (x : float)
| IntScalar (z : Z).

Definition fabs (x : float) : float :=
  match x with
  | Finite q => Finite (Qabs q)
  | NInf => PInf
  | _ => x
  end.

(** The absolute value of a signed integer of [bits] bits: the least one,
    [- 2 ^ (bits - 1)], has no opposite and comes back as it is. *)
Definition iabs (bits : Z) (z : Z) : Z :=
  if z =? - 2 ^ (bits - 1) then z else Z.abs z.

(** [np.abs] *)
Definition np_abs (sig : samples) : samples :=
  match sig with
  | Floats l => Floats (fabs <$> l)
  | Ints bits l => Ints bits (iabs bits <$> l)
  end.

(** The greater of two floats as [np.max] takes it: a NaN on either side
    gives NaN. *)
Definition fmax (x y : float) : float :=
  match x, y with
  | NaN, _ | _, NaN => NaN
  | PInf, _ | _, PInf => PInf
  | NInf, z | z, NInf => z
  | Finite a, Finite b => Finite (Qmax a b)
  end.

(** [np.max] of an array, given by its entries: an empty array raises
    [ValueError]. *)
Definition np_max (sig : samples) : result scalar :=
  match sig with
  | Floats [] | Ints _ [] => Raise ValueError
  | Floats (x :: rest) => Ok (FloatScalar (foldl fmax x rest))
  | Ints _ (z :: rest) => Ok (IntScalar (foldl Z.max z rest))
  end.

(** [v > c] for an integer [c]: false of a NaN. *)
Definition gt (v : scalar) (c : Z) : bool :=
  match v with
  | FloatScalar (Finite q) => negb (Qle_bool q (inject_Z c))
  | FloatScalar PInf => true
  | FloatScalar _ => false
  | IntScalar z => c <? z
  end.

(** [_auto_infer_units(sig, sig_type)] *)
Definition _auto_infer_units (sig : samples) (sig_type : string)
  : result string :=
  if String.eqb (lower sig_type) "ecg" then
    let _MAX_mV := 20 in
    max_val ← np_max (np_abs sig);
    if gt max_val _MAX_mV then Ok "μV" else Ok "mV"
  else Raise NotImplementedError.

End PhysioNetDataBase.

(** ** Vocabulary for statements about [_auto_infer_units] *)

Module DataBase_units_spec.
Import PhysioNetDataBase.

Definition size (sig : samples) : nat :=
  match sig with Floats l => length l | Ints _ l => length l end.

Definition is_nan (x : float) : bool :=
  match x with NaN => true | _ => false end.

(** The sample is beyond [c] in absolute value; an infinity is, a NaN is
    not. *)
Definition beyond (c : Z) (x : float) : bool :=
  match x with
  | Finite q => negb (Qle_bool (Qabs q) (inject_Z c))
  | PInf | NInf => true
  | NaN => false
  end.

(** The integer sample of [bits] bits is beyond [c] in absolute value and
    is not the least one. *)
Definition beyond_int (bits c z : Z) : bool :=
  negb (z =? - 2 ^ (bits - 1)) && (c <? Z.abs z).

End DataBase_units_spec.

(** ** databases/base.py: [PSGDataBaseMixin.sleep_stage_intervals_to_mask] *)

Module PSGDataBaseMixin.
Import PyStr.

Abbreviation interval := (Z * Z)%type.

(** [int(round(x / fs / granularity))], computed in floating point: taken
    as given. *)
Class Rounding : Type := {
  to_epoch : Z -> Q -> Q -> Z
}.

(** The attributes of the reader that the mixin reads: [fs], which may
    hold [None], and [sleep_stage_names], which a reader may lack. *)
Record Self : Type := mkSelf {
  self_fs : option Q;
  sleep_stage_names : option (list string)
}.

(** [d[k] = v] on a dictionary with integer keys *)
Fixpoint set_code {V : Type} (k : Z) (v : V) (d : list (Z * V))
  : list (Z * V) :=
  match d with
  | [] => [(k, v)]
  | (k', v') :: rest =>
      if Z.eqb k k' then (k', v) :: rest else (k', v') :: set_code k v rest
  end.

(** [{k: v for ...}] with integer keys *)
Definition of_codes {V : Type} (items : list (Z * V)) : list (Z * V) :=
  foldl (fun d kv => set_code kv.1 kv.2 d) [] items.

(** [{k: len(names) - i - 1 for i, k in enumerate(names)}] *)
Definition default_class_map (names : list string) : list (string * Z) :=
  PyDict.of_list
    (imap (fun i k => (k, Z.of_nat (length names) - Z.of_nat i - 1)) names).

(** The two loops [for k, v in intervals.items(): for s, e in v:
    mask[s:e] = k]. *)
Fixpoint paint_stages (intervals : list (Z * list interval))
    (mask : list Z) : list Z :=
  match intervals with
  | [] => mask
  | (k, v) :: rest => paint_stages rest (LTAFDB.paint_intervals 0 k v mask)
  end.

(** [[[int(round(s / fs / granularity)), int(round(e / fs / granularity))]
    for s, e in v]] *)
Definition epochs `{Rounding} (fs granularity : Q) (v : list interval)
  : list interval :=
  (fun itv : interval =>
     (to_epoch itv.1 fs granularity, to_epoch itv.2 fs granularity)) <$> v.

(** The dictionary of the sleep stage codes with their intervals in
    epochs, before the empty ones are dropped. *)
Definition coded_intervals `{Rounding} (class_map : list (string * Z))
    (fs granularity : Q) (intervals : list (string * list interval))
  : result (list (Z * list interval)) :=
  of_codes <$>
    PhysioNetDataBase.result_mapM
      (fun kv : string * list interval =>
         match PyDict.get kv.1 class_map with
         | Some c =>
             Ok (c, epochs fs granularity kv.2)
         | None => Raise KeyError
         end) intervals.

(** The two comprehensions that drop the empty intervals and then the
    stages left without an interval. *)
Definition kept_intervals (intervals : list (Z * list interval))
  : list (Z * list interval) :=
  let intervals :=
    (fun kv : Z * list interval =>
       (kv.1, filter (fun itv : interval => itv.1 < itv.2) kv.2))
      <$> intervals in
  filter (fun kv : Z * list interval => (0 < length kv.2)%nat) intervals.

(** [fs or self.fs] *)
Definition fs_or (self : Self) (fs : option Q) : option Q :=
  match fs with
  | Some f => if Qeq_bool f 0 then self_fs self else Some f
  | None => self_fs self
  end.

(** The class map in use: the one given, which a reader without
    [sleep_stage_names] must be given; for the other readers an empty or
    missing one is replaced by the default one. *)
Definition class_map_or (self : Self) (class_map : option (list (string * Z)))
  : result (list (string * Z)) :=
  match sleep_stage_names self with
  | None => match class_map with
            | Some cm => Ok cm
            | None => Raise AssertionError
            end
  | Some names => match class_map with
                  | Some (c :: cm) => Ok (c :: cm)
                  | _ => Ok (default_class_map names)
                  end
  end.

Definition sleep_stage_intervals_to_mask `{Rounding} (self : Self)
    (intervals : list (string * list interval)) (fs : option Q)
    (granularity : Q) (class_map : option (list (string * Z)))
  : result (list Z) :=
  match fs_or self fs with
  | None => Raise AssertionError
  | Some fs =>
      _ ← assert (negb (Qle_bool fs 0));
      _ ← assert (negb (Qle_bool granularity 0));
      class_map ← class_map_or self class_map;
      intervals ← coded_intervals class_map fs granularity intervals;
      let intervals := kept_intervals intervals in
      match mjoin ((fun kv : Z * list interval => snd <$> kv.2)
                     <$> intervals) with
      | [] => Raise ValueError
      | e :: es =>
          let siglen := foldl Z.max e es in
          if siglen <? 0 then Raise ValueError
          else Ok (paint_stages intervals (replicate (Z.to_nat siglen) 0))
      end
  end.

End PSGDataBaseMixin.

(** ** Vocabulary for statements about the sleep stage mask *)

Module PSG_contract.
Import PSGDataBaseMixin.

(** Epoch [i] lies in an interval of a stage with code [c]. *)
Definition in_stage `{Rounding} (cm : list (string * Z)) (fs g : Q)
    (intervals : list (string * list interval)) (i c : Z) : Prop :=
  exists k l s e,
    (k, l) ∈ intervals /\ (s, e) ∈ l /\ PyDict.get k cm = Some c /\
    to_epoch s fs g <= i < to_epoch e fs g.

End PSG_contract.

(** ** A reader, a rounding and a hypnogram on which the mask is computed *)

Module PSG_fixtures.
Import PSGDataBaseMixin.

(** Rounding to the nearest integer, halves to the even one, of the exact
    quotient. *)
Definition round_half_even (q : Q) : Z :=
  let fl := Qfloor q in
  match (q - inject_Z fl ?= 1 # 2)%Q with
  | Lt => fl
  | Gt => fl + 1
  | Eq => if Z.even fl then fl else fl + 1
  end.

Definition exact_rounding : Rounding :=
  {| to_epoch x fs g := round_half_even (inject_Z x / fs / g) |}.

Definition reader : Self :=
  mkSelf (Some 100%Q) (Some ["W"; "N1"; "N2"]).

Definition hypnogram : list (string * list interval) :=
  [("W", [(0, 6000)]); ("N1", [(6000, 9000); (9000, 9010)]);
   ("N2", [(12000, 15000)])].

End PSG_fixtures.

(** ** Tensors of shape [(batch_size, n_channels, seq_len)] *)

Module Torch.

Section tensor.
Context {A : Type}.

Record Tensor : Type := mkTensor {
  batch : nat;
  channels : nat;
  seq_len : nat;
  elem : nat -> nat -> nat -> A
}.

(** [t1] and [t2] have the same shape and the same entries. *)
Definition tensor_eq (t1 t2 : Tensor) : Prop :=
  batch t1 = batch t2 /\ channels t1 = channels t2 /\
  seq_len t1 = seq_len t2 /\
  forall b c l, (b < batch t1)%nat -> (c < channels t1)%nat ->
                (l < seq_len t1)%nat -> elem t1 b c l = elem t2 b c l.

(** [torch.cat([t1, t2], dim=1)]: the other two sizes have to agree. *)
Definition cat2 (t1 t2 : Tensor) : result Tensor :=
  if Nat.eqb (batch t1) (batch t2) && Nat.eqb (seq_len t1) (seq_len t2)
  then Ok {| batch := batch t1;
             channels := channels t1 + channels t2;
             seq_len := seq_len t1;
             elem := fun b c l =>
                       if (c <? channels t1)%nat then elem t1 b c l
                       else elem t2 b (c - channels t1) l |}
  else Raise RuntimeError.

Fixpoint cat_from (acc : Tensor) (ts : list Tensor) : result Tensor :=
  match ts with
  | [] => Ok acc
  | t :: rest => acc' ← cat2 acc t; cat_from acc' rest
  end.

(** [torch.cat(ts, dim=1)] *)
Definition cat (ts : list Tensor) : result Tensor :=
  match ts with
  | [] => Raise RuntimeError
  | t :: rest => cat_from t rest
  end.

(** [t[:, a:b, :]] for non-negative [a] and [b] *)
Definition slice_channels (a b : nat) (t : Tensor) : Tensor :=
  let lo := Nat.min a (channels t) in
  let hi := Nat.min b (channels t) in
  {| batch := batch t;
     channels := hi - lo;
     seq_len := seq_len t;
     elem := fun n c l => elem t n (c + lo) l |}.

End tensor.
Arguments Tensor A : clear implicits.

(** What [compute_output_shape] returns: batch size and length may be
    [None]. *)
Abbreviation shape := (option nat * nat * option nat)%type.

Definition shape_of {A : Type} (t : Tensor A) : shape :=
  (Some (batch t), channels t, Some (seq_len t)).

End Torch.

(** ** The layers of [models/_nets.py] and [torch.nn] that DenseNet uses *)

Module Nets.
Import Torch.

(** The arguments of [Conv_Bn_Activation] that bear on shapes. *)
Record ConvCfg : Type := mkConv {
  conv_in_channels : nat;
  conv_out_channels : nat;
  conv_kernel_size : nat;
  conv_stride : nat;
  conv_dilation : nat;
  conv_groups : nat
}.

(** Building a [Conv_Bn_Activation]: the class asserts that [groups]
    divides [out_channels], then builds a [torch.nn.Conv1d], which
    rejects with [ValueError] an [in_channels] that [groups] does not
    divide. *)
Definition Conv_Bn_Activation_init (c : ConvCfg) : result ConvCfg :=
  if Nat.eqb (conv_groups c) 0 then Raise ZeroDivisionError
  else if negb (Nat.eqb (conv_out_channels c mod conv_groups c) 0)
  then Raise AssertionError
  else if negb (Nat.eqb (conv_in_channels c mod conv_groups c) 0)
  then Raise ValueError
  else Ok c.

(** The arguments of [DownSample]. *)
Record DownCfg : Type := mkDown {
  down_scale : nat;
  down_in_channels : nat;
  down_kernel_size : option nat;
  down_padding : option nat;
  down_mode : string
}.

Inductive dropout_layer : Type :=
| Identity
| Dropout (p : Q)
| Dropout1d (p : Q).

Class Layers (A : Type) : Type := {
  Conv_Bn_Activation_forward : ConvCfg -> Tensor A -> result (Tensor A);
  Conv_Bn_Activation_shape : ConvCfg -> option nat -> option nat -> shape;
  DownSample_forward : DownCfg -> Tensor A -> result (Tensor A);
  DownSample_shape : DownCfg -> option nat -> option nat -> shape;
  nn_Dropout_forward : Q -> Tensor A -> Tensor A
}.

Definition dropout_forward `{Layers A} (d : dropout_layer) (t : Tensor A)
  : Tensor A :=
  match d with
  | Identity => t
  | Dropout p | Dropout1d p => nn_Dropout_forward p t
  end.

(** The contract of the layers: each one accepts input with the channel
    count it was built for and returns a tensor of the shape its
    [compute_output_shape] announces; a convolution block has
    [out_channels] output channels and, with stride 1, keeps the length; a
    [DownSample] keeps the channel count; dropout keeps the shape. *)
Class LayersLaws (A : Type) `{Layers A} : Prop := {
  conv_forward_shape :
    forall (c : ConvCfg) (x : Tensor A),
      channels x = conv_in_channels c ->
      exists y, Conv_Bn_Activation_forward c x = Ok y /\
                shape_of y = Conv_Bn_Activation_shape c (Some (seq_len x))
                                                      (Some (batch x));
  conv_shape_channels :
    forall (c : ConvCfg) (sl bs : option nat),
      (Conv_Bn_Activation_shape c sl bs).1 = (bs, conv_out_channels c);
  conv_shape_stride1 :
    forall (c : ConvCfg) (sl bs : option nat),
      conv_stride c = 1%nat -> (Conv_Bn_Activation_shape c sl bs).2 = sl;
  down_forward_shape :
    forall (d : DownCfg) (x : Tensor A),
      channels x = down_in_channels d ->
      exists y, DownSample_forward d x = Ok y /\
                shape_of y = DownSample_shape d (Some (seq_len x))
                                              (Some (batch x));
  down_shape_channels :
    forall (d : DownCfg) (sl bs : option nat),
      (DownSample_shape d sl bs).1 = (bs, down_in_channels d);
  dropout_shape :
    forall (p : Q) (x : Tensor A), shape_of (nn_Dropout_forward p x) = shape_of x
}.

End Nets.

(** ** models/cnn/densenet.py *)

Module DenseNet.
Import PyStr Torch Nets.

(** The [dropout] argument: a rate, or a dictionary with keys ["type"]
    and ["p"]. *)
Inductive dropout_arg : Type :=
| DropoutRate (p : Q)
| DropoutDict (type : option string) (p : Q).

Definition Qpositive (p : Q) : bool := negb (Qle_bool p 0).

Definition make_dropout (dropout : dropout_arg) : dropout_layer :=
  match dropout with
  | DropoutDict type p =>
      if bool_decide (type = Some "1d") && Qpositive p then Dropout1d p
      else if bool_decide (type = None) && Qpositive p then Dropout p
      else Identity
  | DropoutRate p => if Qpositive p then Dropout p else Identity
  end.

(** The entries of [**config] that the blocks read. *)
Record BlockConfig : Type := mkBlockConfig {
  building_block : string;
  memory_efficient : bool
}.

(** [int] or sequence of [int] *)
Inductive int_or_seq : Type :=
| AnInt (n : nat)
| ASeq (l : list nat).

(** [list(repeat(x, n))] for an [int], [list(x)] otherwise *)
Definition as_list (x : int_or_seq) (n : nat) : list nat :=
  match x with
  | AnInt v => replicate n v
  | ASeq l => l
  end.

(** [l[idx]] *)
Definition getitem {T : Type} (l : list T) (idx : nat) : result T :=
  match l !! idx with
  | Some v => Ok v
  | None => Raise IndexError
  end.

Module DenseBasicBlock.

Record t : Type := mk {
  in_channels : nat;
  growth_rate : nat;
  kernel_size : nat;
  groups : nat;
  bac : ConvCfg;
  dropout : dropout_layer
}.

Definition __init__ (in_channels growth_rate filter_length groups : nat)
    (dropout : dropout_arg) (config : BlockConfig) : result t :=
  if Nat.eqb groups 0 then Raise ZeroDivisionError
  else
    _ ← assert (Nat.eqb (in_channels mod groups) 0);
    _ ← assert (Nat.eqb (growth_rate mod groups) 0);
    bac ← Conv_Bn_Activation_init
            (mkConv in_channels growth_rate filter_length 1 1 groups);
    Ok {| in_channels := in_channels;
          growth_rate := growth_rate;
          kernel_size := filter_length;
          groups := groups;
          bac := bac;
          dropout := make_dropout dropout |}.

(** The list handed to [torch.cat] when [groups] is not 1: the slices of
    the input and of the new features, group by group. *)
Definition interleave {A : Type} (iw_per_group nfw_per_group groups : nat)
    (input new_features : Tensor A) : list (Tensor A) :=
  mjoin ((fun i =>
            [slice_channels (iw_per_group * i) (iw_per_group * (i + 1)) input;
             slice_channels (nfw_per_group * i) (nfw_per_group * (i + 1))
                            new_features])
           <$> seq 0 groups).

Definition new_features `{Layers A} (self : t) (input : Tensor A)
  : result (Tensor A) :=
  new_features ← Conv_Bn_Activation_forward (bac self) input;
  Ok (dropout_forward (dropout self) new_features).

Definition forward `{Layers A} (self : t) (input : Tensor A)
  : result (Tensor A) :=
  new_features ← new_features self input;
  if Nat.eqb (groups self) 1 then cat [input; new_features]
  else if Nat.eqb (groups self) 0 then Raise ZeroDivisionError
  else
    let iw_per_group := (in_channels self / groups self)%nat in
    let nfw_per_group := (growth_rate self / groups self)%nat in
    cat (interleave iw_per_group nfw_per_group (groups self)
                    input new_features).

Definition compute_output_shape (self : t) (seq_len batch_size : option nat)
  : shape :=
  let out_channels := (in_channels self + growth_rate self)%nat in
  (batch_size, out_channels, seq_len).

End DenseBasicBlock.

Module DenseBottleNeck.

Record t : Type := mk {
  in_channels : nat;
  growth_rate : nat;
  bn_size : nat;
  kernel_size : nat;
  groups : nat;
  config : BlockConfig;
  neck_conv : ConvCfg;
  main_conv : ConvCfg;
  dropout : dropout_layer
}.

Definition __init__ (in_channels growth_rate bn_size filter_length
    groups : nat) (dropout : dropout_arg) (config : BlockConfig)
  : result t :=
  let bottleneck_channels := (bn_size * growth_rate)%nat in
  neck_conv ← Conv_Bn_Activation_init
                (mkConv in_channels bottleneck_channels 1 1 1 groups);
  main_conv ← Conv_Bn_Activation_init
                (mkConv bottleneck_channels growth_rate filter_length
                        1 1 groups);
  Ok {| in_channels := in_channels;
        growth_rate := growth_rate;
        bn_size := bn_size;
        kernel_size := filter_length;
        groups := groups;
        config := config;
        neck_conv := neck_conv;
        main_conv := main_conv;
        dropout := make_dropout dropout |}.

Definition bn_function `{Layers A} (self : t) (input : Tensor A)
  : result (Tensor A) :=
  Conv_Bn_Activation_forward (neck_conv self) input.

Definition new_features `{Layers A} (self : t) (input : Tensor A)
  : result (Tensor A) :=
  new_features ← (if memory_efficient (config self)
                  then Raise NotImplementedError
                  else bn_function self input);
  new_features ← Conv_Bn_Activation_forward (main_conv self) new_features;
  Ok (dropout_forward (dropout self) new_features).

Definition forward `{Layers A} (self : t) (input : Tensor A)
  : result (Tensor A) :=
  new_features ← new_features self input;
  if Nat.eqb (groups self) 1 then cat [input; new_features]
  else if Nat.eqb (groups self) 0 then Raise ZeroDivisionError
  else
    let iw_per_group := (in_channels self / groups self)%nat in
    let nfw_per_group := (growth_rate self / groups self)%nat in
    cat (DenseBasicBlock.interleave iw_per_group nfw_per_group (groups self)
                                    input new_features).

Definition compute_output_shape (self : t) (seq_len batch_size : option nat)
  : shape :=
  let out_channels := (in_channels self + growth_rate self)%nat in
  (batch_size, out_channels, seq_len).

End DenseBottleNeck.

(** The modules DenseNet is assembled from.  [DenseMacroBlock],
    [DenseTransition] and [DenseNet] are [nn.Sequential] containers: their
    [forward] is the container's and their [compute_output_shape] is
    [compute_sequential_output_shape]. *)
Inductive module : Type :=
| Conv_Bn_Activation (c : ConvCfg)
| DownSample (d : DownCfg)
| BasicBlock (b : DenseBasicBlock.t)
| BottleNeck (b : DenseBottleNeck.t)
| Sequential (children : list module).

(** [nn.Sequential.forward]: the children are applied in order. *)
Definition sequential_forward {A M : Type}
    (forward : M -> Tensor A -> result (Tensor A))
  : list M -> Tensor A -> result (Tensor A) :=
  fix go (children : list M) (input : Tensor A) : result (Tensor A) :=
    match children with
    | [] => Ok input
    | m :: rest => output ← forward m input; go rest output
    end.

(** Modelled from the spec: [compute_sequential_output_shape] of
    [utils/utils_nn.py] is not among the sources, and the spec describes
    it only as "output-shape propagation": the shape is propagated through
    the modules of the container in order, each module's
    [compute_output_shape] being given the sequence length returned by the
    previous one, and the shape returned by the last module is the result
    (an empty container has no shape to return). *)
Definition compute_sequential_output_shape {M : Type}
    (compute_output_shape : M -> option nat -> option nat -> result shape)
    (batch_size : option nat)
  : list M -> option nat -> option shape -> result shape :=
  fix go (model : list M) (seq_len : option nat)
         (output_shape : option shape) : result shape :=
    match model with
    | [] => match output_shape with
            | Some s => Ok s
            | None => Raise UnboundLocalError
            end
    | m :: rest =>
        s ← compute_output_shape m seq_len batch_size;
        go rest s.2 (Some s)
    end.

Fixpoint forward `{Layers A} (m : module) (input : Tensor A)
  : result (Tensor A) :=
  match m with
  | Conv_Bn_Activation c => Conv_Bn_Activation_forward c input
  | DownSample d => DownSample_forward d input
  | BasicBlock b => DenseBasicBlock.forward b input
  | BottleNeck b => DenseBottleNeck.forward b input
  | Sequential children => sequential_forward forward children input
  end.

Fixpoint compute_output_shape `{Layers A} (m : module)
    (seq_len batch_size : option nat) : result shape :=
  match m with
  | Conv_Bn_Activation c => Ok (Conv_Bn_Activation_shape c seq_len batch_size)
  | DownSample d => Ok (DownSample_shape d seq_len batch_size)
  | BasicBlock b =>
      Ok (DenseBasicBlock.compute_output_shape b seq_len batch_size)
  | BottleNeck b =>
      Ok (DenseBottleNeck.compute_output_shape b seq_len batch_size)
  | Sequential children =>
      compute_sequential_output_shape compute_output_shape batch_size
                                      children seq_len None
  end.

Module DenseMacroBlock.

(** The building block at position [idx]. *)
Definition make_block (in_channels bn_size groups : nat)
    (growth_rates filter_lengths : list nat) (dropout : dropout_arg)
    (config : BlockConfig) (idx : nat) : result module :=
  growth_rate ← getitem growth_rates idx;
  filter_length ← getitem filter_lengths idx;
  if str_in (lower (building_block config)) ["basic"; "basic_block"]
  then BasicBlock <$>
         DenseBasicBlock.__init__ (in_channels + idx * growth_rate)
           growth_rate filter_length groups dropout config
  else BottleNeck <$>
         DenseBottleNeck.__init__ (in_channels + idx * growth_rate)
           growth_rate bn_size filter_length groups dropout config.

Fixpoint make_blocks (mk : nat -> result module) (idxs : list nat)
  : result (list module) :=
  match idxs with
  | [] => Ok []
  | idx :: rest => b ← mk idx; bs ← make_blocks mk rest; Ok (b :: bs)
  end.

Definition __init__ (in_channels num_layers : nat) (growth_rates : int_or_seq)
    (bn_size : nat) (filter_lengths : int_or_seq) (groups : nat)
    (dropout : dropout_arg) (config : BlockConfig) : result module :=
  let growth_rates := as_list growth_rates num_layers in
  _ ← assert (Nat.eqb (length growth_rates) num_layers);
  let filter_lengths := as_list filter_lengths num_layers in
  _ ← assert (Nat.eqb (length filter_lengths) num_layers);
  Sequential <$>
    make_blocks (make_block in_channels bn_size groups growth_rates
                            filter_lengths dropout config)
                (seq 0 num_layers).

End DenseMacroBlock.

Module DenseTransition.

(** [compression] is the value of the Python float, and
    [math.floor(iw_per_group * self.__compression)] floors the product of
    floats. *)
Definition __init__ (in_channels : nat) (compression : Q)
    (subsample_length groups : nat) (subsample_mode : string)
  : result module :=
  if negb (Qpositive compression && Qle_bool compression 1)
  then Raise AssertionError
  else if Nat.eqb groups 0 then Raise ZeroDivisionError
  else
    _ ← assert (Nat.eqb (in_channels mod groups) 0);
    let iw_per_group := (in_channels / groups)%nat in
    product ← PyFloat.int_mul (Z.of_nat iw_per_group) compression;
    let nfw_per_group := Z.to_nat (Qfloor product) in
    let out_channels := (nfw_per_group * groups)%nat in
    bac ← Conv_Bn_Activation_init
            (mkConv in_channels out_channels 1 1 1 groups);
    Ok (Sequential
          [Conv_Bn_Activation bac;
           DownSample (mkDown subsample_length out_channels None None
                              (lower subsample_mode))]).

End DenseTransition.

(** [int], sequence of [int], or sequence of sequences of [int] *)
Inductive int_or_seq2 : Type :=
| AnInt2 (n : nat)
| ASeq2 (l : list int_or_seq).

Definition as_list2 (x : int_or_seq2) (n : nat) : list int_or_seq :=
  match x with
  | AnInt2 v => replicate n (AnInt v)
  | ASeq2 l => l
  end.

Record Config : Type := mkConfig {
  num_layers : list nat;
  init_num_filters : nat;
  init_filter_length : nat;
  init_pool_stride : nat;
  init_pool_size : nat;
  init_subsample_mode : string;
  growth_rates : int_or_seq2;
  filter_lengths : int_or_seq2;
  subsample_lengths : int_or_seq;
  compression : Q;
  bn_size : nat;
  dropout : dropout_arg;
  groups : nat;
  block : BlockConfig;
  transition_subsample_mode : string
}.

(** The loop over [enumerate(self.config.num_layers)]. *)
Fixpoint make_macro_blocks `{Layers A} (config : Config) (num_blocks : nat)
    (growth_rates filter_lengths : list int_or_seq)
    (subsample_lengths : list nat)
    (idx macro_in_channels : nat) (layers : list nat)
  : result (list module) :=
  match layers with
  | [] => Ok []
  | macro_num_layers :: rest =>
      gr ← getitem growth_rates idx;
      fl ← getitem filter_lengths idx;
      dmb ← DenseMacroBlock.__init__ macro_in_channels macro_num_layers gr
              (bn_size config) fl (groups config) (dropout config)
              (block config);
      s ← compute_output_shape dmb None None;
      let transition_in_channels := s.1.2 in
      if (idx <? num_blocks - 1)%nat then
        sl ← getitem subsample_lengths idx;
        dt ← DenseTransition.__init__ transition_in_channels
               (compression config) sl (groups config)
               (transition_subsample_mode config);
        s' ← compute_output_shape dt None None;
        ms ← make_macro_blocks config num_blocks growth_rates
               filter_lengths subsample_lengths (S idx) s'.1.2 rest;
        Ok (dmb :: dt :: ms)
      else
        ms ← make_macro_blocks config num_blocks growth_rates
               filter_lengths subsample_lengths (S idx) macro_in_channels
               rest;
        Ok (dmb :: ms)
  end.

Definition __init__ `{Layers A} (in_channels : nat) (config : Config)
  : result module :=
  let num_blocks := length (num_layers config) in
  init_cba ← Conv_Bn_Activation_init
               (mkConv in_channels (init_num_filters config)
                       (init_filter_length config) 1 1 (groups config));
  let init_pool :=
    DownSample
      (mkDown (init_pool_stride config) (init_num_filters config)
              (Some (init_pool_size config))
              (Some ((init_pool_size config - 1) / 2)%nat)
              (lower (init_subsample_mode config))) in
  let self_growth_rates := as_list2 (growth_rates config) num_blocks in
  _ ← assert (Nat.eqb (length self_growth_rates) num_blocks);
  let self_filter_lengths := as_list2 (filter_lengths config) num_blocks in
  _ ← assert (match filter_lengths config with
              | AnInt2 _ => true
              | ASeq2 l => Nat.eqb (length l) num_blocks
              end);
  let self_subsample_lengths :=
    as_list (subsample_lengths config) (num_blocks - 1) in
  _ ← assert (match subsample_lengths config with
              | AnInt _ => true
              | ASeq l => Nat.eqb (length l) (num_blocks - 1)
              end);
  ms ← make_macro_blocks config num_blocks self_growth_rates
         self_filter_lengths self_subsample_lengths 0
         (init_num_filters config) (num_layers config);
  Ok (Sequential (Conv_Bn_Activation init_cba :: init_pool :: ms)).

End DenseNet.

(** ** model_configs/cnn.py: the DenseNet configurations that are shipped *)

Module model_configs.
Import DenseNet.

(** The entries of [dense_net_vanilla] that [DenseNet.__init__] reads.
    [block] is [ED(building_block="basic")] and [transition] is empty, so
    that [memory_efficient] and [subsample_mode] keep the defaults of the
    blocks' [__DEFAULT_CONFIG__]. *)
Definition dense_net_vanilla : Config := {|
  num_layers := [6; 6; 6; 6]%nat;
  init_num_filters := 64;
  init_filter_length := 25;
  init_pool_stride := 2;
  init_pool_size := 3;
  init_subsample_mode := "avg";
  growth_rates := AnInt2 16;
  filter_lengths := AnInt2 15;
  subsample_lengths := AnInt 2;
  compression := 1 # 2;
  bn_size := 4;
  dropout := DropoutRate 0;
  groups := 1;
  block := mkBlockConfig "basic" false;
  transition_subsample_mode := "avg"
|}.

(** [dense_net_leadwise]: a copy with [init_num_filters = 12 * 8] and
    [groups = 12]. *)
Definition dense_net_leadwise : Config := {|
  num_layers := num_layers dense_net_vanilla;
  init_num_filters := 12 * 8;
  init_filter_length := init_filter_length dense_net_vanilla;
  init_pool_stride := init_pool_stride dense_net_vanilla;
  init_pool_size := init_pool_size dense_net_vanilla;
  init_subsample_mode := init_subsample_mode dense_net_vanilla;
  growth_rates := growth_rates dense_net_vanilla;
  filter_lengths := filter_lengths dense_net_vanilla;
  subsample_lengths := subsample_lengths dense_net_vanilla;
  compression := compression dense_net_vanilla;
  bn_size := bn_size dense_net_vanilla;
  dropout := dropout dense_net_vanilla;
  groups := 12;
  block := block dense_net_vanilla;
  transition_subsample_mode := transition_subsample_mode dense_net_vanilla
|}.

End model_configs.

(** ** Vocabulary for statements about DenseNet *)

Module DenseNet_spec.
Import Torch Nets DenseNet.

(** [t1] makes up the leading channels of [t2]. *)
Definition channel_prefix {A : Type} (t1 t2 : Tensor A) : Prop :=
  batch t1 = batch t2 /\ seq_len t1 = seq_len t2 /\
  (channels t1 <= channels t2)%nat /\
  forall b c l, (b < batch t1)%nat -> (c < channels t1)%nat ->
                (l < seq_len t1)%nat -> elem t2 b c l = elem t1 b c l.

(** The outputs of the children of a container, one after the other. *)
Fixpoint forward_trace `{Layers A} (children : list module)
    (input : Tensor A) : result (list (Tensor A)) :=
  match children with
  | [] => Ok []
  | m :: rest =>
      output ← forward m input;
      outputs ← forward_trace rest output;
      Ok (output :: outputs)
  end.

(** A building block that concatenates along the channels. *)
Definition plain_block (m : module) : Prop :=
  match m with
  | BasicBlock b => DenseBasicBlock.groups b = 1%nat
  | BottleNeck b => DenseBottleNeck.groups b = 1%nat
  | _ => False
  end.

(** [forward] returns a tensor and [compute_output_shape] gives its
    shape. *)
Definition shape_agrees `{Layers A} (m : module) (x : Tensor A) : Prop :=
  exists y, forward m x = Ok y /\
            compute_output_shape m (Some (seq_len x)) (Some (batch x))
            = Ok (shape_of y).

(** The number of output channels of a module fed [cin] channels. *)
Fixpoint out_channels (m : module) (cin : nat) : nat :=
  match m with
  | Conv_Bn_Activation c => conv_out_channels c
  | DownSample d => down_in_channels d
  | BasicBlock b =>
      DenseBasicBlock.in_channels b + DenseBasicBlock.growth_rate b
  | BottleNeck b =>
      DenseBottleNeck.in_channels b + DenseBottleNeck.growth_rate b
  | Sequential children =>
      (fix go (ms : list module) (c : nat) : nat :=
         match ms with
         | [] => c
         | m' :: rest => go rest (out_channels m' c)
         end) children cin
  end.

Definition conv_ok (c : ConvCfg) (cin cout groups : nat) : Prop :=
  conv_in_channels c = cin /\ conv_out_channels c = cout /\
  conv_stride c = 1%nat /\ conv_groups c = groups.

(** The module is wired for [cin] input channels: every layer in it is
    fed the channel count it was built for. *)
Fixpoint accepts (m : module) (cin : nat) : Prop :=
  match m with
  | Conv_Bn_Activation c => conv_in_channels c = cin
  | DownSample d => down_in_channels d = cin
  | BasicBlock b =>
      DenseBasicBlock.in_channels b = cin /\
      DenseBasicBlock.groups b <> 0%nat /\
      (cin mod DenseBasicBlock.groups b = 0)%nat /\
      (DenseBasicBlock.growth_rate b mod DenseBasicBlock.groups b = 0)%nat /\
      conv_ok (DenseBasicBlock.bac b) cin (DenseBasicBlock.growth_rate b)
              (DenseBasicBlock.groups b)
  | BottleNeck b =>
      DenseBottleNeck.in_channels b = cin /\
      DenseBottleNeck.groups b <> 0%nat /\
      (cin mod DenseBottleNeck.groups b = 0)%nat /\
      (DenseBottleNeck.growth_rate b mod DenseBottleNeck.groups b = 0)%nat /\
      memory_efficient (DenseBottleNeck.config b) = false /\
      conv_ok (DenseBottleNeck.neck_conv b) cin
              (DenseBottleNeck.bn_size b * DenseBottleNeck.growth_rate b)
              (DenseBottleNeck.groups b) /\
      conv_ok (DenseBottleNeck.main_conv b)
              (DenseBottleNeck.bn_size b * DenseBottleNeck.growth_rate b)
              (DenseBottleNeck.growth_rate b) (DenseBottleNeck.groups b)
  | Sequential children =>
      children <> [] /\
      (fix go (ms : list module) (c : nat) : Prop :=
         match ms with
         | [] => True
         | m' :: rest => accepts m' c /\ go rest (out_channels m' c)
         end) children cin
  end.

(** [shape_agrees], with the channel count and batch size of the
    output spelled out. *)
Definition agrees `{Layers A} (m : module) (x : Tensor A) : Prop :=
  exists y, forward m x = Ok y /\
            compute_output_shape m (Some (seq_len x)) (Some (batch x))
            = Ok (shape_of y) /\
            channels y = out_channels m (channels x) /\
            batch y = batch x.

(** The same two notions along the children of a container. *)
Fixpoint chain_out (ms : list module) (c : nat) : nat :=
  match ms with
  | [] => c
  | m :: rest => chain_out rest (out_channels m c)
  end.

Fixpoint chain_accepts (ms : list module) (c : nat) : Prop :=
  match ms with
  | [] => True
  | m :: rest => accepts m c /\ chain_accepts rest (out_channels m c)
  end.

(** The blocks of a macro block can run: they are basic blocks, or
    bottlenecks with [memory_efficient] off. *)
Definition runnable (cfg : BlockConfig) : Prop :=
  PyStr.str_in (PyStr.lower (building_block cfg)) ["basic"; "basic_block"]
    = true \/
  memory_efficient cfg = false.

(** All growth rates of a macro block are the same. *)
Definition uniform (growth_rates : int_or_seq) (num_layers : nat) : Prop :=
  exists g, as_list growth_rates num_layers = replicate num_layers g.

End DenseNet_spec.

(** ** Small concrete inputs on which the readers are run *)

Module Fixtures.
Import Wfdb LTAFDB.

(** One way to cut intervals to windows: interval by interval, keeping
    the non-degenerate pieces. *)
Definition clip_intervals (l w : list interval) : list interval :=
  itv ← l; win ← w;
  if bool_decide (Z.max itv.1 win.1 < Z.min itv.2 win.2)
  then [(Z.max itv.1 win.1, Z.min itv.2 win.2)] else [].

Definition clip_ops : IntervalOps :=
  {| generalized_intervals_intersection := clip_intervals |}.

(** A record of 12 samples with three rhythm changes and three beats. *)
Definition atr1 : Annotation :=
  [mkEntry 2 "+" "(N"; mkEntry 3 "N" EmptyString; mkEntry 5 "+" "(AFIB";
   mkEntry 7 "A" EmptyString; mkEntry 8 "+" "(N"; mkEntry 9 "Q" EmptyString].

Definition db1 : db_dir :=
  {[ "r.hea" := FHeader 12; "r.atr" := FAnnotation atr1 ]}.

(** Integer signals: conversion to microvolts multiplies by 1000 and
    resampling repeats every sample. *)
Definition repeat_ops : PhysioNetDataBase.SignalOps Z := {|
  PhysioNetDataBase.times1000 := Z.mul 1000;
  PhysioNetDataBase.resample_poly a up down :=
    Numpy.mkArray (2 * Numpy.nrows a) (Numpy.ncols a)
                  (fun i j => Numpy.item a (i / 2)%nat j)
|}.

(** A reader without [all_leads], sampling frequency 128, with a record
    whose two leads are named ["all"] and ["II"] and a record with leads
    ["I"] and ["II"]; channel [c] holds the samples [10 c + i]. *)
Definition ramp (i c : nat) : Z := Z.of_nat (10 * c + i).

Definition reader : PhysioNetDataBase.DataBase Z :=
  PhysioNetDataBase.mkDataBase Z None (Some (128 # 1))
    {[ "odd" := PhysioNetDataBase.mkRecord Z (128 # 1) ["all"; "II"] 4
                  ramp ramp;
       "100" := PhysioNetDataBase.mkRecord Z (128 # 1) ["I"; "II"] 4
                  ramp ramp ]}.

(** Shape-only layers over integer tensors: they check the channel count
    of their input and return zeros of the announced shape. *)
Definition out_len (stride len : nat) : nat :=
  if Nat.eqb stride 1 then len else (len / stride)%nat.

Definition zeros (b c l : nat) : Torch.Tensor Z :=
  Torch.mkTensor b c l (fun _ _ _ => 0).

Definition shape_layers : Nets.Layers Z := {|
  Nets.Conv_Bn_Activation_forward c x :=
    if Nat.eqb (Torch.channels x) (Nets.conv_in_channels c)
    then Ok (zeros (Torch.batch x) (Nets.conv_out_channels c)
                   (out_len (Nets.conv_stride c) (Torch.seq_len x)))
    else Raise RuntimeError;
  Nets.Conv_Bn_Activation_shape c sl bs :=
    (bs, Nets.conv_out_channels c, out_len (Nets.conv_stride c) <$> sl);
  Nets.DownSample_forward d x :=
    if Nat.eqb (Torch.channels x) (Nets.down_in_channels d)
    then Ok (zeros (Torch.batch x) (Nets.down_in_channels d)
                   (Torch.seq_len x / Nets.down_scale d))
    else Raise RuntimeError;
  Nets.DownSample_shape d sl bs :=
    (bs, Nets.down_in_channels d,
     (fun len => (len / Nets.down_scale d)%nat) <$> sl);
  Nets.nn_Dropout_forward p x := x
|}.

(** An input of shape (1, 4, 8). *)
Definition x148 : Torch.Tensor Z :=
  Torch.mkTensor 1 4 8 (fun b c l => Z.of_nat (c * 8 + l)).

Definition basic_config : DenseNet.BlockConfig :=
  DenseNet.mkBlockConfig "basic" false.

Definition bottleneck_config : DenseNet.BlockConfig :=
  DenseNet.mkBlockConfig EmptyString false.

Definition memory_efficient_config : DenseNet.BlockConfig :=
  DenseNet.mkBlockConfig EmptyString true.

(** A small DenseNet: two macro blocks of two basic blocks each, growth
    rate 2, compression 1/2. *)
Definition densenet_config : DenseNet.Config :=
  DenseNet.mkConfig [2; 2]%nat 4 5 2 3 "avg" (DenseNet.AnInt2 2)
    (DenseNet.AnInt2 3) (DenseNet.AnInt 2) (1 # 2) 4 (DenseNet.DropoutRate 0)
    1 basic_config "avg".

End Fixtures.

(* ===================================================================== *)
(** * Part II: lemmas and theorems                                        *)
(* ===================================================================== *)

Module CFG_facts.
Import CFG.

(** The example of the docstring, [c = CFG(hehe={"a": 1, "b": 2})] and
    then [c.update(hehe={"a": -1})], gives [{'hehe': {'a': -1, 'b': 2}}]
    with either behaviour of [easydict]; the two dictionaries are stored
    by [setattr] before they meet. *)
Example update_docstring (ver : easydict) :
  update ver
    [("hehe", stored ver Cfg (VMap Dict [("a", VInt 1); ("b", VInt 2)]))]
    (VMap Cfg [("hehe", stored ver Cfg (VMap Dict [("a", VInt (-1))]))])
  = Ok [("hehe", VMap (target ver Cfg) [("a", VInt (-1)); ("b", VInt 2)])].
Proof. by destruct ver. Qed.

(** A dictionary nested in a [CFG] that was built from plain
    dictionaries is a [CFG] up to easydict 1.10 and an [EasyDict] from
    1.11 on, and the two merge differently: [CFG.update] recurses, and
    raises on a mapping that meets a scalar; [EasyDict.update] overwrites
    the keys it is given, one level deep. *)
Example nested_merge_upto_1_10 :
  update upto_1_10
    [("a", stored upto_1_10 Cfg
             (VMap Dict [("b", VMap Dict [("x", VInt 1); ("y", VInt 2)])]))]
    (VMap Dict [("a", VMap Dict [("b", VMap Dict [("x", VInt 5)])])])
  = Ok [("a", VMap Cfg [("b", VMap Cfg [("x", VInt 5); ("y", VInt 2)])])].
Proof. reflexivity. Qed.

Example nested_merge_from_1_11 :
  update from_1_11
    [("a", stored from_1_11 Cfg
             (VMap Dict [("b", VMap Dict [("x", VInt 1); ("y", VInt 2)])]))]
    (VMap Dict [("a", VMap Dict [("b", VMap Dict [("x", VInt 5)])])])
  = Ok [("a", VMap Easy [("b", VMap Easy [("x", VInt 5)])])].
Proof. reflexivity. Qed.

Example scalar_under_mapping_plain_dict :
  update upto_1_10
    [("hehe", stored upto_1_10 Cfg (VMap Dict [("a", VInt 1); ("b", VInt 2)]))]
    (VMap Dict [("hehe", VMap Dict [("a", VMap Dict [("x", VInt 1)])])])
  = Raise AttributeError /\
  update from_1_11
    [("hehe", stored from_1_11 Cfg (VMap Dict [("a", VInt 1); ("b", VInt 2)]))]
    (VMap Dict [("hehe", VMap Dict [("a", VMap Dict [("x", VInt 1)])])])
  = Ok [("hehe", VMap Easy [("a", VMap Easy [("x", VInt 1)]); ("b", VInt 2)])].
Proof. split; reflexivity. Qed.

(** A stored key ["update"] hides the method. *)
Example update_key_hides_method (ver : easydict) :
  update ver [("update", VInt 5)] (VMap Dict [("a", VInt 1)])
  = Raise TypeError /\
  update ver [("a", VMap Cfg [("update", VInt 5)])]
         (VMap Dict [("a", VMap Dict [("x", VInt 1)])])
  = Raise TypeError.
Proof. by destruct ver. Qed.



(** One round of the [for k in _new_cfg] loop. *)
Lemma cfg_update_cons (ver : easydict) (c : cls) (self : items) (k : string)
    (v : value) (rest : items) :
  cfg_update ver (VMap c ((k, v) :: rest)) self =
  match v, PyDict.get k self with
  | VMap _ _, Some old =>
      old' ← method_update ver old v;
      cfg_update ver (VMap c rest) (PyDict.set k old' self)
  | _, _ => cfg_update ver (VMap c rest) (PyDict.set k (stored ver Cfg v) self)
  end.
Proof.
  destruct v as [z|s|c' m]; [reflexivity|reflexivity|].
  cbn [cfg_update]. destruct (PyDict.get k self) as [[z|s|[] d]|];
    reflexivity.
Qed.

Lemma cfg_update_nil (ver : easydict) (c : cls) (self : items) :
  cfg_update ver (VMap c []) self = Ok self.
Proof. reflexivity. Qed.



(** C10 (code defect): [c.update({k: m})] on a configuration whose mapping
    at [k], a [CFG], holds a scalar under a key at which [m] holds a
    mapping does not give that entry [m]'s value: the inner
    [self[k].update] is called on the scalar and the whole update raises
    [AttributeError], whichever behaviour [easydict] has. *)
Theorem C10_update_scalar_under_mapping_raises (ver : easydict) :
  PyDict.get "hehe" [("hehe", VMap Cfg [("a", VInt 1); ("b", VInt 2)])]
    = Some (VMap Cfg [("a", VInt 1); ("b", VInt 2)]) /\
  stored ver Cfg (VMap Cfg [("a", VInt 1); ("b", VInt 2)])
    = VMap Cfg [("a", VInt 1); ("b", VInt 2)] /\
  update ver [("hehe", VMap Cfg [("a", VInt 1); ("b", VInt 2)])]
         (VMap Dict [("hehe", VMap Dict [("a", VMap Dict [("x", VInt 1)])])])
  = Raise AttributeError.
Proof. by destruct ver. Qed.

End CFG_facts.

Module Download_facts.
Import Download.

Example normpath_dotdot : normpath "/tmp/foo/../foobar/evil" = "/tmp/foobar/evil".
Proof. reflexivity. Qed.

Example normpath_misc :
  normpath "a//b/./c/.." = "a/b" /\ normpath "../x" = "../x" /\
  normpath "/.." = "/" /\ normpath "//a" = "//a" /\ normpath "///a/" = "/a".
Proof. repeat split; reflexivity. Qed.

Example within_inside : _is_within_directory "/" "/tmp/foo" "/tmp/foo/a/b" = true.
Proof. reflexivity. Qed.

Example within_parent : _is_within_directory "/" "/tmp/foo" "/tmp/foo/../x" = false.
Proof. reflexivity. Qed.

(** A member that fails the test makes the call raise with the file
    system exactly as it was. *)
Lemma check_members_raises (cwd dst : string) (ms : list TarInfo) :
  (exists m, m ∈ ms /\
             _is_within_directory cwd dst (join dst (name m)) = false) ->
  check_members cwd dst ms = Raise Exception.
Proof.
  induction ms as [|m' ms IH]; intros (m & Hin & Hm).
  - by apply elem_of_nil in Hin.
  - simpl. destruct (_is_within_directory cwd dst (join dst (name m'))) eqn:E;
      [|done]. simpl.
    apply elem_of_cons in Hin as [->|Hin]; [congruence|].
    apply IH. by exists m.
Qed.

Lemma _safe_tar_extract_rejects (cwd dst : string) (tar : list TarInfo)
    (members : option (list TarInfo)) (fs : filesystem) :
  (exists m, m ∈ members_or_all tar members /\
             _is_within_directory cwd dst (join dst (name m)) = false) ->
  _safe_tar_extract cwd tar dst members fs = (Raise Exception, fs).
Proof.
  intros H. unfold _safe_tar_extract. by rewrite check_members_raises.
Qed.

(** C9 (code defect): a member stored as [../foobar/evil] extracts below
    [/tmp/foobar], which is not inside the destination [/tmp/foo]; yet the
    character-wise common prefix of the two absolute paths is [/tmp/foo],
    so the test accepts it, nothing is raised and the file is written
    outside the destination directory. *)
Theorem C9_sibling_directory_escapes_guard :
  let dst := "/tmp/foo" in
  let tar := [mkTarInfo "../foobar/evil" "payload"] in
  abspath "/" (join dst "../foobar/evil") = "/tmp/foobar/evil" /\
  lies_within "/" dst (join dst "../foobar/evil") = false /\
  _is_within_directory "/" dst (join dst "../foobar/evil") = true /\
  fst (_safe_tar_extract "/" tar dst None ∅) = Ok tt /\
  snd (_safe_tar_extract "/" tar dst None ∅) !! "/tmp/foobar/evil"
    = Some "payload".
Proof.
  repeat split; reflexivity.
Qed.

End Download_facts.

Module LTAFDB_facts.
Import PyStr Wfdb LTAFDB.

Example rhythm_types_map_value :
  rhythm_types_map =
  [("N", 0); ("AB", 1); ("AFIB", 2); ("B", 3); ("IVR", 4); ("SBR", 5);
   ("SVTA", 6); ("T", 7); ("VT", 8); ("NOISE", 9)].
Proof. reflexivity. Qed.


Import Intervals LTAFDB_trace.

#[local] Arguments str_in : simpl never.
#[local] Arguments rhythm_types : simpl never.
#[local] Arguments rhythm_types_map : simpl never.
#[local] Arguments PyDict.keys : simpl never.

(** *** Generic facts about dictionaries of lists *)

Lemma str_in_elem (s : string) (l : list string) :
  str_in s l = true <-> s ∈ l.
Proof.
  unfold str_in. rewrite existsb_exists. split.
  - intros (x & Hin & Heq). apply String.eqb_eq in Heq. subst.
    by apply list_elem_of_In.
  - intros Hin. exists s. split; [by apply list_elem_of_In|].
    apply String.eqb_refl.
Qed.

Lemma get_is_Some_keys {V : Type} (k : string) (d : list (string * V)) :
  is_Some (PyDict.get k d) <-> k ∈ PyDict.keys d.
Proof.
  unfold PyDict.keys. induction d as [|[k' v] d IH]; simpl.
  - split; [by intros [? ?]|by intros ?%elem_of_nil].
  - destruct (String.eqb k k') eqn:E.
    + apply String.eqb_eq in E. subst. split; [intros _; left|by eauto].
    + rewrite IH. split; [by right|].
      intros [->|H]%elem_of_cons; [by rewrite String.eqb_refl in E|done].
Qed.

Lemma keys_set_present {V : Type} (k : string) (v : V)
    (d : list (string * V)) :
  k ∈ PyDict.keys d -> PyDict.keys (PyDict.set k v d) = PyDict.keys d.
Proof.
  unfold PyDict.keys. induction d as [|[k' v'] d IH]; simpl.
  - by intros ?%elem_of_nil.
  - intros Hin. destruct (String.eqb k k') eqn:E; [done|]. simpl. f_equal.
    apply IH. apply elem_of_cons in Hin as [->|H]; [|done].
    by rewrite String.eqb_refl in E.
Qed.

Lemma keys_append_at {V : Type} (k : string) (x : V)
    (d : list (string * list V)) :
  PyDict.keys (PyDict.append_at k x d) = PyDict.keys d.
Proof.
  unfold PyDict.append_at. destruct (PyDict.get k d) eqn:E; [|done].
  apply keys_set_present, get_is_Some_keys. by rewrite E.
Qed.

Lemma labelled_cons (k : string) (l : list interval)
    (d : list (string * list interval)) :
  labelled ((k, l) :: d) = ((fun itv => (k, itv)) <$> l) ++ labelled d.
Proof. reflexivity. Qed.

Lemma labelled_append_at (k : string) (x : interval)
    (d : list (string * list interval)) :
  k ∈ PyDict.keys d ->
  labelled (PyDict.append_at k x d) ≡ₚ labelled d ++ [(k, x)].
Proof.
  unfold PyDict.append_at, PyDict.keys.
  induction d as [|[k' l'] d IH]; simpl.
  - by intros ?%elem_of_nil.
  - intros Hin. destruct (String.eqb k k') eqn:E.
    + apply String.eqb_eq in E. subst k'.
      rewrite !labelled_cons, fmap_app. simpl.
      rewrite <- !(assoc_L (++)). f_equiv.
      apply Permutation_app_comm.
    + apply elem_of_cons in Hin as [->|Hin];
        [by rewrite String.eqb_refl in E|].
      specialize (IH Hin).
      destruct (PyDict.get k d) as [l|] eqn:G.
      * rewrite !labelled_cons, IH.
        by rewrite (assoc_L (++)).
      * exfalso. apply get_is_Some_keys in Hin. rewrite G in Hin.
        by destruct Hin.
Qed.

(** *** The scan of [load_rhythm_ann] and the sequence of its appends *)

Lemma selected_key (r : string) :
  str_in r rhythm_types = true ->
  replace_paren r ∈ PyDict.keys rhythm_types_map.
Proof.
  intros H%str_in_elem. unfold rhythm_types in H.
  repeat (apply elem_of_cons in H as [->|H];
          [apply (bool_decide_unpack _); vm_compute; exact I|]).
  by apply elem_of_nil in H.
Qed.

(** The key at which the scan appends is always a key of the dictionary,
    so [ann[current_rhythm]] never fails. *)
Lemma scan_current_is_key (items : list (Z * string))
    (ann : list (string * list interval)) (start : Z) (cur : string) :
  PyDict.keys ann = PyDict.keys rhythm_types_map ->
  cur ∈ PyDict.keys rhythm_types_map ->
  exists ann',
    foldl scan_step (ann, start, cur) items
      = (ann', (trace_items start cur items).2.1,
               (trace_items start cur items).2.2) /\
    PyDict.keys ann' = PyDict.keys rhythm_types_map /\
    (trace_items start cur items).2.2 ∈ PyDict.keys rhythm_types_map /\
    labelled ann' ≡ₚ labelled ann ++ (trace_items start cur items).1.
Proof.
  revert ann start cur.
  induction items as [|[idx r] items IH]; intros ann start cur Hk Hc.
  - exists ann. simpl. by rewrite app_nil_r.
  - simpl. destruct (str_in r rhythm_types) eqn:E; simpl.
    + destruct (IH (PyDict.append_at cur (start, idx) ann) idx
                  (replace_paren r)) as (ann' & Hf & Hk' & Hc' & Hl).
      { by rewrite keys_append_at. }
      { by apply selected_key. }
      exists ann'. destruct (trace_items idx (replace_paren r) items)
        as [tr [s2 c2]]. simpl in *.
      repeat split; try done.
      rewrite Hl, labelled_append_at by (by rewrite Hk).
      by rewrite <- (assoc_L (++)).
    + by apply IH.
Qed.

Lemma chain_app (s m e : Z) (l1 l2 : list interval) :
  chain s l1 m -> chain m l2 e -> chain s (l1 ++ l2) e.
Proof.
  revert s. induction l1 as [|itv l1 IH]; simpl; intros s.
  - by intros ->.
  - intros [Hs Hc] H2. split; [done|]. by apply IH.
Qed.

Lemma chain_le (s e : Z) (l : list interval) :
  chain s l e -> Forall proper l -> s <= e.
Proof.
  revert s. induction l as [|itv l IH]; simpl; intros s.
  - intros ->. lia.
  - intros [<- Hc] [Hp Hl]%Forall_cons. unfold proper in Hp.
    specialize (IH _ Hc Hl). lia.
Qed.

Lemma trace_items_chain (items : list (Z * string)) (start : Z)
    (cur : string) :
  chain start (trace_items start cur items).1.*2
        (trace_items start cur items).2.1.
Proof.
  revert start cur. induction items as [|[idx r] items IH]; intros start cur.
  - reflexivity.
  - simpl. destruct (str_in r rhythm_types); simpl; [|apply IH].
    specialize (IH idx (replace_paren r)).
    destruct (trace_items idx (replace_paren r) items) as [tr fin].
    simpl in *. done.
Qed.

Lemma trace_items_proper (items : list (Z * string)) (start : Z)
    (cur : string) :
  StronglySorted Z.le (start :: items.*1) ->
  Forall proper (trace_items start cur items).1.*2 /\
  (trace_items start cur items).2.1 ∈ start :: items.*1.
Proof.
  revert start cur. induction items as [|[idx r] items IH];
    intros start cur Hs.
  - simpl. split; [constructor|left].
  - simpl. apply StronglySorted_inv in Hs as [Hs Hall].
    assert (start <= idx) as Hle by (by apply Forall_cons in Hall as [? _]).
    destruct (str_in r rhythm_types); simpl.
    + specialize (IH idx (replace_paren r) Hs).
      destruct (trace_items idx (replace_paren r) items) as [tr fin].
      simpl in *. destruct IH as [Hp Hin]. split.
      * constructor; [done|done].
      * by right.
    + destruct (IH start cur) as [Hp Hin].
      { apply StronglySorted_inv in Hs as [Hs' _].
        apply Forall_cons in Hall as [_ Hall]. by constructor. }
      split; [done|].
      apply elem_of_cons in Hin as [->|Hin]; [left|by do 2 right].
Qed.

(** Either the loop appends nothing, or its first append closes the
    leading interval at some annotated sample [p1] and the later ones
    form a chain of proper intervals from [p1]. *)
Lemma trace_items_first (items : list (Z * string)) (start : Z)
    (cur : string) :
  StronglySorted Z.le items.*1 ->
  trace_items start cur items = ([], (start, cur)) \/
  exists p1 tr',
    (trace_items start cur items).1 = (cur, (start, p1)) :: tr' /\
    chain p1 tr'.*2 (trace_items start cur items).2.1 /\
    Forall proper tr'.*2 /\
    (trace_items start cur items).2.1 ∈ items.*1 /\
    p1 ∈ items.*1.
Proof.
  induction items as [|[idx r] items IH]; intros Hs; [by left|].
  simpl. simpl in Hs. destruct (str_in r rhythm_types); simpl.
  - right. pose proof (trace_items_chain items idx (replace_paren r)) as Hc.
    pose proof (trace_items_proper items idx (replace_paren r) Hs)
      as [Hp Hin].
    destruct (trace_items idx (replace_paren r) items) as [tr fin].
    simpl in *. exists idx, tr. repeat split; try done. left.
  - apply StronglySorted_inv in Hs as [Hs _].
    destruct (IH Hs) as [H|(p1 & tr' & H1 & H2 & H3 & H4 & H5)]; [by left|].
    right. exists p1, tr'. repeat split; try done; by right.
Qed.

(** *** Counting the intervals that contain a sample *)

Lemma count_cover_cons (x : Z) (itv : interval) (l : list interval) :
  count_cover x (itv :: l)
  = ((if covers x itv then 1 else 0) + count_cover x l)%nat.
Proof.
  unfold count_cover. rewrite filter_cons.
  destruct (decide (covers x itv = true)) as [->|H]; [done|].
  by apply not_true_is_false in H as ->.
Qed.

Lemma count_cover_app (x : Z) (l1 l2 : list interval) :
  count_cover x (l1 ++ l2) = (count_cover x l1 + count_cover x l2)%nat.
Proof. unfold count_cover. by rewrite filter_app, length_app. Qed.

Lemma count_cover_perm (x : Z) (l1 l2 : list interval) :
  l1 ≡ₚ l2 -> count_cover x l1 = count_cover x l2.
Proof. unfold count_cover. by intros ->. Qed.

Lemma covers_spec (x : Z) (itv : interval) :
  covers x itv = true <-> itv.1 <= x < itv.2.
Proof. unfold covers. rewrite andb_true_iff. lia. Qed.

Lemma count_chain (x s e : Z) (l : list interval) :
  chain s l e -> Forall proper l ->
  count_cover x l = if bool_decide (s <= x < e) then 1%nat else 0%nat.
Proof.
  revert s. induction l as [|itv l IH]; intros s Hc Hp.
  - simpl in Hc. subst. rewrite bool_decide_false by lia. done.
  - destruct Hc as [<- Hc]. apply Forall_cons in Hp as [Hp Hl].
    pose proof (chain_le _ _ _ Hc Hl) as Hle. unfold proper in Hp.
    rewrite count_cover_cons, (IH _ Hc Hl).
    destruct (covers x itv) eqn:E.
    + apply covers_spec in E.
      rewrite bool_decide_false, bool_decide_true by lia. done.
    + assert (~ (itv.1 <= x < itv.2)) as Hn
        by (rewrite <- covers_spec; congruence).
      repeat case_bool_decide; lia.
Qed.

Lemma count_cover_lookup (x : Z) (l : list interval) (i : nat)
    (a : interval) :
  l !! i = Some a -> covers x a = true -> (1 <= count_cover x l)%nat.
Proof.
  revert i. induction l as [|b l IH]; intros [|i] Hi Ha; try done.
  - simpl in Hi. injection Hi as ->. rewrite count_cover_cons, Ha. lia.
  - rewrite count_cover_cons. specialize (IH _ Hi Ha). lia.
Qed.

Lemma count_cover_two (x : Z) (l : list interval) (i j : nat)
    (a b : interval) :
  i <> j -> l !! i = Some a -> l !! j = Some b ->
  covers x a = true -> covers x b = true -> (2 <= count_cover x l)%nat.
Proof.
  revert i j. induction l as [|c l IH]; intros [|i] [|j] Hne Hi Hj Ha Hb;
    try done; rewrite count_cover_cons; simpl in Hi, Hj.
  - injection Hi as ->. rewrite Ha.
    pose proof (count_cover_lookup _ _ _ _ Hj Hb). lia.
  - injection Hj as ->. rewrite Hb.
    pose proof (count_cover_lookup _ _ _ _ Hi Ha). lia.
  - assert (i <> j) as Hne' by congruence.
    specialize (IH _ _ Hne' Hi Hj Ha Hb). lia.
Qed.

Lemma sorted_le_last (l : list Z) (x y : Z) :
  StronglySorted Z.le l -> x ∈ l -> last l = Some y -> x <= y.
Proof.
  induction l as [|z l IH]; intros Hs Hin Hl; [by apply elem_of_nil in Hin|].
  apply StronglySorted_inv in Hs as [Hs Hall].
  destruct l as [|z' l].
  - simpl in Hl. injection Hl as <-.
    apply list_elem_of_singleton in Hin. lia.
  - rewrite last_cons_cons in Hl.
    apply elem_of_cons in Hin as [->|Hin]; [|by apply IH].
    rewrite Forall_forall in Hall. apply Hall.
    by apply last_Some_elem_of.
Qed.

Lemma scan_items_fst (a : Annotation) :
  (zip (sample a) (aux_note a)).*1 = sample a.
Proof. apply fst_zip. unfold sample, aux_note. by rewrite !length_fmap. Qed.

(** The shape of the sequence of appends of a scan over annotations in
    time order: a leading interval from sample 0, a chain of proper
    intervals, and the closing ["NOISE"] interval up to [sig_len]. *)
Lemma scan_trace_shape (a : Annotation) (sig_len : Z) :
  a <> [] -> StronglySorted Z.le (sample a) ->
  exists k0 p1 mid pl,
    scan_trace a sig_len
      = (k0, (0, p1)) :: mid ++ [("NOISE", (pl, sig_len))] /\
    chain p1 mid.*2 pl /\ Forall proper mid.*2 /\
    last (sample a) = Some pl /\ p1 ∈ sample a.
Proof.
  intros Hne Hs. unfold scan_trace.
  destruct (last (sample a)) as [pl|] eqn:Hl.
  2:{ apply last_None in Hl. destruct a; [done|discriminate]. }
  pose proof (trace_items_first (zip (sample a) (aux_note a)) 0 "NOISE")
    as Hf. rewrite scan_items_fst in Hf. specialize (Hf Hs).
  destruct Hf as [->|(p1 & tr' & H1 & H2 & H3 & H4 & H5)].
  - exists "NOISE", pl, [], pl.
    split; [done|]. split; [done|]. split; [constructor|]. split; [done|].
    by apply last_Some_elem_of.
  - destruct (trace_items 0 "NOISE" (zip (sample a) (aux_note a)))
      as [tr [s2 c2]]. simpl in *. subst tr.
    exists "NOISE", p1, (tr' ++ [(c2, (s2, pl))]), pl.
    split; [|split; [|split; [|split]]].
    + simpl. by rewrite <- (assoc_L (++)).
    + rewrite fmap_app. by eapply chain_app.
    + rewrite fmap_app. apply Forall_app. split; [done|].
      repeat constructor. unfold proper. simpl.
      by eapply sorted_le_last.
    + done.
    + done.
Qed.

Lemma scan_rhythms_trace (a : Annotation) (sig_len : Z) :
  a <> [] ->
  exists ann,
    scan_rhythms a sig_len = Ok ann /\
    PyDict.keys ann = PyDict.keys rhythm_types_map /\
    labelled ann ≡ₚ scan_trace a sig_len.
Proof.
  intros Hne. unfold scan_rhythms, scan_trace.
  destruct (last (sample a)) as [pl|] eqn:Hl.
  2:{ apply last_None in Hl. destruct a; [done|discriminate]. }
  destruct (scan_current_is_key (zip (sample a) (aux_note a))
              scan_init.1.1 0 "NOISE") as (ann' & Hf & Hk & Hc & Hlab).
  { reflexivity. }
  { apply (bool_decide_unpack _). vm_compute. exact I. }
  change (foldl scan_step scan_init (zip (sample a) (aux_note a)))
    with (foldl scan_step (scan_init.1.1, 0, "NOISE")
                (zip (sample a) (aux_note a))).
  rewrite Hf.
  destruct (trace_items 0 "NOISE" (zip (sample a) (aux_note a)))
    as [tr [s2 c2]]. cbn [fst snd] in *.
  eexists. split; [reflexivity|]. split.
  - by rewrite !keys_append_at.
  - rewrite !labelled_append_at; rewrite ?keys_append_at, ?Hk; try done.
    + rewrite Hlab. change (labelled scan_init.1.1) with
        (@nil (string * interval)). simpl.
      by rewrite <- (assoc_L (++)).
    + apply (bool_decide_unpack _). vm_compute. exact I.
Qed.

Lemma scan_trace_count (a : Annotation) (sig_len x : Z) :
  a <> [] -> StronglySorted Z.le (sample a) ->
  (count_cover x (scan_trace a sig_len).*2 <= 1)%nat /\
  (0 <= x < sig_len -> count_cover x (scan_trace a sig_len).*2 = 1%nat).
Proof.
  intros Hne Hs.
  destruct (scan_trace_shape a sig_len Hne Hs)
    as (k0 & p1 & mid & pl & -> & Hc & Hp & _ & _).
  pose proof (chain_le _ _ _ Hc Hp) as Hle.
  rewrite fmap_cons, fmap_app, count_cover_cons, count_cover_app,
    (count_chain x _ _ _ Hc Hp).
  simpl. rewrite count_cover_cons. unfold count_cover at 1 2. simpl.
  destruct (covers x (0, p1)) eqn:E1; destruct (covers x (pl, sig_len)) eqn:E2;
    try (apply covers_spec in E1; simpl in E1);
    try (apply covers_spec in E2; simpl in E2);
    try (assert (~ (0 <= x < p1)) as N1
           by (intros ?; rewrite <- (covers_spec x (0, p1)) in *; congruence));
    try (assert (~ (pl <= x < sig_len)) as N2
           by (intros ?; rewrite <- (covers_spec x (pl, sig_len)) in *;
               congruence));
    case_bool_decide; split; lia.
Qed.

(** C8: for a record whose annotation file holds at least one annotation
    (annotations being stored in time order), the full-record scan of
    [load_rhythm_ann] succeeds and the rhythm intervals it builds tile the
    record: the dictionary holds exactly the appended intervals; in the
    order of the appends the first starts at sample 0, each next one starts
    where the previous one ends, and the last one is labelled ["NOISE"] and
    ends at [sig_len]; read as half-open ranges no two of them overlap and
    every sample of [[0, sig_len)] lies in exactly one of them. *)
Theorem C8_rhythm_intervals_tile_record (a : Annotation) (sig_len : Z) :
  a <> [] ->
  StronglySorted Z.le (sample a) ->
  exists ann pl,
    scan_rhythms a sig_len = Ok ann /\
    last (sample a) = Some pl /\
    labelled ann ≡ₚ scan_trace a sig_len /\
    (exists k0 p1, head (scan_trace a sig_len) = Some (k0, (0, p1))) /\
    chain 0 (scan_trace a sig_len).*2 sig_len /\
    last (scan_trace a sig_len) = Some ("NOISE", (pl, sig_len)) /\
    (forall i j k1 k2 i1 i2,
        i <> j ->
        labelled ann !! i = Some (k1, i1) ->
        labelled ann !! j = Some (k2, i2) ->
        ~ overlap i1 i2) /\
    (forall x, 0 <= x < sig_len ->
               count_cover x (labelled ann).*2 = 1%nat).
Proof.
  intros Hne Hs.
  destruct (scan_rhythms_trace a sig_len Hne) as (ann & Hscan & _ & Hperm).
  destruct (scan_trace_shape a sig_len Hne Hs)
    as (k0 & p1 & mid & pl & Hshape & Hc & Hp & Hl & _).
  exists ann, pl. repeat split; try done.
  - exists k0, p1. by rewrite Hshape.
  - rewrite Hshape. simpl. split; [done|]. rewrite fmap_app.
    eapply chain_app; [done|]. simpl. done.
  - rewrite Hshape.
    change ((k0, (0, p1)) :: mid ++ [("NOISE", (pl, sig_len))])
      with (((k0, (0, p1)) :: mid) ++ [("NOISE", (pl, sig_len))]).
    apply last_snoc.
  - intros i j k1 k2 i1 i2 Hij Hi Hj (x & Hx1 & Hx2).
    pose proof (scan_trace_count a sig_len x Hne Hs) as [Hle _].
    rewrite <- (count_cover_perm x _ _ (fmap_Permutation snd _ _ Hperm))
      in Hle.
    assert ((labelled ann).*2 !! i = Some i1) as Hi'
      by (by rewrite list_lookup_fmap, Hi).
    assert ((labelled ann).*2 !! j = Some i2) as Hj'
      by (by rewrite list_lookup_fmap, Hj).
    pose proof (count_cover_two x _ i j i1 i2 Hij Hi' Hj' Hx1 Hx2). lia.
  - intros x Hx.
    rewrite (count_cover_perm x _ _ (fmap_Permutation snd _ _ Hperm)).
    by apply scan_trace_count.
Qed.

Lemma C8_rhythm_intervals_tile_record_witness :
  Fixtures.atr1 <> [] /\
  StronglySorted Z.le (sample Fixtures.atr1) /\
  exists ann pl,
    scan_rhythms Fixtures.atr1 12 = Ok ann /\
    last (sample Fixtures.atr1) = Some pl /\
    labelled ann ≡ₚ scan_trace Fixtures.atr1 12 /\
    (exists k0 p1, head (scan_trace Fixtures.atr1 12) = Some (k0, (0, p1))) /\
    chain 0 (scan_trace Fixtures.atr1 12).*2 12 /\
    last (scan_trace Fixtures.atr1 12) = Some ("NOISE", (pl, 12)) /\
    (forall i j k1 k2 i1 i2,
        i <> j ->
        labelled ann !! i = Some (k1, i1) ->
        labelled ann !! j = Some (k2, i2) ->
        ~ overlap i1 i2) /\
    (forall x, 0 <= x < 12 ->
               count_cover x (labelled ann).*2 = 1%nat).
Proof.
  assert (Fixtures.atr1 <> []) as H1 by discriminate.
  assert (StronglySorted Z.le (sample Fixtures.atr1)) as H2
    by (unfold sample, Fixtures.atr1; simpl; repeat constructor; lia).
  split; [exact H1|]. split; [exact H2|].
  exact (C8_rhythm_intervals_tile_record Fixtures.atr1 12 H1 H2).
Defined.

(** *** The stored intervals file *)

Lemma append_inj_l (p s1 s2 : string) : p +:+ s1 = p +:+ s2 -> s1 = s2.
Proof. induction p as [|c p IH]; simpl; intros H; [done|]. injection H. auto. Qed.

Lemma rdheader_insert_other (db : db_dir) (rec suffix : string) (f : file) :
  suffix <> ".hea" ->
  rdheader (<[rec +:+ suffix := f]> db) rec = rdheader db rec.
Proof.
  intros Hne. unfold rdheader. rewrite lookup_insert_ne; [done|].
  intros Heq%append_inj_l. done.
Qed.

(** C5, as the claim is stated, fails: a first call on a directory without
    [r_ann.json] creates that file, and a later call answers from it even
    when the annotation file has changed in between. *)
Lemma C5_no_caching_counterexample :
  let ops := Fixtures.clip_ops in
  let call db := load_rhythm_ann db "r" None None "interval" false in
  (call Fixtures.db1).2 <> Fixtures.db1 /\
  (call (<["r.atr" := FAnnotation []]> (call Fixtures.db1).2)).1
    = (call Fixtures.db1).1 /\
  (call (<["r.atr" := FAnnotation []]> Fixtures.db1)).1 = Raise IndexError.
Proof.
  repeat split.
  - intros H. apply (f_equal (fun m : db_dir => m !! "r_ann.json")) in H.
    vm_compute in H. discriminate.
Qed.

(** C5, amended: [load_rhythm_ann] caches the full-record scan in
    [<rec>_ann.json].  For a call that returns: if that file does not
    exist, the intervals scanned from the annotation file are stored in it
    and nothing else in the directory changes; if it exists, the directory
    is left unchanged and the result does not depend on the annotation
    file. *)
Theorem C5_load_rhythm_ann_caches `{IntervalOps} (db db' : db_dir)
    (rec : string) (sampfrom sampto : option Z) (rhythm_format : string)
    (keep_original : bool) (x : rhythm_ann) :
  load_rhythm_ann db rec sampfrom sampto rhythm_format keep_original
    = (Ok x, db') ->
  (db !! simplified_fp rec = None ->
   exists wfdb_ann sig_len ann,
     rdann db rec manual_ann_ext 0 None = Ok wfdb_ann /\
     rdheader db rec = Ok sig_len /\
     scan_rhythms wfdb_ann sig_len = Ok ann /\
     db' = <[simplified_fp rec := FJson ann]> db) /\
  (is_Some (db !! simplified_fp rec) ->
   db' = db /\
   forall f,
     load_rhythm_ann (<[rec +:+ ".atr" := f]> db) rec sampfrom sampto
                     rhythm_format keep_original
     = (Ok x, <[rec +:+ ".atr" := f]> db)).
Proof.
  unfold load_rhythm_ann. intros Hload.
  destruct (assert (str_in (lower rhythm_format) ["interval"; "mask"]))
    as [[]|e] eqn:Ha; simpl in Hload; [|by inversion Hload].
  destruct (rdheader db rec) as [sig_len|e] eqn:Hh; simpl in Hload;
    [|by inversion Hload].
  destruct (assert (int_or sampfrom 0 <? int_or sampto sig_len))
    as [[]|e] eqn:Hw; simpl in Hload; [|by inversion Hload].
  unfold load_full_rhythm_ann in Hload. split.
  - intros Hnone. rewrite Hnone in Hload.
    destruct (rdann db rec manual_ann_ext 0 None) as [wfdb_ann|e] eqn:Hr;
      simpl in Hload; [|by inversion Hload].
    destruct (scan_rhythms wfdb_ann sig_len) as [ann|e] eqn:Hs;
      simpl in Hload; [|by inversion Hload].
    exists wfdb_ann, sig_len, ann. repeat split; try done.
    repeat case_match; by inversion Hload.
  - intros [c Hc]. rewrite Hc in Hload.
    destruct c as [| |ann|]; try (by inversion Hload).
    split; [repeat case_match; by inversion Hload|].
    intros f. simpl. rewrite rdheader_insert_other, Hh by done. simpl.
    rewrite Hw. simpl. unfold load_full_rhythm_ann.
    rewrite lookup_insert_ne, Hc.
    2:{ unfold simplified_fp. by intros ?%append_inj_l. }
    repeat case_match; inversion Hload; subst; done.
Qed.

Lemma C5_load_rhythm_ann_caches_witness :
  exists wfdb_ann sig_len ann,
    rdann Fixtures.db1 "r" manual_ann_ext 0 None = Ok wfdb_ann /\
    rdheader Fixtures.db1 "r" = Ok sig_len /\
    scan_rhythms wfdb_ann sig_len = Ok ann /\
    (@load_rhythm_ann Fixtures.clip_ops Fixtures.db1 "r" None None
       "interval" false).2
    = <[simplified_fp "r" := FJson ann]> Fixtures.db1.
Proof.
  refine (proj1 (@C5_load_rhythm_ann_caches Fixtures.clip_ops Fixtures.db1
                   _ "r" None None "interval" false _ _) _).
  - vm_compute. reflexivity.
  - vm_compute. reflexivity.
Defined.

(** *** [load_beat_ann] *)

Lemma set_as_fmap {V : Type} (k : string) (v : V) (d : list (string * V)) :
  NoDup (PyDict.keys d) -> k ∈ PyDict.keys d ->
  PyDict.set k v d
  = (fun kv : string * V => if String.eqb k kv.1 then (kv.1, v) else kv) <$> d.
Proof.
  unfold PyDict.keys. induction d as [|[k' v'] d IH]; simpl; intros Hnd Hin.
  - by apply elem_of_nil in Hin.
  - apply NoDup_cons in Hnd as [Hk' Hnd].
    destruct (String.eqb k k') eqn:E.
    + apply String.eqb_eq in E. subst k'. f_equal.
      clear IH Hin Hnd. induction d as [|[k2 v2] d IH]; [done|].
      simpl in *. apply not_elem_of_cons in Hk' as [Hne Hk'].
      destruct (String.eqb k k2) eqn:E2;
        [apply String.eqb_eq in E2; congruence|].
      f_equal. by apply IH.
    + f_equal. apply IH; [done|].
      apply elem_of_cons in Hin as [->|Hin]; [|done].
      by rewrite String.eqb_refl in E.
Qed.

Lemma of_list_app_fresh {V : Type} (acc items : list (string * V)) :
  NoDup (PyDict.keys (acc ++ items)) ->
  foldl (fun d kv => PyDict.set kv.1 kv.2 d) acc items = acc ++ items.
Proof.
  revert acc. induction items as [|[k v] items IH]; intros acc Hnd; simpl.
  - by rewrite app_nil_r.
  - assert (PyDict.set k v acc = acc ++ [(k, v)]) as ->.
    { unfold PyDict.keys in Hnd. rewrite fmap_app in Hnd.
      apply NoDup_app in Hnd as (_ & Hdisj & _).
      assert (k ∉ acc.*1) as Hk by (intros ?; eapply Hdisj; [done|left]).
      clear -Hk. induction acc as [|[k' v'] acc IH]; [done|]. simpl in *.
      apply not_elem_of_cons in Hk as [Hne Hk].
      destruct (String.eqb k k') eqn:E;
        [apply String.eqb_eq in E; congruence|].
      f_equal. by apply IH. }
    rewrite IH; rewrite <- (assoc_L (++)); done.
Qed.

(** A comprehension over distinct keys is the list of its items. *)
Lemma of_list_nodup {V : Type} (items : list (string * V)) :
  NoDup (PyDict.keys items) -> PyDict.of_list items = items.
Proof. intros H. unfold PyDict.of_list. by rewrite of_list_app_fresh. Qed.

Lemma append_at_as_fmap {V : Type} (k : string) (x : V)
    (d : list (string * list V)) :
  NoDup (PyDict.keys d) ->
  PyDict.append_at k x d
  = (fun kv : string * list V =>
       (kv.1, kv.2 ++ (if String.eqb k kv.1 then [x] else []))) <$> d.
Proof.
  intros Hnd. unfold PyDict.append_at.
  destruct (PyDict.get k d) as [l|] eqn:G.
  - rewrite set_as_fmap; [|done|apply get_is_Some_keys; by rewrite G].
    apply Forall_fmap_ext. apply Forall_forall.
    intros [k' l'] Hin. simpl.
    destruct (String.eqb k k') eqn:E; [|by rewrite app_nil_r].
    apply String.eqb_eq in E. subst k'. f_equal.
    assert (PyDict.get k d = Some l') as G'.
    { clear G. unfold PyDict.keys in Hnd.
      induction d as [|[k2 l2] d IH]; [by apply elem_of_nil in Hin|].
      simpl in *. apply NoDup_cons in Hnd as [Hk Hnd].
      apply elem_of_cons in Hin as [Heq|Hin].
      - injection Heq as <- <-. by rewrite String.eqb_refl.
      - destruct (String.eqb k k2) eqn:E2; [|by apply IH].
        apply String.eqb_eq in E2. subst k2. exfalso. apply Hk.
        apply list_elem_of_fmap. by exists (k, l'). }
    congruence.
  - symmetry. rewrite <- (list_fmap_id d) at 2.
    apply Forall_fmap_ext. apply Forall_forall.
    intros [k' l'] Hin. simpl.
    destruct (String.eqb k k') eqn:E; [|by rewrite app_nil_r].
    apply String.eqb_eq in E. subst k'. exfalso.
    assert (is_Some (PyDict.get k d)) as [? ?]; [|congruence].
    apply get_is_Some_keys. unfold PyDict.keys.
    apply list_elem_of_fmap. by exists (k, l').
Qed.

Lemma beat_fold (items : list (Z * string)) (d : list (string * list Z)) :
  NoDup (PyDict.keys d) ->
  Forall (fun k => k ∈ beat_types) (PyDict.keys d) ->
  foldl beat_step d items
  = (fun kv : string * list Z =>
       (kv.1, kv.2 ++ (fst <$> filter (fun it => it.2 = kv.1) items))) <$> d.
Proof.
  revert d. induction items as [|[idx bt] items IH]; intros d Hnd Hsub.
  - simpl. rewrite <- (list_fmap_id d) at 1.
    apply Forall_fmap_ext, Forall_forall. intros [k l] _. simpl.
    by rewrite app_nil_r.
  - simpl. destruct (str_in bt beat_types) eqn:E; simpl.
    + rewrite append_at_as_fmap by done.
      rewrite IH.
      * rewrite <- list_fmap_compose.
        apply Forall_fmap_ext, Forall_forall. intros [k l] _. simpl.
        rewrite filter_cons. simpl.
        destruct (String.eqb bt k) eqn:E2.
        -- apply String.eqb_eq in E2. subst k.
           rewrite decide_True by done. simpl.
           by rewrite <- (assoc_L (++)).
        -- rewrite decide_False, app_nil_r; [done|].
           intros ->. by rewrite String.eqb_refl in E2.
      * unfold PyDict.keys in *. by rewrite <- list_fmap_compose.
      * unfold PyDict.keys in *. by rewrite <- list_fmap_compose.
    + rewrite IH by done.
      apply Forall_fmap_ext, Forall_forall. intros [k l] Hin. simpl.
      rewrite filter_cons, decide_False; [done|]. simpl. intros ->.
      rewrite Forall_forall in Hsub.
      assert (k ∈ beat_types) as Hk.
      { apply Hsub. unfold PyDict.keys. apply list_elem_of_fmap.
        by exists (k, l). }
      apply str_in_elem in Hk. congruence.
Qed.

Lemma beats_of_entries (a : Annotation) (s : string) :
  fst <$> filter (fun it : Z * string => it.2 = s) (zip (sample a) (symbol a))
  = entry_sample <$> filter (fun e => entry_symbol e = s) a.
Proof.
  induction a as [|e a IH]; [done|].
  unfold sample, symbol in *. simpl. rewrite !filter_cons. simpl.
  destruct (decide (entry_symbol e = s)); simpl; [f_equal|]; exact IH.
Qed.

Lemma read_until_sublist (t : Z) (a : Annotation) :
  read_until t a `sublist_of` a.
Proof.
  induction a as [|e a IH]; [done|]. cbn [read_until].
  destruct (t <? entry_sample e); [apply sublist_nil_l|by constructor].
Qed.

(** On a window that starts at a sample [0 <= sf] and whose end, when
    given, is a sample after [sf], [rdann] returns annotations of the
    file, in the order of the file. *)
Lemma rdann_valid (db : db_dir) (rec ext : string) (a : Annotation)
    (sf : Z) (sampto : option Z) (sig_len : Z) :
  db !! (rec +:+ "." +:+ ext) = Some (FAnnotation a) ->
  0 <= sf < int_or sampto sig_len ->
  sampto <> Some 0 ->
  exists a', rdann db rec ext sf sampto = Ok a' /\ a' `sublist_of` a.
Proof.
  intros Ha [Hsf Hst] Hto. unfold rdann, check_read_inputs.
  assert ((sf <? 0) = false) as -> by lia.
  destruct sampto as [t|]; cbn [from_option id int_or] in *.
  - assert ((t =? 0) = false) as Et
      by (apply Z.eqb_neq; congruence).
    rewrite Et in Hst. rewrite Et. cbn [negb andb].
    assert ((t <=? sf) = false) as -> by lia.
    cbn [mbind result_bind rbind]. rewrite Ha.
    unfold select, proc_ann_bytes, apply_range. rewrite Et.
    destruct (0 <? sf); cbn [mbind result_bind rbind].
    + eexists. split; [done|].
      etrans; [apply sublist_filter|apply read_until_sublist].
    + eexists. split; [done|]. apply read_until_sublist.
  - cbn [andb mbind result_bind rbind]. rewrite Ha.
    by exists a.
Qed.

(** C6: on a record with its header and annotation file and a window
    that starts at a sample [0 <= sf] and ends after it ([sampto], when
    given, not being 0), [load_beat_ann] returns, for each of the four
    beat types ["A"], ["N"], ["Q"], ["V"] in turn, the samples of those
    annotations [rdann] hands over that carry that symbol (shifted by [sf]
    unless [keep_original] or no [sampfrom] is given): as a dictionary
    keyed by the four symbols, or, for ["beat"], as the list of [BeatAnn]s
    each pairing one such sample with its symbol.  The annotations handed
    over are annotations of the file, and one with any other symbol gives
    rise to no element of the result. *)
Theorem C6_load_beat_ann_beat_types (db : db_dir) (rec : string)
    (sampfrom sampto : option Z) (keep_original : bool) (sig_len : Z)
    (a : Annotation) :
  db !! (rec +:+ ".hea") = Some (FHeader sig_len) ->
  db !! (rec +:+ ".atr") = Some (FAnnotation a) ->
  0 <= int_or sampfrom 0 < int_or sampto sig_len ->
  sampto <> Some 0 ->
  let sf := int_or sampfrom 0 in
  let off := if negb keep_original && bool_decide (sampfrom <> None)
             then sf else 0 in
  exists a',
    rdann db rec manual_ann_ext sf sampto = Ok a' /\
    a' `sublist_of` a /\
    let beats (s : string) : list Z :=
      (fun e => entry_sample e - off)
        <$> filter (fun e => entry_symbol e = s) a' in
    load_beat_ann db rec sampfrom sampto "dict" keep_original
      = Ok (BeatDict ((fun s => (s, beats s)) <$> beat_types)) /\
    exists l,
      load_beat_ann db rec sampfrom sampto "beat" keep_original
        = Ok (BeatList l) /\
      l = mjoin ((fun s => (fun i => mkBeatAnn i s) <$> beats s)
                   <$> beat_types) /\
      forall b, b ∈ l <->
        beat_symbol b ∈ beat_types /\
        exists e, e ∈ a' /\ entry_symbol e = beat_symbol b /\
                  index b = entry_sample e - off.
Proof.
  intros Hh Ha Hw Hto sf off.
  destruct (rdann_valid db rec manual_ann_ext a sf sampto sig_len Ha Hw Hto)
    as (a' & Hr & Hsub).
  exists a'. split; [exact Hr|]. split; [exact Hsub|]. intros beats.
  assert (forall fmt, str_in (lower fmt) ["beat"; "dict"] = true ->
    load_beat_ann db rec sampfrom sampto fmt keep_original
    = if String.eqb (lower fmt) "beat"
      then Ok (BeatList (mjoin ((fun s => (fun i => mkBeatAnn i s) <$> beats s)
                                  <$> beat_types)))
      else Ok (BeatDict ((fun s => (s, beats s)) <$> beat_types))) as Hload.
  { intros fmt Hfmt. unfold load_beat_ann. rewrite Hfmt. simpl.
    unfold rdheader. rewrite Hh. simpl.
    fold sf. assert ((sf <? int_or sampto sig_len) = true) as ->
      by (apply Z.ltb_lt; subst sf; lia). simpl.
    rewrite Hr. cbn [mbind result_bind rbind].
    change (PyDict.of_list [("A", []); ("N", []); ("Q", []); ("V", [])])
      with ((fun k : string => (k, @nil Z)) <$> beat_types).
    rewrite beat_fold.
    2:{ apply (bool_decide_unpack _). vm_compute. exact I. }
    2:{ apply (bool_decide_unpack _). vm_compute. exact I. }
    assert (forall ann : list (string * list Z),
      (if negb keep_original && bool_decide (sampfrom <> None)
       then PyDict.of_list
              ((fun kv : string * list Z =>
                  (kv.1, (fun i => i - sf) <$> kv.2)) <$> ann)
       else PyDict.of_list ((fun kv : string * list Z => (kv.1, kv.2)) <$> ann))
      = PyDict.of_list
          ((fun kv : string * list Z =>
              (kv.1, (fun i => i - off) <$> kv.2)) <$> ann)) as ->.
    { intros ann. subst off.
      destruct (negb keep_original && bool_decide (sampfrom <> None));
        [done|]. f_equal. apply Forall_fmap_ext, Forall_forall.
      intros [k l] _. simpl. f_equal. rewrite <- (list_fmap_id l) at 1.
      apply Forall_fmap_ext, Forall_forall. intros i _. simpl. lia. }
    rewrite <- !list_fmap_compose.
    rewrite of_list_nodup.
    2:{ unfold PyDict.keys. rewrite <- list_fmap_compose. simpl.
        apply (bool_decide_unpack _). vm_compute. exact I. }
    assert ((fun s : string => (s, beats s)) <$> beat_types
            = (((fun kv : string * list Z =>
                   (kv.1, (fun i => i - off) <$> kv.2))
                ∘ (fun kv : string * list Z =>
                     (kv.1, kv.2 ++ (fst <$> filter (fun it => it.2 = kv.1)
                                       (zip (sample a') (symbol a')))))
                ∘ (fun k : string => (k, @nil Z))) <$> beat_types)) as <-.
    { apply Forall_fmap_ext, Forall_forall. intros s _. simpl.
      by rewrite beats_of_entries, <- list_fmap_compose. }
    destruct (String.eqb (lower fmt) "beat"); [|done].
    by rewrite <- list_fmap_compose. }
  split; [by apply (Hload "dict")|].
  eexists. split; [by apply (Hload "beat")|]. split; [done|].
  intros [i s]. cbn [beat_symbol index]. rewrite list_elem_of_join. split.
  - intros (l' & Hin & Hl'). apply list_elem_of_fmap in Hl' as (s' & -> & Hs').
    apply list_elem_of_fmap in Hin as (i' & Heq & Hi'). injection Heq as -> ->.
    split; [done|]. subst beats. simpl in Hi'.
    apply list_elem_of_fmap in Hi' as (e & -> & He).
    apply list_elem_of_filter in He as [Hsym He].
    exists e. repeat split; done.
  - intros (Hs & e & He & Hsym & ->).
    exists ((fun i => mkBeatAnn i s) <$> beats s). split.
    + apply list_elem_of_fmap. exists (entry_sample e - off). split; [done|].
      subst beats. simpl. apply list_elem_of_fmap. exists e. split; [done|].
      apply list_elem_of_filter. split; done.
    + apply list_elem_of_fmap. by exists s.
Qed.

Lemma C6_load_beat_ann_beat_types_witness :
  load_beat_ann Fixtures.db1 "r" (Some 3) (Some 10) "dict" false
    = Ok (BeatDict [("A", [4]); ("N", [0]); ("Q", [6]); ("V", [])]) /\
  load_beat_ann Fixtures.db1 "r" (Some 4) None "dict" false
    = Ok (BeatDict [("A", [3]); ("N", [-1]); ("Q", [5]); ("V", [])]).
Proof.
  split.
  - destruct (C6_load_beat_ann_beat_types Fixtures.db1 "r" (Some 3)
                (Some 10) false 12 Fixtures.atr1)
      as (a' & Hr & _ & Hd & _).
    + reflexivity.
    + reflexivity.
    + simpl. lia.
    + discriminate.
    + injection Hr as <-. exact Hd.
  - destruct (C6_load_beat_ann_beat_types Fixtures.db1 "r" (Some 4)
                None false 12 Fixtures.atr1)
      as (a' & Hr & _ & Hd & _).
    + reflexivity.
    + reflexivity.
    + simpl. lia.
    + discriminate.
    + injection Hr as <-. exact Hd.
Defined.

(** *** Painting the mask *)

Import LTAFDB_contract.

Lemma slice_assign_length (a b v : Z) (arr : list Z) :
  length (slice_assign a b v arr) = length arr.
Proof. unfold slice_assign. by rewrite length_imap. Qed.

Lemma slice_assign_lookup (a b v : Z) (arr : list Z) (i : nat) :
  0 <= a <= b -> b <= Z.of_nat (length arr) -> (i < length arr)%nat ->
  slice_assign a b v arr !! i
  = if covers (Z.of_nat i) (a, b) then Some v else arr !! i.
Proof.
  intros Hab Hb Hi. unfold slice_assign, slice_bound, covers.
  rewrite list_lookup_imap.
  destruct (lookup_lt_is_Some_2 arr i Hi) as [y ->]. simpl.
  assert ((a <? 0) = false) as -> by lia.
  assert ((b <? 0) = false) as -> by lia.
  rewrite !Z.min_l by lia. by destruct (_ && _).
Qed.

Lemma paint_intervals_length (sf v : Z) (l : list interval) (arr : list Z) :
  length (paint_intervals sf v l arr) = length arr.
Proof.
  revert arr. induction l as [|itv l IH]; intros arr; [done|].
  simpl. by rewrite IH, slice_assign_length.
Qed.

Lemma paint_intervals_lookup (sf v : Z) (l : list interval) (arr : list Z)
    (i : nat) :
  Forall (fun itv => sf <= itv.1 /\ itv.1 <= itv.2 /\
                     itv.2 <= sf + Z.of_nat (length arr)) l ->
  (i < length arr)%nat ->
  paint_intervals sf v l arr !! i
  = if existsb (covers (sf + Z.of_nat i)) l then Some v else arr !! i.
Proof.
  revert arr. induction l as [|itv l IH]; intros arr Hb Hi; [done|].
  apply Forall_cons in Hb as [(H1 & H2 & H3) Hb]. simpl.
  rewrite IH; rewrite ?slice_assign_length; try done.
  rewrite slice_assign_lookup by lia.
  assert (covers (Z.of_nat i) (itv.1 - sf, itv.2 - sf)
          = covers (sf + Z.of_nat i) itv) as ->.
  { unfold covers. simpl.
    destruct (itv.1 <=? sf + Z.of_nat i) eqn:E1;
      destruct (sf + Z.of_nat i <? itv.2) eqn:E2; simpl; lia. }
  destruct (covers (sf + Z.of_nat i) itv); simpl; [|done].
  by destruct (existsb _ l).
Qed.

Lemma paint_rhythms_spec (sf : Z) (W : list (string * list interval))
    (arr : list Z) :
  Forall (fun kl : string * list interval =>
            is_Some (PyDict.get kl.1 rhythm_types_map) /\
            Forall (fun itv => sf <= itv.1 /\ itv.1 <= itv.2 /\
                               itv.2 <= sf + Z.of_nat (length arr)) kl.2) W ->
  exists m,
    paint_rhythms sf W arr = Ok m /\ length m = length arr /\
    forall i : nat, (i < length arr)%nat ->
      (existsb (class_covers (sf + Z.of_nat i)) W = false ->
       m !! i = arr !! i) /\
      (forall c,
          existsb (class_covers (sf + Z.of_nat i)) W = true ->
          (forall kl, kl ∈ W -> class_covers (sf + Z.of_nat i) kl = true ->
                      PyDict.get kl.1 rhythm_types_map = Some c) ->
          m !! i = Some c).
Proof.
  revert arr. induction W as [|[k l] W IH]; intros arr HW.
  - exists arr. repeat split; try done.
  - apply Forall_cons in HW as [[[v Hv] Hl] HW]. cbn [fst snd] in Hv, Hl.
    assert (paint_rhythms sf ((k, l) :: W) arr
            = paint_rhythms sf W (paint_intervals sf v l arr)) as Hstep.
    { cbn [paint_rhythms]. rewrite Hv. by destruct l. }
    rewrite Hstep.
    destruct (IH (paint_intervals sf v l arr)) as (m & Hm & Hlen & Hspec).
    { by rewrite paint_intervals_length. }
    rewrite paint_intervals_length in Hlen.
    exists m. split; [done|]. split; [done|].
    intros i Hi. specialize (Hspec i).
    rewrite paint_intervals_length in Hspec.
    destruct (Hspec Hi) as [Hnone Hsome].
    rewrite paint_intervals_lookup in Hnone by done.
    cbn [existsb]. unfold class_covers at 1 3. cbn [fst snd]. split.
    + intros [E1 E2]%orb_false_iff. rewrite E1 in Hnone. by apply Hnone.
    + intros c Hex Hall.
      destruct (existsb (class_covers (sf + Z.of_nat i)) W) eqn:EW.
      * apply Hsome; [done|]. intros kl Hkl. apply Hall. by right.
      * rewrite orb_false_r in Hex. rewrite Hnone by done. rewrite Hex.
        specialize (Hall (k, l)). cbn [fst] in Hall.
        rewrite Hv in Hall. apply Hall; [left|done].
Qed.

(** *** The window of the scanned intervals *)

Lemma elem_of_labelled (k : string) (itv : interval)
    (d : list (string * list interval)) :
  (k, itv) ∈ labelled d <-> exists l, (k, l) ∈ d /\ itv ∈ l.
Proof.
  unfold labelled. rewrite list_elem_of_join. split.
  - intros (l' & Hin & Hl'). apply list_elem_of_fmap in Hl' as ([k' l] & -> & Hd).
    apply list_elem_of_fmap in Hin as (itv' & Heq & Hitv). simpl in *.
    injection Heq as -> ->. by exists l.
  - intros (l & Hd & Hitv). exists ((fun itv => (k, itv)) <$> l). split.
    + apply list_elem_of_fmap. by exists itv.
    + apply list_elem_of_fmap. by exists (k, l).
Qed.

Lemma window_intervals_elem `{IntervalOps} (sf st : Z)
    (ann : list (string * list interval)) (k : string) (l' : list interval) :
  NoDup (PyDict.keys ann) ->
  (k, l') ∈ window_intervals sf st ann <->
  l' <> [] /\
  exists l, (k, l) ∈ ann /\
            l' = generalized_intervals_intersection l [(sf, st)].
Proof.
  intros Hnd. unfold window_intervals. rewrite of_list_nodup.
  2:{ unfold PyDict.keys in *. by rewrite <- list_fmap_compose. }
  rewrite list_elem_of_filter, list_elem_of_fmap. simpl. split.
  - intros [Hlen ([k0 l] & Heq & Hin)]. simpl in Heq. injection Heq as -> ->.
    apply bool_decide_unpack in Hlen. split; [|by exists l].
    intros E. rewrite E in Hlen. simpl in Hlen. lia.
  - intros [Hne (l & Hin & ->)]. split; [|by exists (k, l)].
    apply bool_decide_pack.
    destruct (generalized_intervals_intersection l [(sf, st)]);
      [done|simpl; lia].
Qed.

Section scanned_record.
Context (a : Annotation) (sig_len : Z) (ann : list (string * list interval)).
Hypothesis Hne : a <> [].
Hypothesis Hsorted : StronglySorted Z.le (sample a).
Hypothesis Hscan : scan_rhythms a sig_len = Ok ann.

Lemma scanned_keys : PyDict.keys ann = PyDict.keys rhythm_types_map.
Proof.
  destruct (scan_rhythms_trace a sig_len Hne) as (ann' & Hs & Hk & _).
  congruence.
Qed.

Lemma scanned_perm : labelled ann ≡ₚ scan_trace a sig_len.
Proof.
  destruct (scan_rhythms_trace a sig_len Hne) as (ann' & Hs & _ & Hp).
  congruence.
Qed.

(** Two scanned intervals that share a sample have the same label. *)
Lemma scanned_classes_disjoint (k1 k2 : string) (i1 i2 : interval)
    (x : Z) :
  (k1, i1) ∈ labelled ann -> (k2, i2) ∈ labelled ann ->
  covers x i1 = true -> covers x i2 = true -> k1 = k2.
Proof.
  intros [i Hi]%list_elem_of_lookup [j Hj]%list_elem_of_lookup Hc1 Hc2.
  destruct (decide (i = j)) as [->|Hij]; [congruence|].
  pose proof (scan_trace_count a sig_len x Hne Hsorted) as [Hle _].
  rewrite <- (count_cover_perm x _ _
                (fmap_Permutation snd _ _ scanned_perm)) in Hle.
  assert ((labelled ann).*2 !! i = Some i1) as Hi'
    by (by rewrite list_lookup_fmap, Hi).
  assert ((labelled ann).*2 !! j = Some i2) as Hj'
    by (by rewrite list_lookup_fmap, Hj).
  pose proof (count_cover_two x _ i j i1 i2 Hij Hi' Hj' Hc1 Hc2). lia.
Qed.

(** With the annotated samples inside the record, all scanned intervals
    are proper. *)
Lemma scanned_proper (k : string) (l : list interval) :
  Forall (fun s => 0 <= s <= sig_len) (sample a) ->
  (k, l) ∈ ann -> Forall proper l.
Proof.
  intros Hin Hkl. apply Forall_forall. intros itv Hitv.
  assert ((k, itv) ∈ labelled ann) as Hlab
    by (apply elem_of_labelled; by exists l).
  rewrite scanned_perm in Hlab.
  destruct (scan_trace_shape a sig_len Hne Hsorted)
    as (k0 & p1 & mid & pl & Hshape & Hc & Hp & Hl & Hp1).
  rewrite Forall_forall in Hin.
  rewrite Hshape in Hlab.
  apply elem_of_cons in Hlab as [Heq|Hlab].
  - injection Heq as -> ->. unfold proper. simpl. by apply Hin.
  - apply elem_of_app in Hlab as [Hlab|Hlab].
    + rewrite Forall_forall in Hp. apply Hp.
      apply list_elem_of_fmap. by exists (k, itv).
    + apply list_elem_of_singleton in Hlab. injection Hlab as -> ->.
      unfold proper. simpl. apply Hin. by apply last_Some_elem_of.
Qed.
End scanned_record.

(** Called without a window, [rdann] returns the whole file. *)
Lemma rdann_whole (db : db_dir) (rec ext : string) (a : Annotation) :
  db !! (rec +:+ "." +:+ ext) = Some (FAnnotation a) ->
  rdann db rec ext 0 None = Ok a.
Proof. intros Ha. unfold rdann. cbn. by rewrite Ha. Qed.

(** With the stored file absent, or holding what the scan of the
    annotation file gives, lines 284-306 yield the scanned intervals. *)
Lemma load_full_rhythm_ann_scanned (db : db_dir) (rec : string)
    (a : Annotation) (sig_len : Z) (ann : list (string * list interval)) :
  db !! (rec +:+ ".atr") = Some (FAnnotation a) ->
  scan_rhythms a sig_len = Ok ann ->
  db !! simplified_fp rec = None \/
    db !! simplified_fp rec = Some (FJson ann) ->
  (load_full_rhythm_ann db rec sig_len).1 = Ok ann.
Proof.
  intros Ha Hscan [Hc|Hc]; unfold load_full_rhythm_ann; rewrite Hc;
    [|done].
  rewrite (rdann_whole db rec manual_ann_ext a Ha). simpl. by rewrite Hscan.
Qed.

(** C2 (code defect): on a record whose annotation file holds no
    annotation, the scan takes the last of an empty array of samples
    ([critical_points[-1]]); the call for the mask of the valid window
    [[0, 12)] raises [IndexError] and returns no array, where the claim
    promises one of length 12 that holds the code of ["N"] throughout. *)
Lemma C2_unannotated_record_raises :
  let db : db_dir := {[ "r.hea" := FHeader 12; "r.atr" := FAnnotation [] ]} in
  0 <= 0 < 12 /\ 12 <= 12 /\
  (@load_rhythm_ann Fixtures.clip_ops db "r" (Some 0) (Some 12) "mask"
     false).1 = Raise IndexError /\
  (@load_rhythm_ann Fixtures.clip_ops db "r" (Some 0) (Some 12) "interval"
     true).1 = Raise IndexError /\
  ~ exists mask,
      (@load_rhythm_ann Fixtures.clip_ops db "r" (Some 0) (Some 12) "mask"
         false).1 = Ok (RhythmMask mask).
Proof.
  intros db.
  assert ((@load_rhythm_ann Fixtures.clip_ops db "r" (Some 0) (Some 12)
             "mask" false).1 = Raise IndexError) as Hraise
    by (vm_compute; reflexivity).
  split; [lia|]. split; [lia|]. split; [exact Hraise|].
  split; [vm_compute; reflexivity|].
  intros [mask Hmask]. rewrite Hraise in Hmask. discriminate.
Qed.

(** X25: the mask agrees with the intervals.  On a record with at least
    one annotation, whose annotations are in time order and inside the
    record, with [<rec>_ann.json] absent or holding the scan of the
    annotation file, and for a window [0 <= sampfrom < sampto <= sig_len]:
    [load_rhythm_ann] with ["mask"] returns an array of length
    [sampto - sampfrom] whose position [i] holds [rhythm_types_map[k]]
    whenever an interval of class [k] returned for ["interval"] with
    [keep_original=True] contains sample [sampfrom + i] (intervals read as
    half-open, as the slice assignment does), and holds the code of
    ["N"] where no returned interval contains it. *)
Theorem X25_mask_agrees_with_intervals `{IntervalOps} `{!IntervalLaws}
    (db : db_dir) (rec : string) (a : Annotation) (sig_len sf st : Z)
    (keep_original : bool) :
  db !! (rec +:+ ".hea") = Some (FHeader sig_len) ->
  db !! (rec +:+ ".atr") = Some (FAnnotation a) ->
  a <> [] ->
  StronglySorted Z.le (sample a) ->
  Forall (fun s => 0 <= s <= sig_len) (sample a) ->
  (db !! simplified_fp rec = None \/
   exists ann, db !! simplified_fp rec = Some (FJson ann) /\
               scan_rhythms a sig_len = Ok ann) ->
  0 <= sf < st /\ st <= sig_len ->
  exists mask itvs,
    (load_rhythm_ann db rec (Some sf) (Some st) "mask" keep_original).1
      = Ok (RhythmMask mask) /\
    (load_rhythm_ann db rec (Some sf) (Some st) "interval" true).1
      = Ok (RhythmIntervals itvs) /\
    length mask = Z.to_nat (st - sf) /\
    forall i : nat, (i < length mask)%nat ->
      (forall k itv,
          (k, itv) ∈ labelled itvs -> covers (sf + Z.of_nat i) itv = true ->
          exists c, PyDict.get k rhythm_types_map = Some c /\
                    mask !! i = Some c) /\
      ((forall k itv, (k, itv) ∈ labelled itvs ->
                      covers (sf + Z.of_nat i) itv = false) ->
       mask !! i = PyDict.get "N" rhythm_types_map).
Proof.
  intros Hh Ha Hne Hsorted Hin Hcache [Hsf Hst].
  destruct (scan_rhythms_trace a sig_len Hne) as (ann & Hscan & Hkeys & _).
  assert (NoDup (PyDict.keys ann)) as Hnd.
  { rewrite Hkeys. apply (bool_decide_unpack _). vm_compute. exact I. }
  assert ((load_full_rhythm_ann db rec sig_len).1 = Ok ann) as Hfull.
  { eapply load_full_rhythm_ann_scanned; try done.
    destruct Hcache as [?|(ann' & ? & ?)]; [by left|right; congruence]. }
  set (W := window_intervals sf st ann).
  (* what the two calls reduce to *)
  assert (forall fmt ko,
    str_in (lower fmt) ["interval"; "mask"] = true ->
    (load_rhythm_ann db rec (Some sf) (Some st) fmt ko).1
    = if String.eqb (lower fmt) "mask"
      then RhythmMask <$>
             paint_rhythms sf W
               (replicate (Z.to_nat (st - sf))
                  (default 0 (PyDict.get "N" rhythm_types_map)))
      else if negb ko then
        Ok (RhythmIntervals
              (PyDict.of_list
                 ((fun kl : string * list interval =>
                     (kl.1, (fun itv : interval =>
                               (itv.1 - sf, itv.2 - sf)) <$> kl.2)) <$> W)))
      else Ok (RhythmIntervals W)) as Hcall.
  { intros fmt ko Hfmt. unfold load_rhythm_ann. rewrite Hfmt.
    unfold rdheader. rewrite Hh. cbn [assert mbind result_bind rbind int_or].
    assert ((sf =? 0) = bool_decide (sf = 0)) as E0
      by (case_bool_decide; lia).
    assert ((st =? 0) = false) as -> by lia.
    assert ((if sf =? 0 then 0 else sf) = sf) as ->
      by (destruct (sf =? 0) eqn:E; lia).
    assert ((sf <? st) = true) as -> by lia.
    cbn [assert mbind result_bind rbind].
    destruct (load_full_rhythm_ann db rec sig_len) as [r db'].
    simpl in Hfull. subst r. fold W.
    destruct (String.eqb (lower fmt) "mask"); [done|].
    by destruct ko. }
  (* the intervals of the window *)
  assert (forall k l', (k, l') ∈ W ->
            k ∈ PyDict.keys rhythm_types_map /\
            exists l, (k, l) ∈ ann /\
                      l' = generalized_intervals_intersection l [(sf, st)])
    as HW.
  { intros k l' Hkl. apply window_intervals_elem in Hkl as [_ (l & Hl & ->)];
      [|done]. split; [|by exists l].
    rewrite <- Hkeys. unfold PyDict.keys. apply list_elem_of_fmap.
    by exists (k, l). }
  set (n := Z.to_nat (st - sf)).
  destruct (paint_rhythms_spec sf W
              (replicate n (default 0 (PyDict.get "N" rhythm_types_map))))
    as (mask & Hmask & Hlen & Hspec).
  { apply Forall_forall. intros [k l'] Hkl. cbn [fst snd].
    destruct (HW _ _ Hkl) as [Hk (l & Hl & ->)]. split.
    - by apply get_is_Some_keys.
    - apply Forall_forall. intros itv Hitv.
      apply intersection_bounds in Hitv. rewrite length_replicate.
      subst n. lia. }
  rewrite length_replicate in Hlen.
  exists mask, W. split; [|split; [|split]].
  - rewrite (Hcall "mask" keep_original) by reflexivity.
    change (String.eqb (lower "mask") "mask") with true. cbn iota.
    fold n. by rewrite Hmask.
  - by rewrite (Hcall "interval" true) by reflexivity.
  - done.
  - intros i Hi. rewrite Hlen in Hi. specialize (Hspec i).
    rewrite length_replicate in Hspec. destruct (Hspec Hi) as [Hnone Hsome].
    split.
    + intros k itv Hlab Hcov.
      apply elem_of_labelled in Hlab as (l' & Hkl & Hitv).
      destruct (HW _ _ Hkl) as [Hk (l & Hl & ->)].
      apply get_is_Some_keys in Hk as [c Hc].
      exists c. split; [done|]. apply Hsome.
      * apply existsb_exists. exists (k, generalized_intervals_intersection
                                          l [(sf, st)]).
        split; [by apply list_elem_of_In|].
        unfold class_covers. apply existsb_exists. exists itv.
        split; [by apply list_elem_of_In|done].
      * intros [k2 l2'] Hkl2 Hcov2. cbn [fst].
        unfold class_covers in Hcov2. apply existsb_exists in Hcov2
          as (itv2 & Hitv2 & Hcov2). apply list_elem_of_In in Hitv2.
        cbn [snd] in Hitv2.
        destruct (HW _ _ Hkl2) as [_ (l2 & Hl2 & ->)].
        destruct (intersection_sound l [(sf, st)] itv (sf + Z.of_nat i))
          as (o1 & Ho1 & Hc1); try done.
        { by eapply scanned_proper. }
        destruct (intersection_sound l2 [(sf, st)] itv2 (sf + Z.of_nat i))
          as (o2 & Ho2 & Hc2); try done.
        { by eapply scanned_proper. }
        assert (k = k2) as <-; [|done].
        eapply (scanned_classes_disjoint a sig_len ann Hne Hsorted Hscan
                  k k2 o1 o2); try done.
        -- apply elem_of_labelled. by exists l.
        -- apply elem_of_labelled. by exists l2.
    + intros Hun. rewrite Hnone.
      * rewrite lookup_replicate_2 by done. reflexivity.
      * apply not_true_is_false. intros Hex.
        apply existsb_exists in Hex as ([k l'] & Hkl & Hcov).
        apply list_elem_of_In in Hkl.
        unfold class_covers in Hcov. apply existsb_exists in Hcov
          as (itv & Hitv & Hcov). apply list_elem_of_In in Hitv.
        cbn [snd] in Hitv.
        rewrite (Hun k itv) in Hcov; [done|].
        apply elem_of_labelled. by exists l'.
Qed.

Lemma clip_intervals_elem (l w : list interval) (itv : interval) :
  itv ∈ Fixtures.clip_intervals l w ->
  exists i0 win, i0 ∈ l /\ win ∈ w /\
    Z.max i0.1 win.1 < Z.min i0.2 win.2 /\
    itv = (Z.max i0.1 win.1, Z.min i0.2 win.2).
Proof.
  unfold Fixtures.clip_intervals. intros Hin.
  apply list_elem_of_bind in Hin as (i0 & Hin & Hi0).
  apply list_elem_of_bind in Hin as (win & Hin & Hwin).
  exists i0, win. case_bool_decide; [|by apply elem_of_nil in Hin].
  apply list_elem_of_singleton in Hin. done.
Qed.

Lemma clip_laws : @IntervalLaws Fixtures.clip_ops.
Proof.
  split.
  - intros l sf st itv Hin. simpl in Hin.
    apply clip_intervals_elem in Hin as (i0 & win & _ & Hw & Hlt & ->).
    apply list_elem_of_singleton in Hw. subst win. simpl in *. lia.
  - intros l w itv x _ Hin Hcov. simpl in Hin.
    apply clip_intervals_elem in Hin as (i0 & win & Hi0 & _ & Hlt & ->).
    exists i0. split; [done|]. apply covers_spec in Hcov.
    apply covers_spec. simpl in Hcov. lia.
Qed.

Lemma X25_mask_agrees_with_intervals_witness :
  let ops := Fixtures.clip_ops in
  exists mask itvs,
    (load_rhythm_ann Fixtures.db1 "r" (Some 1) (Some 10) "mask" false).1
      = Ok (RhythmMask mask) /\
    (load_rhythm_ann Fixtures.db1 "r" (Some 1) (Some 10) "interval" true).1
      = Ok (RhythmIntervals itvs) /\
    length mask = Z.to_nat (10 - 1) /\
    forall i : nat, (i < length mask)%nat ->
      (forall k itv,
          (k, itv) ∈ labelled itvs -> covers (1 + Z.of_nat i) itv = true ->
          exists c, PyDict.get k rhythm_types_map = Some c /\
                    mask !! i = Some c) /\
      ((forall k itv, (k, itv) ∈ labelled itvs ->
                      covers (1 + Z.of_nat i) itv = false) ->
       mask !! i = PyDict.get "N" rhythm_types_map).
Proof.
  apply (@X25_mask_agrees_with_intervals Fixtures.clip_ops clip_laws
           Fixtures.db1 "r" Fixtures.atr1 12 1 10 false).
  - reflexivity.
  - reflexivity.
  - discriminate.
  - unfold sample, Fixtures.atr1; simpl; repeat constructor; lia.
  - unfold sample, Fixtures.atr1; simpl; repeat constructor; lia.
  - left. reflexivity.
  - lia.
Defined.
End LTAFDB_facts.

Module DenseNet_facts.
Import PyStr Torch Nets DenseNet DenseNet_spec.

(** Taking apart a sequence of steps that returned. *)
Ltac bind_inv H :=
  repeat match type of H with
    | mbind _ ?r = Ok _ =>
        let E := fresh "E" in
        destruct r eqn:E; cbn [mbind result_bind rbind] in H;
        [|discriminate H]
    | fmap _ ?r = Ok _ =>
        let E := fresh "E" in
        destruct r eqn:E; cbn [fmap result_fmap rbind] in H;
        [|discriminate H]
    | (if ?b then Raise _ else _) = Ok _ =>
        let E := fresh "E" in
        destruct b eqn:E; [discriminate H|]
    end.

Lemma assert_Ok (b : bool) (u : unit) : assert b = Ok u -> b = true.
Proof. by destruct b. Qed.

(** *** Concatenation along the channels *)

Section tensors.
Context {A : Type}.
Implicit Types t x y : Tensor A.

Lemma channel_prefix_refl t : channel_prefix t t.
Proof. by repeat split. Qed.

Lemma channel_prefix_trans t1 t2 t3 :
  channel_prefix t1 t2 -> channel_prefix t2 t3 -> channel_prefix t1 t3.
Proof.
  intros (Hb & Hl & Hc & He) (Hb' & Hl' & Hc' & He').
  repeat split; try congruence; try lia.
  intros b c l ? ? ?. rewrite He', He; try done; lia.
Qed.

Lemma channel_prefix_slice t1 t2 :
  channel_prefix t1 t2 -> tensor_eq (slice_channels 0 (channels t1) t2) t1.
Proof.
  intros (Hb & Hl & Hc & He). unfold tensor_eq, slice_channels. simpl.
  rewrite Nat.min_l by done. repeat split; try done; try lia.
  intros b c l ? ? ?. rewrite Nat.add_0_r. apply He; lia.
Qed.

Lemma cat2_Ok t1 t2 y :
  cat2 t1 t2 = Ok y ->
  batch t1 = batch t2 /\ seq_len t1 = seq_len t2 /\
  batch y = batch t1 /\ seq_len y = seq_len t1 /\
  channels y = (channels t1 + channels t2)%nat /\ channel_prefix t1 y.
Proof.
  unfold cat2. destruct (Nat.eqb (batch t1) (batch t2)) eqn:Eb;
    [|discriminate].
  destruct (Nat.eqb (seq_len t1) (seq_len t2)) eqn:El; [|discriminate].
  simpl. intros [= <-]. apply Nat.eqb_eq in Eb, El.
  repeat split; simpl; try done; try lia.
  intros b c l _ Hc _. by apply Nat.ltb_lt in Hc as ->.
Qed.

Lemma cat2_same_shape t1 t2 :
  batch t1 = batch t2 -> seq_len t1 = seq_len t2 ->
  exists y, cat2 t1 t2 = Ok y.
Proof.
  intros Hb Hl. unfold cat2. rewrite Hb, Hl, !Nat.eqb_refl. simpl. eauto.
Qed.

Lemma cat_pair t1 t2 : cat [t1; t2] = cat2 t1 t2.
Proof. simpl. by destruct (cat2 t1 t2). Qed.

End tensors.

(** *** The constructors *)

Lemma Conv_Bn_Activation_init_Ok (c c' : ConvCfg) :
  Conv_Bn_Activation_init c = Ok c' ->
  c' = c /\ conv_groups c <> 0%nat /\
  (conv_in_channels c mod conv_groups c = 0)%nat /\
  (conv_out_channels c mod conv_groups c = 0)%nat.
Proof.
  unfold Conv_Bn_Activation_init.
  destruct (Nat.eqb (conv_groups c) 0) eqn:E0; [discriminate|].
  destruct (Nat.eqb (conv_out_channels c mod conv_groups c) 0) eqn:E2;
    [|discriminate].
  destruct (Nat.eqb (conv_in_channels c mod conv_groups c) 0) eqn:E1;
    [|discriminate].
  simpl. intros [= <-].
  apply Nat.eqb_neq in E0. apply Nat.eqb_eq in E1, E2. done.
Qed.

Lemma DenseBasicBlock_init_Ok (cin g k groups : nat) (dr : dropout_arg)
    (cfg : BlockConfig) (b : DenseBasicBlock.t) :
  DenseBasicBlock.__init__ cin g k groups dr cfg = Ok b ->
  groups <> 0%nat /\ (cin mod groups = 0)%nat /\ (g mod groups = 0)%nat /\
  b = DenseBasicBlock.mk cin g k groups (mkConv cin g k 1 1 groups)
                         (make_dropout dr).
Proof.
  unfold DenseBasicBlock.__init__. intros H.
  destruct (Nat.eqb groups 0) eqn:E0; [discriminate|].
  bind_inv H. apply assert_Ok in E, E1.
  apply Conv_Bn_Activation_init_Ok in E2 as (-> & _).
  apply Nat.eqb_neq in E0. apply Nat.eqb_eq in E, E1.
  by injection H as <-.
Qed.

Lemma DenseBottleNeck_init_Ok (cin g bn k groups : nat) (dr : dropout_arg)
    (cfg : BlockConfig) (b : DenseBottleNeck.t) :
  DenseBottleNeck.__init__ cin g bn k groups dr cfg = Ok b ->
  groups <> 0%nat /\ (cin mod groups = 0)%nat /\ (g mod groups = 0)%nat /\
  b = DenseBottleNeck.mk cin g bn k groups cfg
        (mkConv cin (bn * g) 1 1 1 groups)
        (mkConv (bn * g) g k 1 1 groups) (make_dropout dr).
Proof.
  unfold DenseBottleNeck.__init__. intros H. bind_inv H.
  apply Conv_Bn_Activation_init_Ok in E as (-> & Hg & Hin & _).
  apply Conv_Bn_Activation_init_Ok in E0 as (-> & _ & _ & Hout).
  simpl in *. by injection H as <-.
Qed.

(** C1 (code defect): a macro block over 4 input channels with growth
    rates [2, 3] builds its second block for [4 + 1 * 3 = 7] input
    channels, not for the [4 + 2 = 6] channels that the first block
    outputs, and reports [4 + 2 * 3 = 10] output channels instead of
    [4 + 2 + 3 = 9]; with layers that check their input's channel count
    its [forward] raises. *)
Theorem C1_growth_not_accumulated :
  let layers := Fixtures.shape_layers in
  exists b0 b1,
    DenseMacroBlock.__init__ 4 2 (ASeq [2; 3]%nat) 4 (AnInt 3) 1
      (DropoutRate 0) Fixtures.basic_config
    = Ok (Sequential [BasicBlock b0; BasicBlock b1]) /\
    DenseBasicBlock.in_channels b0 = 4%nat /\
    DenseBasicBlock.in_channels b1 = 7%nat /\
    (4 + 2 <> 7)%nat /\
    compute_output_shape (Sequential [BasicBlock b0; BasicBlock b1])
                         None None = Ok (None, 10%nat, None) /\
    (4 + 2 + 3 <> 10)%nat /\
    forward (Sequential [BasicBlock b0; BasicBlock b1]) Fixtures.x148
    = Raise RuntimeError.
Proof.
  eexists _, _. split; [reflexivity|]. repeat split; try reflexivity; lia.
Qed.

(** *** Blocks that concatenate *)

Section blocks.
Context {A : Type} `{Layers A} `{!LayersLaws A}.
Implicit Types x y : Tensor A.

Lemma conv_stride1_forward (c : ConvCfg) x :
  conv_stride c = 1%nat -> channels x = conv_in_channels c ->
  exists y, Conv_Bn_Activation_forward c x = Ok y /\
            batch y = batch x /\ channels y = conv_out_channels c /\
            seq_len y = seq_len x.
Proof.
  intros Hs Hc. destruct (conv_forward_shape c x Hc) as (y & Hy & Hshape).
  exists y. split; [done|].
  pose proof (conv_shape_channels c (Some (seq_len x)) (Some (batch x)))
    as H1.
  pose proof (conv_shape_stride1 c (Some (seq_len x)) (Some (batch x)) Hs)
    as H2.
  rewrite <- Hshape in H1, H2. unfold shape_of in H1, H2. simpl in H1, H2.
  injection H1 as H1 H1'. injection H2 as H2. done.
Qed.

Lemma dropout_forward_shape (d : dropout_layer) x :
  batch (dropout_forward d x) = batch x /\
  channels (dropout_forward d x) = channels x /\
  seq_len (dropout_forward d x) = seq_len x.
Proof.
  destruct d as [|p|p]; simpl; [done| |];
    pose proof (dropout_shape p x) as Hs; unfold shape_of in Hs;
    by injection Hs as -> -> ->.
Qed.

Lemma basic_new_features (b : DenseBasicBlock.t) x :
  conv_ok (DenseBasicBlock.bac b) (channels x)
          (DenseBasicBlock.growth_rate b) (DenseBasicBlock.groups b) ->
  exists nf, DenseBasicBlock.new_features b x = Ok nf /\
             batch nf = batch x /\ seq_len nf = seq_len x /\
             channels nf = DenseBasicBlock.growth_rate b.
Proof.
  intros (Hin & Hout & Hs & _). unfold DenseBasicBlock.new_features.
  destruct (conv_stride1_forward (DenseBasicBlock.bac b) x Hs)
    as (y & -> & Hb & Hc & Hl); [done|].
  eexists. split; [reflexivity|].
  destruct (dropout_forward_shape (DenseBasicBlock.dropout b) y)
    as (-> & -> & ->). repeat split; congruence.
Qed.

Lemma bottleneck_new_features (b : DenseBottleNeck.t) x :
  memory_efficient (DenseBottleNeck.config b) = false ->
  conv_ok (DenseBottleNeck.neck_conv b) (channels x)
          (DenseBottleNeck.bn_size b * DenseBottleNeck.growth_rate b)
          (DenseBottleNeck.groups b) ->
  conv_ok (DenseBottleNeck.main_conv b)
          (DenseBottleNeck.bn_size b * DenseBottleNeck.growth_rate b)
          (DenseBottleNeck.growth_rate b) (DenseBottleNeck.groups b) ->
  exists nf, DenseBottleNeck.new_features b x = Ok nf /\
             batch nf = batch x /\ seq_len nf = seq_len x /\
             channels nf = DenseBottleNeck.growth_rate b.
Proof.
  intros Hme (Hin & Hout & Hs & _) (Hin' & Hout' & Hs' & _).
  unfold DenseBottleNeck.new_features, DenseBottleNeck.bn_function.
  rewrite Hme.
  destruct (conv_stride1_forward (DenseBottleNeck.neck_conv b) x Hs)
    as (y & -> & Hb & Hc & Hl); [done|]. simpl.
  destruct (conv_stride1_forward (DenseBottleNeck.main_conv b) y Hs')
    as (z & -> & Hb' & Hc' & Hl'); [congruence|].
  eexists. split; [reflexivity|].
  destruct (dropout_forward_shape (DenseBottleNeck.dropout b) z)
    as (-> & -> & ->). repeat split; congruence.
Qed.

(** A block with [groups = 1] that returns, returns its input followed
    by further channels. *)
Lemma plain_block_prefix (m : module) x y :
  plain_block m -> forward m x = Ok y -> channel_prefix x y.
Proof.
  destruct m as [| |b|b|]; simpl; try done; intros Hg Hf.
  - unfold DenseBasicBlock.forward in Hf. bind_inv Hf.
    rewrite Hg in Hf. simpl in Hf. bind_inv Hf.
    injection Hf as <-. by apply cat2_Ok in E0 as (_ & _ & _ & _ & _ & ?).
  - unfold DenseBottleNeck.forward in Hf. bind_inv Hf.
    rewrite Hg in Hf. simpl in Hf. bind_inv Hf.
    injection Hf as <-. by apply cat2_Ok in E0 as (_ & _ & _ & _ & _ & ?).
Qed.

Lemma forward_trace_prefix (blocks : list module) x
    (outs : list (Tensor A)) :
  Forall plain_block blocks ->
  forward_trace blocks x = Ok outs ->
  (forall j oj, outs !! j = Some oj -> channel_prefix x oj) /\
  (forall i j oi oj, (i <= j)%nat -> outs !! i = Some oi ->
                     outs !! j = Some oj -> channel_prefix oi oj).
Proof.
  revert x outs. induction blocks as [|m blocks IH]; intros x outs Hp Ht.
  - simpl in Ht. injection Ht as <-. split; intros; by simplify_eq.
  - apply Forall_cons in Hp as [Hm Hp]. simpl in Ht. bind_inv Ht.
    injection Ht as <-. rename a into y, a0 into ys.
    pose proof (plain_block_prefix m x y Hm E) as Hxy.
    destruct (IH y ys Hp E0) as [IH1 IH2]. split.
    + intros [|j] oj Hj; simpl in Hj.
      * by injection Hj as <-.
      * eapply channel_prefix_trans; [exact Hxy|]. by eapply IH1.
    + intros [|i] [|j] oi oj Hij Hi Hj; simpl in Hi, Hj; try lia.
      * injection Hi as <-. injection Hj as <-. apply channel_prefix_refl.
      * injection Hi as <-. by eapply IH1.
      * eapply IH2; [|done|done]. lia.
Qed.

End blocks.

(** C3, as the claim is stated, fails: a [DenseBottleNeck] with
    [groups = 1] built with [memory_efficient=True] returns no output at
    all, its [forward] raises [NotImplementedError]. *)
Lemma C3_memory_efficient_counterexample :
  let layers := Fixtures.shape_layers in
  exists b,
    DenseBottleNeck.__init__ 4 2 4 3 1 (DropoutRate 0)
      Fixtures.memory_efficient_config = Ok b /\
    DenseBottleNeck.groups b = 1%nat /\
    channels Fixtures.x148 = DenseBottleNeck.in_channels b /\
    DenseBottleNeck.forward b Fixtures.x148 = Raise NotImplementedError.
Proof. eexists. split; [reflexivity|]. repeat split. Qed.

(** C3, amended: for every [DenseBasicBlock], and every [DenseBottleNeck]
    whose [memory_efficient] option is off, built with [groups = 1], and
    every input with [in_channels] channels, [forward] returns the
    concatenation along the channels of the input and the newly computed
    features, so the first [in_channels] channels of the output are the
    input; hence in a sequence of such blocks each layer's output, once
    produced, has the outputs of all previous layers as its leading
    channels. *)
Theorem C3_dense_blocks_concatenate {A : Type} `{Layers A}
    `{!LayersLaws A} :
  (forall cin g k dr cfg b (x : Tensor A),
      DenseBasicBlock.__init__ cin g k 1 dr cfg = Ok b ->
      channels x = cin ->
      exists nf out,
        DenseBasicBlock.new_features b x = Ok nf /\
        DenseBasicBlock.forward b x = Ok out /\
        cat [x; nf] = Ok out /\
        tensor_eq (slice_channels 0 cin out) x) /\
  (forall cin g bn k dr cfg b (x : Tensor A),
      DenseBottleNeck.__init__ cin g bn k 1 dr cfg = Ok b ->
      memory_efficient cfg = false ->
      channels x = cin ->
      exists nf out,
        DenseBottleNeck.new_features b x = Ok nf /\
        DenseBottleNeck.forward b x = Ok out /\
        cat [x; nf] = Ok out /\
        tensor_eq (slice_channels 0 cin out) x) /\
  (forall blocks (x : Tensor A) outs,
      Forall plain_block blocks ->
      forward_trace blocks x = Ok outs ->
      forall i j oi oj,
        (i <= j)%nat -> outs !! i = Some oi -> outs !! j = Some oj ->
        tensor_eq (slice_channels 0 (channels oi) oj) oi).
Proof.
  split; [|split].
  - intros cin g k dr cfg b x Hb Hx.
    apply DenseBasicBlock_init_Ok in Hb as (_ & _ & _ & ->).
    destruct (basic_new_features
                (DenseBasicBlock.mk cin g k 1 (mkConv cin g k 1 1 1)
                                    (make_dropout dr)) x)
      as (nf & Hnf & Hbn & Hln & Hcn); [by rewrite Hx|].
    destruct (cat2_same_shape x nf) as [out Hout]; [done|done|].
    exists nf, out. rewrite cat_pair.
    split; [done|]. split; [|split; [done|]].
    + unfold DenseBasicBlock.forward. rewrite Hnf. simpl.
      by destruct (cat2 x nf).
    + rewrite <- Hx. apply channel_prefix_slice.
      by apply cat2_Ok in Hout as (_ & _ & _ & _ & _ & ?).
  - intros cin g bn k dr cfg b x Hb Hme Hx.
    apply DenseBottleNeck_init_Ok in Hb as (_ & _ & _ & ->).
    destruct (bottleneck_new_features
                (DenseBottleNeck.mk cin g bn k 1 cfg
                   (mkConv cin (bn * g) 1 1 1 1) (mkConv (bn * g) g k 1 1 1)
                   (make_dropout dr)) x)
      as (nf & Hnf & Hbn & Hln & Hcn); [done|by rewrite Hx|done|].
    destruct (cat2_same_shape x nf) as [out Hout]; [done|done|].
    exists nf, out. rewrite cat_pair.
    split; [done|]. split; [|split; [done|]].
    + unfold DenseBottleNeck.forward. rewrite Hnf. simpl.
      by destruct (cat2 x nf).
    + rewrite <- Hx. apply channel_prefix_slice.
      by apply cat2_Ok in Hout as (_ & _ & _ & _ & _ & ?).
  - intros blocks x outs Hp Ht i j oi oj Hij Hi Hj.
    apply channel_prefix_slice.
    by eapply (proj2 (forward_trace_prefix blocks x outs Hp Ht)).
Qed.

Lemma shape_layers_laws : @LayersLaws Z Fixtures.shape_layers.
Proof.
  split.
  - intros c x Hc. simpl. rewrite Hc, Nat.eqb_refl. by eexists.
  - done.
  - intros c sl bs Hs. simpl. rewrite Hs. by destruct sl.
  - intros d x Hd. simpl. rewrite Hd, Nat.eqb_refl. by eexists.
  - done.
  - done.
Qed.

Lemma C3_dense_blocks_concatenate_witness :
  let layers := Fixtures.shape_layers in
  let b := DenseBasicBlock.mk 4 2 3 1 (mkConv 4 2 3 1 1 1) Identity in
  exists nf out,
    DenseBasicBlock.new_features b Fixtures.x148 = Ok nf /\
    DenseBasicBlock.forward b Fixtures.x148 = Ok out /\
    cat [Fixtures.x148; nf] = Ok out /\
    tensor_eq (slice_channels 0 4 out) Fixtures.x148.
Proof.
  apply (proj1 (@C3_dense_blocks_concatenate Z Fixtures.shape_layers
                  shape_layers_laws)
           4%nat 2%nat 3%nat (DropoutRate 0) Fixtures.basic_config);
    reflexivity.
Defined.

(** *** Containers *)

Lemma module_ind' (P : module -> Prop) :
  (forall c, P (Conv_Bn_Activation c)) ->
  (forall d, P (DownSample d)) ->
  (forall b, P (BasicBlock b)) ->
  (forall b, P (BottleNeck b)) ->
  (forall children, Forall P children -> P (Sequential children)) ->
  forall m, P m.
Proof.
  intros Hc Hd Hb Hn Hs. fix IH 1. intros [c|d|b|b|children].
  - apply Hc.
  - apply Hd.
  - apply Hb.
  - apply Hn.
  - apply Hs. induction children as [|m ms IHms]; constructor;
      [apply IH|exact IHms].
Qed.

Lemma out_channels_Sequential (ms : list module) (c : nat) :
  out_channels (Sequential ms) c = chain_out ms c.
Proof. revert c. induction ms as [|m ms IH]; intros c; done. Qed.

Lemma accepts_Sequential (ms : list module) (c : nat) :
  accepts (Sequential ms) c <-> ms <> [] /\ chain_accepts ms c.
Proof.
  simpl. apply and_iff_compat_l. revert c.
  induction ms as [|m ms IH]; intros c; [done|].
  simpl. by rewrite <- IH.
Qed.

Section containers.
Context {A : Type} `{Layers A} `{!LayersLaws A}.
Implicit Types x y : Tensor A.

Lemma compute_output_shape_Sequential (ms : list module)
    (sl bs : option nat) :
  compute_output_shape (Sequential ms) sl bs
  = compute_sequential_output_shape compute_output_shape bs ms sl None.
Proof. reflexivity. Qed.

Lemma forward_Sequential (ms : list module) x :
  forward (Sequential ms) x = sequential_forward forward ms x.
Proof. reflexivity. Qed.

(** The channel count that [compute_output_shape] reports is the
    module's output channel count, whatever length and batch size it is
    asked about. *)
Lemma compute_output_shape_channels (m : module) :
  forall sl bs s c,
    compute_output_shape m sl bs = Ok s -> s.1.2 = out_channels m c.
Proof.
  induction m as [c0|d|b|b|ms IH] using module_ind'; intros sl bs s c Hs.
  - simpl in Hs. injection Hs as <-. by rewrite conv_shape_channels.
  - simpl in Hs. injection Hs as <-. by rewrite down_shape_channels.
  - simpl in Hs. by injection Hs as <-.
  - simpl in Hs. by injection Hs as <-.
  - rewrite compute_output_shape_Sequential in Hs.
    rewrite out_channels_Sequential.
    assert (forall sl last c,
      compute_sequential_output_shape compute_output_shape bs ms sl last
        = Ok s ->
      match ms with [] => last = Some s | _ => s.1.2 = chain_out ms c end)
      as Hgen.
    { clear Hs sl c. induction ms as [|m ms IHms]; intros sl last c Hs.
      - simpl in Hs. destruct last; by inversion Hs.
      - apply Forall_cons in IH as [Hm IH]. simpl in Hs. bind_inv Hs.
        specialize (IHms IH _ _ (out_channels m c) Hs).
        simpl. destruct ms as [|m' ms']; [|done].
        injection IHms as <-. by eapply Hm. }
    specialize (Hgen sl None c Hs). by destruct ms.
Qed.

Lemma cat_from_Ok (ts : list (Tensor A)) (acc : Tensor A) :
  Forall (fun t => batch t = batch acc /\ seq_len t = seq_len acc) ts ->
  exists y, cat_from acc ts = Ok y /\ batch y = batch acc /\
            seq_len y = seq_len acc /\
            channels y = (channels acc + sum_list (channels <$> ts))%nat.
Proof.
  revert acc. induction ts as [|t ts IH]; intros acc Hts.
  - exists acc. simpl. repeat split; done.
  - apply Forall_cons in Hts as [[Hb Hl] Hts]. simpl.
    destruct (cat2_same_shape acc t) as [acc' Hacc]; [done|done|].
    rewrite Hacc. simpl.
    apply cat2_Ok in Hacc as (_ & _ & Hb' & Hl' & Hc' & _).
    destruct (IH acc') as (y & Hy & Hyb & Hyl & Hyc).
    { eapply Forall_impl; [exact Hts|]. simpl. intros ? [? ?].
      split; congruence. }
    exists y. split; [done|]. split; [congruence|]. split; [congruence|].
    rewrite Hyc, Hc'.
    change (list_fmap (Tensor A) nat channels ts) with (channels <$> ts). lia.
Qed.

Lemma interleave_shapes (iw nfw groups : nat) x (nf : Tensor A) :
  batch nf = batch x -> seq_len nf = seq_len x ->
  Forall (fun t => batch t = batch x /\ seq_len t = seq_len x)
         (DenseBasicBlock.interleave iw nfw groups x nf).
Proof.
  intros Hb Hl. unfold DenseBasicBlock.interleave.
  apply Forall_forall. intros t Ht.
  apply list_elem_of_join in Ht as (l & Ht & Hl').
  apply list_elem_of_fmap in Hl' as (i & -> & _).
  apply elem_of_cons in Ht as [->|Ht]; [done|].
  apply list_elem_of_singleton in Ht as ->. done.
Qed.

Lemma interleave_channels (iw nfw groups : nat) x (nf : Tensor A) :
  channels x = (iw * groups)%nat -> channels nf = (nfw * groups)%nat ->
  sum_list (channels <$> DenseBasicBlock.interleave iw nfw groups x nf)
  = (channels x + channels nf)%nat.
Proof.
  intros Hx Hnf. unfold DenseBasicBlock.interleave.
  assert (forall idxs,
    Forall (fun i => (i < groups)%nat) idxs ->
    sum_list
      (channels <$>
         mjoin ((fun i =>
                   [slice_channels (iw * i) (iw * (i + 1)) x;
                    slice_channels (nfw * i) (nfw * (i + 1)) nf]) <$> idxs))
    = (length idxs * (iw + nfw))%nat) as Hgen.
  { induction idxs as [|i idxs IH]; intros Hi; [done|].
    apply Forall_cons in Hi as [Hi His]. specialize (IH His).
    set (f := fun i : nat =>
                [slice_channels (iw * i) (iw * (i + 1)) x;
                 slice_channels (nfw * i) (nfw * (i + 1)) nf]) in *.
    change (sum_list (channels <$> mjoin (f <$> i :: idxs)))
      with (channels (slice_channels (iw * i) (iw * (i + 1)) x)
            + (channels (slice_channels (nfw * i) (nfw * (i + 1)) nf)
               + sum_list (channels <$> mjoin (f <$> idxs))))%nat.
    rewrite IH. simpl. rewrite Hx, Hnf.
    assert (iw * (i + 1) <= iw * groups)%nat by (apply Nat.mul_le_mono_l; lia).
    assert (nfw * (i + 1) <= nfw * groups)%nat
      by (apply Nat.mul_le_mono_l; lia).
    rewrite !Nat.min_l by nia. nia. }
  rewrite Hgen.
  - rewrite length_seq. nia.
  - apply Forall_forall. intros i Hi%elem_of_seq. lia.
Qed.

Lemma cat_interleave (iw nfw groups : nat) x (nf : Tensor A) :
  groups <> 0%nat ->
  batch nf = batch x -> seq_len nf = seq_len x ->
  channels x = (iw * groups)%nat -> channels nf = (nfw * groups)%nat ->
  exists y, cat (DenseBasicBlock.interleave iw nfw groups x nf) = Ok y /\
            batch y = batch x /\ seq_len y = seq_len x /\
            channels y = (channels x + channels nf)%nat.
Proof.
  intros Hg Hb Hl Hx Hnf.
  pose proof (interleave_shapes iw nfw groups x nf Hb Hl) as Hsh.
  pose proof (interleave_channels iw nfw groups x nf Hx Hnf) as Hch.
  destruct (DenseBasicBlock.interleave iw nfw groups x nf) as [|t ts] eqn:E.
  - exfalso. unfold DenseBasicBlock.interleave in E.
    destruct groups; [done|]. discriminate.
  - apply Forall_cons in Hsh as [[Htb Htl] Hts]. simpl.
    destruct (cat_from_Ok ts t) as (y & Hy & Hyb & Hyl & Hyc).
    { eapply Forall_impl; [exact Hts|]. simpl. intros ? [? ?].
      split; congruence. }
    exists y. split; [done|]. split; [congruence|]. split; [congruence|].
    rewrite fmap_cons in Hch.
    change (sum_list (channels t :: (channels <$> ts)))
      with (channels t + sum_list (channels <$> ts))%nat in Hch. lia.
Qed.
End containers.

(** *** Shapes: [compute_output_shape] against [forward] *)

Section shapes.
Context {A : Type} `{Layers A} `{!LayersLaws A}.
Implicit Types x y : Tensor A.

Lemma div_groups (n groups : nat) :
  groups <> 0%nat -> (n mod groups = 0)%nat -> n = (n / groups * groups)%nat.
Proof.
  intros Hg Hm. pose proof (Nat.div_mod n groups Hg) as Hd. nia.
Qed.

(** What the two kinds of blocks do once the new features are there. *)
Lemma block_cat (groups cin g : nat) x (nf : Tensor A) :
  groups <> 0%nat -> (cin mod groups = 0)%nat -> (g mod groups = 0)%nat ->
  channels x = cin -> channels nf = g ->
  batch nf = batch x -> seq_len nf = seq_len x ->
  exists y,
    (if Nat.eqb groups 1 then cat [x; nf]
     else if Nat.eqb groups 0 then Raise ZeroDivisionError
     else cat (DenseBasicBlock.interleave (cin / groups) (g / groups)
                                          groups x nf)) = Ok y /\
    batch y = batch x /\ seq_len y = seq_len x /\
    channels y = (cin + g)%nat.
Proof.
  intros Hg Hcin Hgr Hx Hnf Hb Hl.
  destruct (Nat.eqb groups 1) eqn:E1.
  - rewrite cat_pair. destruct (cat2_same_shape x nf) as [y Hy]; [done|done|].
    exists y. apply cat2_Ok in Hy as Hy'.
    destruct Hy' as (_ & _ & ? & ? & ? & _). repeat split; try done. lia.
  - assert (Nat.eqb groups 0 = false) as -> by (by apply Nat.eqb_neq).
    destruct (cat_interleave (cin / groups) (g / groups) groups x nf)
      as (y & Hy & ? & ? & ?); try done.
    + rewrite Hx. by apply div_groups.
    + rewrite Hnf. by apply div_groups.
    + exists y. repeat split; try done. lia.
Qed.

Lemma sequential_agrees (ms : list module) :
  Forall (fun m => forall x, accepts m (channels x) -> agrees m x) ms ->
  forall x last,
    ms <> [] \/ last = Some (shape_of x) ->
    chain_accepts ms (channels x) ->
    exists y,
      sequential_forward forward ms x = Ok y /\
      compute_sequential_output_shape compute_output_shape
        (Some (batch x)) ms (Some (seq_len x)) last = Ok (shape_of y) /\
      channels y = chain_out ms (channels x) /\ batch y = batch x.
Proof.
  induction ms as [|m ms IH]; intros Hall x last Hlast Hchain.
  - destruct Hlast as [? | ->]; [done|]. exists x. by repeat split.
  - apply Forall_cons in Hall as [Hm Hall]. destruct Hchain as [Hacc Hchain].
    destruct (Hm x Hacc) as (y & Hf & Hs & Hc & Hb).
    simpl. rewrite Hf, Hs. simpl.
    destruct (IH Hall y (Some (shape_of y))) as (z & Hz1 & Hz2 & Hz3 & Hz4).
    { by right. }
    { by rewrite Hc. }
    exists z. rewrite <- Hb. split; [done|]. split; [done|].
    split; [by rewrite <- Hc|congruence].
Qed.

(** A module wired for the channel count of its input returns a tensor
    of the shape that [compute_output_shape] computes. *)
Lemma accepts_agrees (m : module) :
  forall x, accepts m (channels x) -> agrees m x.
Proof.
  induction m as [c|d|b|b|ms IH] using module_ind'; intros x Hacc.
  - simpl in Hacc.
    destruct (conv_forward_shape c x) as (y & Hy & Hs); [done|].
    pose proof (conv_shape_channels c (Some (seq_len x)) (Some (batch x)))
      as Hc. rewrite <- Hs in Hc. injection Hc as Hb Hc.
    exists y. simpl. rewrite Hs. done.
  - simpl in Hacc.
    destruct (down_forward_shape d x) as (y & Hy & Hs); [done|].
    pose proof (down_shape_channels d (Some (seq_len x)) (Some (batch x)))
      as Hc. rewrite <- Hs in Hc. injection Hc as Hb Hc.
    exists y. simpl. rewrite Hs. done.
  - destruct Hacc as (Hin & Hg & Hmi & Hmg & Hconv).
    destruct (basic_new_features b x) as (nf & Hnf & Hnb & Hnl & Hnc);
      [exact Hconv|].
    destruct (block_cat (DenseBasicBlock.groups b) (channels x)
                (DenseBasicBlock.growth_rate b) x nf)
      as (y & Hy & Hyb & Hyl & Hyc); try done.
    exists y. simpl. unfold DenseBasicBlock.forward. rewrite Hnf. simpl.
    rewrite Hin. split; [done|].
    unfold DenseBasicBlock.compute_output_shape, shape_of.
    rewrite Hyb, Hyl, Hyc, Hin. done.
  - destruct Hacc as (Hin & Hg & Hmi & Hmg & Hme & Hneck & Hmain).
    destruct (bottleneck_new_features b x) as (nf & Hnf & Hnb & Hnl & Hnc);
      [done|exact Hneck|done|].
    destruct (block_cat (DenseBottleNeck.groups b) (channels x)
                (DenseBottleNeck.growth_rate b) x nf)
      as (y & Hy & Hyb & Hyl & Hyc); try done.
    exists y. simpl. unfold DenseBottleNeck.forward. rewrite Hnf. simpl.
    rewrite Hin. split; [done|].
    unfold DenseBottleNeck.compute_output_shape, shape_of.
    rewrite Hyb, Hyl, Hyc, Hin. done.
  - apply accepts_Sequential in Hacc as [Hne Hchain].
    destruct (sequential_agrees ms IH x None) as (y & Hy1 & Hy2 & Hy3 & Hy4);
      [by left|done|].
    exists y. rewrite forward_Sequential, compute_output_shape_Sequential,
      out_channels_Sequential. done.
Qed.

End shapes.

(** *** What the constructors build *)

Lemma basic_init_accepts (cin g k groups : nat) (dr : dropout_arg)
    (cfg : BlockConfig) (b : DenseBasicBlock.t) :
  DenseBasicBlock.__init__ cin g k groups dr cfg = Ok b ->
  accepts (BasicBlock b) cin /\
  forall c, out_channels (BasicBlock b) c = (cin + g)%nat.
Proof.
  intros (Hg & Hin & Hgr & ->)%DenseBasicBlock_init_Ok. by repeat split.
Qed.

Lemma bottleneck_init_accepts (cin g bn k groups : nat) (dr : dropout_arg)
    (cfg : BlockConfig) (b : DenseBottleNeck.t) :
  DenseBottleNeck.__init__ cin g bn k groups dr cfg = Ok b ->
  memory_efficient cfg = false ->
  accepts (BottleNeck b) cin /\
  forall c, out_channels (BottleNeck b) c = (cin + g)%nat.
Proof.
  intros (Hg & Hin & Hgr & ->)%DenseBottleNeck_init_Ok Hme. by repeat split.
Qed.

Lemma make_block_accepts (cin bn groups : nat) (grs fls : list nat)
    (dr : dropout_arg) (cfg : BlockConfig) (idx g : nat) (m : module) :
  DenseMacroBlock.make_block cin bn groups grs fls dr cfg idx = Ok m ->
  grs !! idx = Some g -> runnable cfg ->
  accepts m (cin + idx * g) /\
  forall c, out_channels m c = (cin + idx * g + g)%nat.
Proof.
  unfold DenseMacroBlock.make_block, getitem. intros Hm Hg Hrun.
  rewrite Hg in Hm. cbn [mbind result_bind rbind] in Hm.
  destruct (fls !! idx) as [fl|]; [|discriminate].
  cbn [mbind result_bind rbind] in Hm.
  destruct (str_in (lower (building_block cfg)) ["basic"; "basic_block"])
    eqn:Eb; bind_inv Hm; injection Hm as <-.
  - by eapply basic_init_accepts.
  - eapply bottleneck_init_accepts; [done|].
    destruct Hrun as [?|?]; [congruence|done].
Qed.

Lemma make_blocks_accepts (cin bn groups : nat) (grs fls : list nat)
    (dr : dropout_arg) (cfg : BlockConfig) (g : nat) :
  runnable cfg ->
  forall k s bs,
    DenseMacroBlock.make_blocks
      (DenseMacroBlock.make_block cin bn groups grs fls dr cfg) (seq s k)
    = Ok bs ->
    (forall idx, (s <= idx < s + k)%nat -> grs !! idx = Some g) ->
    chain_accepts bs (cin + s * g) /\
    chain_out bs (cin + s * g) = (cin + (s + k) * g)%nat /\
    length bs = k.
Proof.
  intros Hrun. induction k as [|k IH]; intros s bs Hbs Hg.
  - simpl in Hbs. injection Hbs as <-. simpl. repeat split; f_equal; lia.
  - simpl in Hbs. bind_inv Hbs. injection Hbs as <-.
    rename a into m, a0 into bs.
    destruct (make_block_accepts _ _ _ _ _ _ _ _ g _ E) as [Hacc Hout];
      [apply Hg; lia|done|].
    destruct (IH (S s) bs E0) as (Hch & Hco & Hlen).
    { intros idx Hidx. apply Hg. lia. }
    simpl. rewrite (Hout (cin + s * g)%nat).
    replace (cin + s * g + g)%nat with (cin + S s * g)%nat by lia.
    repeat split; try done; [|lia].
    rewrite Hco. f_equal. lia.
Qed.

Lemma macro_init_accepts (cin n : nat) (grs : int_or_seq) (bn : nat)
    (fls : int_or_seq) (groups : nat) (dr : dropout_arg)
    (cfg : BlockConfig) (m : module) :
  DenseMacroBlock.__init__ cin n grs bn fls groups dr cfg = Ok m ->
  uniform grs n -> n <> 0%nat -> runnable cfg ->
  accepts m cin.
Proof.
  unfold DenseMacroBlock.__init__. intros Hm [g Hu] Hn Hrun.
  bind_inv Hm. injection Hm as <-. rename a1 into bs.
  destruct (make_blocks_accepts cin bn groups (as_list grs n)
              (as_list fls n) dr cfg g Hrun n 0 bs E1)
    as (Hch & _ & Hlen).
  { intros idx Hidx. rewrite Hu. apply lookup_replicate_2. lia. }
  apply accepts_Sequential. split.
  - intros ->. simpl in Hlen. lia.
  - simpl in Hch. by rewrite Nat.add_0_r in Hch.
Qed.

Lemma transition_init_accepts (cin : nat) (compression : Q)
    (sl groups : nat) (mode : string) (m : module) :
  DenseTransition.__init__ cin compression sl groups mode = Ok m ->
  accepts m cin.
Proof.
  unfold DenseTransition.__init__. intros Hm.
  destruct (negb _); [discriminate|].
  destruct (Nat.eqb groups 0); [discriminate|].
  bind_inv Hm. apply Conv_Bn_Activation_init_Ok in E1 as (-> & _).
  injection Hm as <-. simpl. by repeat split.
Qed.

Lemma make_blocks_length (mk : nat -> result module) (idxs : list nat)
    (bs : list module) :
  DenseMacroBlock.make_blocks mk idxs = Ok bs -> length bs = length idxs.
Proof.
  revert bs. induction idxs as [|i idxs IH]; intros bs Hbs; simpl in Hbs.
  - by injection Hbs as <-.
  - bind_inv Hbs. injection Hbs as <-. simpl. f_equal. by apply IH.
Qed.

Section densenet.
Context {A : Type} `{Layers A} `{!LayersLaws A}.

(** A macro block without layers has no output shape. *)
Lemma macro_init_nonempty (cin n : nat) (grs : int_or_seq) (bn : nat)
    (fls : int_or_seq) (groups : nat) (dr : dropout_arg)
    (cfg : BlockConfig) (m : module) (sl bs : option nat) (s : shape) :
  DenseMacroBlock.__init__ cin n grs bn fls groups dr cfg = Ok m ->
  compute_output_shape m sl bs = Ok s -> n <> 0%nat.
Proof.
  unfold DenseMacroBlock.__init__. intros Hm Hs ->.
  bind_inv Hm. injection Hm as <-.
  apply make_blocks_length in E1. destruct a1; [|discriminate].
  discriminate.
Qed.

Lemma make_macro_blocks_accepts (config : Config) (num_blocks : nat)
    (grs fls : list int_or_seq) (sls : list nat) :
  runnable (block config) ->
  forall layers idx macro_in ms,
    make_macro_blocks config num_blocks grs fls sls idx macro_in layers
      = Ok ms ->
    (idx + length layers = num_blocks)%nat ->
    (forall j gr n, grs !! (idx + j)%nat = Some gr ->
                    layers !! j = Some n -> uniform gr n) ->
    chain_accepts ms macro_in.
Proof.
  intros Hrun. induction layers as [|n rest IH];
    intros idx macro_in ms Hms Hlen Hu.
  - simpl in Hms. by injection Hms as <-.
  - simpl in Hms. unfold getitem in Hms.
    destruct (grs !! idx) as [gr|] eqn:Hgr; [|discriminate].
    destruct (fls !! idx) as [fl|]; [|discriminate].
    cbn [mbind result_bind rbind] in Hms.
    destruct (DenseMacroBlock.__init__ macro_in n gr (bn_size config) fl
                (groups config) (dropout config) (block config))
      as [dmb|] eqn:Hdmb; [|discriminate].
    cbn [mbind result_bind rbind] in Hms.
    destruct (compute_output_shape dmb None None) as [s|] eqn:Hs;
      [|discriminate].
    cbn [mbind result_bind rbind] in Hms.
    assert (accepts dmb macro_in) as Hacc.
    { eapply macro_init_accepts; [exact Hdmb| | |done].
      - apply (Hu 0%nat); [by rewrite Nat.add_0_r|done].
      - by eapply macro_init_nonempty. }
    pose proof (compute_output_shape_channels dmb _ _ _ macro_in Hs) as Hsc.
    destruct (idx <? num_blocks - 1)%nat eqn:Elt.
    + destruct (sls !! idx) as [sl|]; [|discriminate].
      cbn [mbind result_bind rbind] in Hms.
      destruct (DenseTransition.__init__ s.1.2 (compression config) sl
                  (groups config) (transition_subsample_mode config))
        as [dt|] eqn:Hdt; [|discriminate].
      cbn [mbind result_bind rbind] in Hms.
      destruct (compute_output_shape dt None None) as [s'|] eqn:Hs';
        [|discriminate].
      cbn [mbind result_bind rbind] in Hms.
      bind_inv Hms. injection Hms as <-.
      simpl. split; [done|]. rewrite <- Hsc. split.
      * by eapply transition_init_accepts.
      * rewrite <- (compute_output_shape_channels dt _ _ _ s.1.2 Hs').
        eapply IH; [done|simpl in Hlen; lia|].
        intros j gr' n' Hj Hn'. apply (Hu (S j)); [|done].
        by replace (idx + S j)%nat with (S idx + j)%nat by lia.
    + bind_inv Hms. injection Hms as <-.
      apply Nat.ltb_ge in Elt. simpl in Hlen.
      assert (rest = []) as -> by (destruct rest; [done|simpl in Hlen; lia]).
      simpl in E. injection E as <-. simpl. done.
Qed.

Lemma densenet_init_accepts (cin : nat) (config : Config) (m : module) :
  DenseNet.__init__ cin config = Ok m ->
  runnable (block config) ->
  (forall j gr n,
      as_list2 (growth_rates config) (length (num_layers config)) !! j
        = Some gr ->
      num_layers config !! j = Some n -> uniform gr n) ->
  accepts m cin.
Proof.
  unfold DenseNet.__init__. intros Hm Hrun Hu. bind_inv Hm.
  injection Hm as <-.
  apply Conv_Bn_Activation_init_Ok in E as (-> & _).
  apply accepts_Sequential. split; [done|].
  simpl. split; [done|]. split; [done|].
  eapply make_macro_blocks_accepts; [done|exact E3|done|done].
Qed.

End densenet.

(** C4, as the claim is stated, fails: for a [DenseBottleNeck] built with
    [memory_efficient=True], [compute_output_shape] returns a shape but
    [forward] returns no tensor, it raises [NotImplementedError]. *)
Lemma C4_memory_efficient_counterexample :
  let layers := Fixtures.shape_layers in
  exists b,
    DenseBottleNeck.__init__ 4 2 4 3 1 (DropoutRate 0)
      Fixtures.memory_efficient_config = Ok b /\
    channels Fixtures.x148 = DenseBottleNeck.in_channels b /\
    compute_output_shape (BottleNeck b) (Some 8%nat) (Some 1%nat)
      = Ok (Some 1%nat, 6%nat, Some 8%nat) /\
    forward (BottleNeck b) Fixtures.x148 = Raise NotImplementedError /\
    ~ shape_agrees (BottleNeck b) Fixtures.x148.
Proof.
  eexists. split; [reflexivity|]. repeat split.
  intros (y & Hy & _). discriminate Hy.
Qed.

(** C4, amended: for a [DenseBasicBlock], a [DenseBottleNeck] with
    [memory_efficient] off, a [DenseTransition], and a [DenseMacroBlock]
    (with at least one layer) or a whole [DenseNet] whose blocks can run
    and whose macro blocks each use one growth rate for all their layers,
    and for every input with the configured number of input channels:
    [forward] returns a tensor and [compute_output_shape(seq_len,
    batch_size)] is its shape. *)
Theorem C4_compute_output_shape_matches_forward {A : Type} `{Layers A}
    `{!LayersLaws A} (x : Tensor A) :
  (forall cin g k groups dr cfg b,
      DenseBasicBlock.__init__ cin g k groups dr cfg = Ok b ->
      channels x = cin -> shape_agrees (BasicBlock b) x) /\
  (forall cin g bn k groups dr cfg b,
      DenseBottleNeck.__init__ cin g bn k groups dr cfg = Ok b ->
      memory_efficient cfg = false ->
      channels x = cin -> shape_agrees (BottleNeck b) x) /\
  (forall cin n grs bn fls groups dr cfg m,
      DenseMacroBlock.__init__ cin n grs bn fls groups dr cfg = Ok m ->
      n <> 0%nat -> uniform grs n -> runnable cfg ->
      channels x = cin -> shape_agrees m x) /\
  (forall cin compression sl groups mode m,
      DenseTransition.__init__ cin compression sl groups mode = Ok m ->
      channels x = cin -> shape_agrees m x) /\
  (forall cin config m,
      DenseNet.__init__ cin config = Ok m ->
      runnable (block config) ->
      (forall j gr n,
          as_list2 (growth_rates config) (length (num_layers config)) !! j
            = Some gr ->
          num_layers config !! j = Some n -> uniform gr n) ->
      channels x = cin -> shape_agrees m x).
Proof.
  assert (forall m, accepts m (channels x) -> shape_agrees m x) as Hgen.
  { intros m Hacc. destruct (accepts_agrees m x Hacc) as (y & Hf & Hs & _).
    by exists y. }
  repeat split.
  - intros cin g k groups dr cfg b Hb Hx. apply Hgen. rewrite Hx.
    by eapply basic_init_accepts.
  - intros cin g bn k groups dr cfg b Hb Hme Hx. apply Hgen. rewrite Hx.
    by eapply bottleneck_init_accepts.
  - intros cin n grs bn fls groups dr cfg m Hm Hn Hu Hrun Hx. apply Hgen.
    rewrite Hx. by eapply macro_init_accepts.
  - intros cin compression sl groups mode m Hm Hx. apply Hgen. rewrite Hx.
    by eapply transition_init_accepts.
  - intros cin config m Hm Hrun Hu Hx. apply Hgen. rewrite Hx.
    by eapply densenet_init_accepts.
Qed.

Lemma C4_compute_output_shape_matches_forward_witness :
  let layers := Fixtures.shape_layers in
  exists m,
    DenseNet.__init__ 1 Fixtures.densenet_config = Ok m /\
    shape_agrees m (Fixtures.zeros 1 1 16).
Proof.
  eexists. split; [reflexivity|].
  apply (proj2 (proj2 (proj2 (proj2
           (@C4_compute_output_shape_matches_forward Z Fixtures.shape_layers
              shape_layers_laws (Fixtures.zeros 1 1 16)))))
           1%nat Fixtures.densenet_config).
  - reflexivity.
  - left. reflexivity.
  - intros [|[|j]] gr n Hgr Hn; simpl in Hgr; try discriminate;
      injection Hgr as <-; by exists 2%nat.
  - reflexivity.
Defined.
End DenseNet_facts.

Module PhysioNetDataBase_facts.
Import PyStr Numpy PhysioNetDataBase.



(** *** Arrays *)

Section arrays.
Context {A : Type}.
Implicit Types a b c : ndarray2 A.

Lemma array_eq_refl a : array_eq a a.
Proof. by repeat split. Qed.





Lemma array_eq_select_cols (cols : list nat) a b :
  Forall (fun k => (k < ncols a)%nat) cols ->
  array_eq a b -> array_eq (select_cols cols a) (select_cols cols b).
Proof.
  intros Hcols (Hr & Hc & Hi). repeat split; try done. simpl.
  intros i j ? Hj. apply Hi; [done|].
  rewrite Forall_forall in Hcols. apply Hcols.
  apply list_elem_of_In, nth_In. done.
Qed.


End arrays.

(** *** Finding leads *)




(** *** [load_data] *)

Section load_data.
Context {A : Type} `{SignalOps A} `{!SignalLaws A}.





End load_data.


End PhysioNetDataBase_facts.

(** ** Further properties of [CFG.update] *)

Module CFG_update_facts.
Import CFG CFG_spec CFG_facts.

Lemma keys_set {V : Type} (k : string) (v : V) (d : list (string * V)) :
  PyDict.keys (PyDict.set k v d)
  = if PyDict.contains k d then PyDict.keys d else PyDict.keys d ++ [k].
Proof.
  unfold PyDict.keys, PyDict.contains.
  induction d as [|[k' v'] d IH]; simpl; [done|].
  destruct (String.eqb k k') eqn:E; [done|]. simpl.
  change (list_fmap _ _ fst (PyDict.set k v d)) with ((PyDict.set k v d).*1).
  rewrite IH. by destruct (PyDict.get k d).
Qed.

Lemma contains_keys {V : Type} (k : string) (d : list (string * V)) :
  PyDict.contains k d = true <-> k ∈ PyDict.keys d.
Proof.
  rewrite <- LTAFDB_facts.get_is_Some_keys. unfold PyDict.contains.
  destruct (PyDict.get k d) eqn:G; split; intros Hx; try done; by destruct Hx.
Qed.

(** What one [self[k] = v] does to the keys. *)
Lemma keys_set_spec {V : Type} (k : string) (v : V) (d : list (string * V)) :
  PyDict.keys d `prefix_of` PyDict.keys (PyDict.set k v d) /\
  (forall j, j ∈ PyDict.keys (PyDict.set k v d) <-> j ∈ PyDict.keys d \/ j = k) /\
  (NoDup (PyDict.keys d) -> NoDup (PyDict.keys (PyDict.set k v d))).
Proof.
  rewrite keys_set. destruct (PyDict.contains k d) eqn:E.
  - apply contains_keys in E. split; [done|]. split; [|done].
    intros j. split; [by left|]. by intros [?| ->].
  - assert (k ∉ PyDict.keys d) as Hk.
    { intros Hin%contains_keys. congruence. }
    split; [by apply prefix_app_r|]. split.
    + intros j. rewrite elem_of_app, list_elem_of_singleton. done.
    + intros Hnd. apply NoDup_app. split; [done|]. split.
      * intros j Hj ->%list_elem_of_singleton. done.
      * apply NoDup_singleton.
Qed.


(** X1: a successful [update] never removes or reorders a key: the keys
    of [self] come first, in their old order, followed by new keys; the
    keys of the result are those of [self] and those of [new_cfg], and
    no key is duplicated.  This holds with either behaviour of
    [easydict] and for a [new_cfg] of any class. *)
Theorem X1_update_keeps_keys (ver : easydict) (c : cls)
    (self new_cfg r : items) :
  update ver self (VMap c new_cfg) = Ok r ->
  PyDict.keys self `prefix_of` PyDict.keys r /\
  (forall k, k ∈ PyDict.keys r <->
             k ∈ PyDict.keys self \/ k ∈ PyDict.keys new_cfg) /\
  (NoDup (PyDict.keys self) -> NoDup (PyDict.keys r)).
Proof.
  unfold update. destruct (shadowed self); [discriminate|].
  revert self r. induction new_cfg as [|[k v] m IH]; intros self r Hu.
  - rewrite cfg_update_nil in Hu. injection Hu as <-.
    split; [done|]. split; [|done].
    intros k. split; [by left|]. intros [?|H]; [done|].
    by apply elem_of_nil in H.
  - rewrite cfg_update_cons in Hu.
    assert (exists v', cfg_update ver (VMap c m) (PyDict.set k v' self) = Ok r)
      as [v' Hu'].
    { destruct v as [z|s|c' mv]; [by eauto|by eauto|].
      destruct (PyDict.get k self) as [old|]; [|by eauto].
      destruct (method_update ver old (VMap c' mv)) as [old'|e];
        [|discriminate].
      by eauto. }
    destruct (IH _ _ Hu') as (Hpre & Hin & Hnd).
    destruct (keys_set_spec k v' self) as (Hpre' & Hin' & Hnd').
    split; [by etrans|]. split; [|by auto].
    intros j. rewrite Hin, Hin'. unfold PyDict.keys. simpl.
    rewrite elem_of_cons. tauto.
Qed.

Lemma X1_update_keeps_keys_witness :
  PyDict.keys [("a", VInt 1); ("b", VMap Cfg [("x", VInt 0)])]
    `prefix_of`
    PyDict.keys [("a", VInt 1); ("b", VMap Cfg [("x", VInt 5)]);
                 ("c", VInt 3)].
Proof.
  apply (X1_update_keeps_keys from_1_11 Dict
           [("a", VInt 1); ("b", VMap Cfg [("x", VInt 0)])]
           [("c", VInt 3); ("b", VMap Dict [("x", VInt 5)])]
           [("a", VInt 1); ("b", VMap Cfg [("x", VInt 5)]); ("c", VInt 3)]).
  reflexivity.
Defined.


















(** *** Storing a sequence of items one by one *)

Section store_items.
Context (f : value -> value).

#[local] Abbreviation put :=
  (fun (s : items) (kv : string * value) => PyDict.set kv.1 (f kv.2) s).






End store_items.









End CFG_update_facts.

(** ** Further properties of the extraction guard *)

Module Download_guard_facts.
Import Download Download_facts.

(** The common prefix is the first string exactly when that string is a
    prefix of the second. *)
Lemma commonprefix_prefix (a b : string) :
  String.eqb (commonprefix a b) a = String.prefix a b.
Proof.
  revert b. induction a as [|x a IH]; intros [|y b]; simpl; try done.
  destruct (Ascii.eqb x y) eqn:E.
  - apply Ascii.eqb_eq in E. subst y. simpl.
    rewrite Ascii.eqb_refl. destruct (ascii_dec x x); [apply IH|done].
  - destruct (ascii_dec x y) as [->|]; [by rewrite Ascii.eqb_refl in E|done].
Qed.

Lemma check_members_Ok (cwd dst : string) (ms : list TarInfo) :
  check_members cwd dst ms = Ok tt <->
  forall m, m ∈ ms -> _is_within_directory cwd dst (join dst (name m)) = true.
Proof.
  induction ms as [|m' ms IH]; simpl.
  - split; [|done]. intros _ m Hm. by apply elem_of_nil in Hm.
  - destruct (_is_within_directory cwd dst (join dst (name m'))) eqn:E; simpl.
    + rewrite IH. split.
      * intros H m [->|Hm]%elem_of_cons; [done|by apply H].
      * intros H m Hm. apply H. by right.
    + split; [done|]. intros H. specialize (H m'). rewrite E in H.
      discriminate H. by left.
Qed.

Lemma check_members_outcome (cwd dst : string) (ms : list TarInfo) :
  check_members cwd dst ms = Ok tt \/
  check_members cwd dst ms = Raise Exception.
Proof.
  induction ms as [|m ms IH]; simpl; [by left|].
  by destruct (_is_within_directory cwd dst (join dst (name m))); simpl;
    [|right].
Qed.

(** X5: whatever the archive and the selection, the test loop of
    [_safe_tar_extract] lets the call through to [tar.extractall] exactly
    when, for every checked member, the absolute path of the destination
    joined with the member's name begins, character by character, with
    the absolute path of the destination directory; otherwise it raises
    [Exception], which happens exactly when the path of some checked
    member does not begin so.  Only the names of the members are looked
    at. *)
Theorem X5_guard_passes_only_prefixed (cwd : string) (tar : list TarInfo)
    (dst : string) (members : option (list TarInfo)) :
  (check_members cwd dst (members_or_all tar members) = Ok tt <->
   forall m, m ∈ members_or_all tar members ->
             String.prefix (abspath cwd dst)
               (abspath cwd (join dst (name m))) = true) /\
  (check_members cwd dst (members_or_all tar members) = Raise Exception <->
   exists m, m ∈ members_or_all tar members /\
             String.prefix (abspath cwd dst)
               (abspath cwd (join dst (name m))) = false).
Proof.
  assert (forall m, _is_within_directory cwd dst (join dst (name m))
                    = String.prefix (abspath cwd dst)
                        (abspath cwd (join dst (name m)))) as Hwithin.
  { intros m. unfold _is_within_directory. apply commonprefix_prefix. }
  induction (members_or_all tar members) as [|m ms [IHok IHraise]].
  - split; split; try done.
    + intros _ m Hm. by apply elem_of_nil in Hm.
    + intros (m & Hm & _). by apply elem_of_nil in Hm.
  - cbn [check_members]. rewrite Hwithin.
    destruct (String.prefix (abspath cwd dst)
                (abspath cwd (join dst (name m)))) eqn:E; cbn [negb].
    + split.
      * rewrite IHok. split.
        -- intros H m' [->|Hm']%elem_of_cons; [done|by apply H].
        -- intros H m' Hm'. apply H. by right.
      * rewrite IHraise. split.
        -- intros (m' & Hm' & Hbad). exists m'. split; [by right|done].
        -- intros (m' & [->|Hm']%elem_of_cons & Hbad); [congruence|].
           by exists m'.
    + split.
      * split; [done|]. intros H. specialize (H m (list_elem_of_here _ _)).
        congruence.
      * split; [|done]. intros _. exists m. split; [by left|done].
Qed.

(** X6: an explicit empty selection, [members=[]], is falsy, so the test
    runs over every member of the archive; the call raises exactly when
    one of them fails it, and in no case is anything extracted. *)
Theorem X6_empty_selection_checks_all (cwd : string) (tar : list TarInfo)
    (dst : string) (fs : filesystem) :
  (_safe_tar_extract cwd tar dst (Some []) fs).2 = fs /\
  ((_safe_tar_extract cwd tar dst (Some []) fs).1 = Raise Exception <->
   exists m, m ∈ tar /\
             _is_within_directory cwd dst (join dst (name m)) = false) /\
  ((_safe_tar_extract cwd tar dst (Some []) fs).1 = Ok tt <->
   forall m, m ∈ tar ->
             _is_within_directory cwd dst (join dst (name m)) = true).
Proof.
  unfold _safe_tar_extract. simpl.
  pose proof (check_members_Ok cwd dst tar) as HOk.
  destruct (check_members_outcome cwd dst tar) as [E|E]; rewrite E in *;
    simpl.
  - split; [done|]. split; [|by rewrite <- HOk].
    split; [done|]. intros (m & Hm & Hbad).
    rewrite (proj1 HOk eq_refl m Hm) in Hbad. done.
  - split; [done|]. split.
    + split; [|done]. intros _.
      destruct (decide (Forall (fun m => _is_within_directory cwd dst
                                           (join dst (name m)) = true) tar))
        as [Hall|Hex].
      * rewrite Forall_forall in Hall. apply HOk in Hall. congruence.
      * apply not_Forall_Exists in Hex; [|solve_decision].
        apply Exists_exists in Hex as (m & Hm & Hbad).
        exists m. split; [done|]. by apply not_true_is_false.
    + split; [done|]. intros Hall. apply HOk in Hall. congruence.
Qed.
End Download_guard_facts.

Module Download_path_facts.
Import Download Download_spec Download_facts.

Lemma append_cons (a : ascii) (s t : string) :
  String a s +:+ t = String a (s +:+ t).
Proof. reflexivity. Qed.

Lemma append_assoc (s t u : string) : (s +:+ t) +:+ u = s +:+ t +:+ u.
Proof.
  induction s as [|a s IH]; [done|]. by rewrite !append_cons, IH.
Qed.

Lemma append_nil_r (s : string) : s +:+ EmptyString = s.
Proof. induction s as [|a s IH]; [done|]. by rewrite append_cons, IH. Qed.

Lemma prefix_app (s x : string) : String.prefix s (s +:+ x) = true.
Proof.
  induction s as [|a s IH]; simpl; [by destruct x|].
  destruct (ascii_dec a a); [apply IH|done].
Qed.

Lemma prefix_cons (a : ascii) (s t : string) :
  String.prefix (String a s) (String a t) = String.prefix s t.
Proof. simpl. by destruct (ascii_dec a a). Qed.

Lemma split_sep_nonempty (s : string) : split_sep s <> [].
Proof.
  induction s as [|a s IH]; simpl; [done|].
  destruct (Ascii.eqb a "/"); [done|]. by destruct (split_sep s).
Qed.

Lemma split_sep_no_sep (s : string) :
  Forall (fun c => has_sep c = false) (split_sep s).
Proof.
  induction s as [|a s IH]; simpl; [by repeat constructor|].
  destruct (Ascii.eqb a "/") eqn:E; [by constructor|].
  destruct (split_sep s) as [|h t] eqn:Es; [by apply split_sep_nonempty in Es|].
  apply Forall_cons in IH as [Hh Ht]. constructor; [|done].
  change (has_sep (String a h)) with (Ascii.eqb "/" a || has_sep h).
  rewrite Hh, Ascii.eqb_sym, E. done.
Qed.

(** Splitting a string without separator gives the string itself. *)
Lemma split_sep_plain (c : string) : has_sep c = false -> split_sep c = [c].
Proof.
  induction c as [|a c IH]; [done|].
  change (has_sep (String a c)) with (Ascii.eqb "/" a || has_sep c).
  intros H. apply orb_false_iff in H as [Ha Hc].
  rewrite Ascii.eqb_sym in Ha. cbn [split_sep]. rewrite Ha, (IH Hc). done.
Qed.

Lemma split_sep_app (c rest : string) :
  has_sep c = false ->
  split_sep (c +:+ "/" +:+ rest) = c :: split_sep rest.
Proof.
  induction c as [|a c IH]; [done|].
  change (has_sep (String a c)) with (Ascii.eqb "/" a || has_sep c).
  intros H. apply orb_false_iff in H as [Ha Hc].
  rewrite Ascii.eqb_sym in Ha.
  change (split_sep (String a c +:+ "/" +:+ rest))
    with (let r := split_sep (c +:+ "/" +:+ rest) in
          if Ascii.eqb a "/" then EmptyString :: r
          else match r with
               | h :: t => String a h :: t
               | [] => [String a EmptyString]
               end).
  cbv zeta. rewrite Ha. by rewrite (IH Hc).
Qed.

Lemma split_join_sep (comps : list string) :
  comps <> [] -> Forall (fun c => has_sep c = false) comps ->
  split_sep (join_sep comps) = comps.
Proof.
  induction comps as [|c comps IH]; [done|]. intros _ Hall.
  apply Forall_cons in Hall as [Hc Hall].
  destruct comps as [|c' comps]; simpl.
  - by apply split_sep_plain.
  - rewrite split_sep_app by done. f_equal. by apply IH.
Qed.

Lemma join_sep_app (l1 l2 : list string) :
  l1 <> [] -> l2 <> [] ->
  join_sep (l1 ++ l2) = join_sep l1 +:+ "/" +:+ join_sep l2.
Proof.
  induction l1 as [|c l1 IH]; [done|]. intros _ Hl2.
  destruct l1 as [|c' l1].
  - simpl. by destruct l2.
  - change (join_sep ((c :: c' :: l1) ++ l2))
      with (c +:+ "/" +:+ join_sep ((c' :: l1) ++ l2)).
    rewrite IH by done.
    change (join_sep (c :: c' :: l1)) with (c +:+ "/" +:+ join_sep (c' :: l1)).
    by rewrite !append_assoc.
Qed.

Lemma normpath_loop_plain (n : nat) (comps acc : list string) :
  Forall (fun c => has_sep c = false) comps -> Forall plain acc ->
  Forall plain (normpath_loop n comps acc).
Proof.
  revert acc. induction comps as [|c comps IH]; intros acc Hc Hacc; simpl.
  - by apply Forall_rev.
  - apply Forall_cons in Hc as [Hc Hcomps].
    destruct (String.eqb c EmptyString) eqn:E; simpl; [by apply IH|].
    destruct (String.eqb c "."); simpl; [by apply IH|].
    assert (plain c) as Hp.
    { split; [|done]. intros ->. by rewrite String.eqb_refl in E. }
    match goal with |- Forall _ (if ?b then _ else _) => destruct b end.
    + apply IH; [done|by constructor].
    + destruct acc as [|a acc]; [by apply IH|].
      apply IH; [done|]. by apply Forall_cons in Hacc as [_ ?].
Qed.

(** An absolute path without exactly two leading slashes is normalised to
    one slash followed by its components. *)
Lemma normpath_abs (q : string) :
  isabs q = true -> two_slashes q = false ->
  exists comps, Forall plain comps /\
                normpath q = "/" +:+ join_sep comps.
Proof.
  intros Habs Htwo. exists (normpath_loop 1 (split_sep q) []).
  split; [apply normpath_loop_plain; [apply split_sep_no_sep|done]|].
  unfold normpath, isabs, two_slashes in *.
  destruct q as [|a q]; [done|]. rewrite Habs, Htwo. done.
Qed.

Lemma filter_all {X : Type} (P : X -> Prop) `{!forall x, Decision (P x)}
    (l : list X) :
  Forall P l -> filter P l = l.
Proof.
  induction 1 as [|x l Hx Hl IH]; [done|].
  by rewrite filter_cons_True, IH.
Qed.

Lemma components_canonical (comps : list string) :
  Forall plain comps ->
  filter (fun c => c <> EmptyString) (split_sep ("/" +:+ join_sep comps))
  = comps.
Proof.
  intros Hall.
  change (split_sep ("/" +:+ join_sep comps))
    with (EmptyString :: split_sep (join_sep comps)).
  rewrite filter_cons_False by (intros H; by apply H).
  destruct comps as [|c comps]; [done|].
  rewrite split_join_sep; [|done|].
  - apply filter_all. by eapply Forall_impl; [done|intros ? []].
  - by eapply Forall_impl; [done|intros ? []].
Qed.

Lemma prefix_canonical (cd ct : list string) :
  cd `prefix_of` ct ->
  String.prefix ("/" +:+ join_sep cd) ("/" +:+ join_sep ct) = true.
Proof.
  intros [rest ->].
  change ("/" +:+ join_sep cd) with (String "/" (join_sep cd)).
  change ("/" +:+ join_sep (cd ++ rest))
    with (String "/" (join_sep (cd ++ rest))).
  rewrite prefix_cons.
  destruct cd as [|c cd]; [by destruct (join_sep ([] ++ rest))|].
  destruct rest as [|r rest]; [rewrite app_nil_r|].
  - rewrite <- (append_nil_r (join_sep (c :: cd))) at 2.
    apply prefix_app.
  - rewrite join_sep_app by done. apply prefix_app.
Qed.

Lemma prefix_nil (s : string) : String.prefix EmptyString s = true.
Proof. by destruct s. Qed.

Lemma prefix_cons_ne (a b : ascii) (s t : string) :
  a <> b -> String.prefix (String a s) (String b t) = false.
Proof. intros Hne. cbn [String.prefix]. by destruct (ascii_dec a b). Qed.

Lemma join_abs (cwd x : string) :
  isabs cwd = true -> two_slashes cwd = false ->
  (cwd = "/" -> String.prefix "/" x = false) ->
  isabs (cwd +:+ x) = true /\ two_slashes (cwd +:+ x) = false.
Proof.
  unfold isabs, two_slashes.
  destruct cwd as [|a1 r1]; [done|]. rewrite !append_cons.
  destruct (decide ("/"%char = a1)) as [<-|Hne];
    [|by rewrite prefix_cons_ne].
  rewrite !prefix_cons. intros _ Htwo Hx. split; [apply prefix_nil|].
  destruct r1 as [|a2 r2].
  - change (EmptyString +:+ x) with x. by rewrite (Hx eq_refl).
  - rewrite !append_cons in *.
    destruct (decide ("/"%char = a2)) as [<-|Hne];
      [|by rewrite prefix_cons_ne].
    rewrite !prefix_cons in *.
    destruct r2 as [|a3 r3]; [by rewrite prefix_nil in Htwo|].
    rewrite append_cons.
    destruct (decide ("/"%char = a3)) as [<-|Hne].
    + by rewrite !prefix_cons, !prefix_nil.
    + by rewrite (prefix_cons_ne _ _ _ _ Hne), prefix_nil in Htwo.
Qed.

(** The absolute path of [p] is one slash followed by its components. *)
Lemma abspath_canonical (cwd p : string) :
  isabs cwd = true -> two_slashes cwd = false -> two_slashes p = false ->
  Forall plain (components cwd p) /\
  abspath cwd p = "/" +:+ join_sep (components cwd p).
Proof.
  intros Hcwd Hcwd2 Hp2.
  assert (exists comps, Forall plain comps /\
                        abspath cwd p = "/" +:+ join_sep comps)
    as (comps & Hplain & Habs).
  { unfold abspath. destruct (isabs p) eqn:Hp; [by apply normpath_abs|].
    unfold join. unfold isabs in Hp. rewrite Hp.
    destruct (String.eqb cwd EmptyString || endswith_sep cwd) eqn:E.
    - destruct (join_abs cwd p Hcwd Hcwd2) as [? ?]; [by intros _|].
      by apply normpath_abs.
    - destruct (join_abs cwd ("/" +:+ p) Hcwd Hcwd2) as [? ?];
        [by intros ->|].
      by apply normpath_abs. }
  unfold components. rewrite Habs, components_canonical by done. done.
Qed.

(** A target whose components extend those of the directory passes the
    test. *)
Lemma inside_accepted (cwd directory target : string) :
  isabs cwd = true -> two_slashes cwd = false ->
  two_slashes directory = false -> two_slashes target = false ->
  lies_within cwd directory target = true ->
  _is_within_directory cwd directory target = true.
Proof.
  intros Hcwd Hcwd2 Hd Ht Hin.
  destruct (abspath_canonical cwd directory) as [_ Hdir]; try done.
  destruct (abspath_canonical cwd target) as [_ Htgt]; try done.
  unfold _is_within_directory.
  rewrite Download_guard_facts.commonprefix_prefix, Hdir, Htgt.
  apply prefix_canonical. by apply bool_decide_eq_true in Hin.
Qed.

(** X7: the guard raises no false alarm.  With a working directory and a
    destination that do not begin with exactly two slashes, an archive
    every checked member of which lies inside the destination directory,
    component by component, is not rejected: the test loop of
    [_safe_tar_extract] raises nothing and the call goes on to
    [tar.extractall]. *)
Theorem X7_members_inside_pass_the_guard (cwd : string) (tar : list TarInfo)
    (dst : string) (members : option (list TarInfo)) :
  isabs cwd = true -> two_slashes cwd = false -> two_slashes dst = false ->
  (forall m, m ∈ members_or_all tar members ->
             two_slashes (join dst (name m)) = false /\
             lies_within cwd dst (join dst (name m)) = true) ->
  check_members cwd dst (members_or_all tar members) = Ok tt.
Proof.
  intros Hcwd Hcwd2 Hdst Hall.
  induction (members_or_all tar members) as [|m ms IH]; [done|].
  simpl. destruct (Hall m) as [Hm2 Hm]; [by left|].
  rewrite inside_accepted by done. simpl.
  apply IH. intros m' Hm'. apply Hall. by right.
Qed.

Lemma X7_members_inside_pass_the_guard_witness :
  check_members "/home/u" "data"
    (members_or_all [mkTarInfo "a/b" "x"; mkTarInfo "./c/../d" "y"] None)
  = Ok tt.
Proof.
  apply X7_members_inside_pass_the_guard; try reflexivity.
  intros m Hm. simpl in Hm.
  apply elem_of_cons in Hm as [->|Hm]; [by split|].
  apply list_elem_of_singleton in Hm as ->. by split.
Defined.
End Download_path_facts.

(** ** Further properties of the LTAFDB reader *)

Module LTAFDB_reader_facts.
Import PyStr Wfdb LTAFDB LTAFDB_facts Intervals.

#[local] Arguments str_in : simpl never.

(** The dictionary that [load_beat_ann] builds from the annotations that
    [rdann] hands over. *)
Lemma load_beat_ann_dict (db : db_dir) (rec : string)
    (sampfrom sampto : option Z) (keep_original : bool) (sig_len : Z)
    (a' : Annotation) :
  db !! (rec +:+ ".hea") = Some (FHeader sig_len) ->
  rdann db rec manual_ann_ext (int_or sampfrom 0) sampto = Ok a' ->
  int_or sampfrom 0 < int_or sampto sig_len ->
  let sf := int_or sampfrom 0 in
  let off := if negb keep_original && bool_decide (sampfrom <> None)
             then sf else 0 in
  load_beat_ann db rec sampfrom sampto "dict" keep_original
  = Ok (BeatDict
          ((fun s => (s, (fun e => entry_sample e - off)
                           <$> filter (fun e => entry_symbol e = s) a'))
             <$> beat_types)).
Proof.
  intros Hh Hr Hw sf off. unfold load_beat_ann.
  cbn [mbind result_bind rbind assert].
  change (str_in (lower "dict") ["beat"; "dict"]) with true.
  cbn [mbind result_bind rbind assert].
  unfold rdheader. rewrite Hh. fold sf. cbn [mbind result_bind rbind].
  assert ((sf <? int_or sampto sig_len) = true) as ->
    by (by apply Z.ltb_lt).
  cbn [mbind result_bind rbind assert].
  fold sf in Hr. rewrite Hr. cbn [mbind result_bind rbind].
  change (PyDict.of_list ((fun k : string => (k, [])) <$> beat_types))
    with ((fun k : string => (k, @nil Z)) <$> beat_types).
  rewrite beat_fold.
  2:{ apply (bool_decide_unpack _). vm_compute. exact I. }
  2:{ apply (bool_decide_unpack _). vm_compute. exact I. }
  change (String.eqb (lower "dict") "beat") with false. cbv iota.
  do 2 f_equal.
  transitivity (PyDict.of_list
    ((fun kv : string * list Z => (kv.1, (fun i => i - off) <$> kv.2))
       <$> ((fun kv : string * list Z =>
               (kv.1, kv.2 ++ (fst <$> filter (fun it => it.2 = kv.1)
                                 (zip (sample a') (symbol a')))))
              <$> ((fun k : string => (k, @nil Z)) <$> beat_types)))).
  { subst off.
    destruct (negb keep_original && bool_decide (sampfrom <> None)); [done|].
    f_equal. apply Forall_fmap_ext, Forall_forall. intros [k l] _. simpl.
    f_equal. rewrite <- (list_fmap_id l) at 1.
    apply Forall_fmap_ext, Forall_forall. intros i _. simpl. lia. }
  rewrite <- !list_fmap_compose. rewrite of_list_nodup.
  2:{ unfold PyDict.keys. rewrite <- list_fmap_compose.
      apply (bool_decide_unpack _). vm_compute. exact I. }
  apply Forall_fmap_ext, Forall_forall. intros s _. simpl.
  by rewrite beats_of_entries, <- list_fmap_compose.
Qed.

(** Sorting the elements by key, for distinct keys, permutes those whose
    key is listed. *)
Lemma filter_by_key_perm {X Y K : Type} `{EqDecision K} (key : X -> K)
    (f : X -> Y) (ks : list K) (l : list X) :
  NoDup ks ->
  mjoin ((fun k => f <$> filter (fun x => key x = k) l) <$> ks)
  ≡ₚ f <$> filter (fun x => key x ∈ ks) l.
Proof.
  induction 1 as [|k ks Hk Hnd IH]; simpl.
  - induction l as [|x l IHl]; [done|].
    rewrite filter_cons_False; [done|]. by intros ?%elem_of_nil.
  - rewrite IH. clear IH. induction l as [|x l IHl]; [done|].
    rewrite !filter_cons.
    destruct (decide (key x = k)) as [Hx|Hx].
    + rewrite decide_False by (by rewrite Hx).
      rewrite decide_True by (rewrite Hx; left). simpl. by rewrite IHl.
    + destruct (decide (key x ∈ ks)) as [Hin|Hin].
      * rewrite decide_True by (by right). simpl.
        by rewrite <- Permutation_middle, IHl.
      * rewrite decide_False; [done|].
        by intros [?|?]%elem_of_cons.
Qed.

(** X8: on a record with its header and annotation file and a window
    that starts at a sample [0 <= sf] and ends after it ([sampto], when
    given, not being 0), [load_rpeak_indices] and [load_beat_ann] get the
    same annotations of the file from [rdann]; [load_rpeak_indices]
    returns, in the order of the file, the samples of those that carry one
    of the four beat symbols (shifted by [sampfrom] unless
    [keep_original]), and these are, up to order, the indices that
    [load_beat_ann] files under its four keys. *)
Theorem X8_rpeaks_are_the_beats (db : db_dir) (rec : string)
    (sampfrom sampto : option Z) (keep_original : bool) (sig_len : Z)
    (a : Annotation) :
  db !! (rec +:+ ".hea") = Some (FHeader sig_len) ->
  db !! (rec +:+ ".atr") = Some (FAnnotation a) ->
  0 <= int_or sampfrom 0 < int_or sampto sig_len ->
  sampto <> Some 0 ->
  let sf := int_or sampfrom 0 in
  let off := if negb keep_original && bool_decide (sampfrom <> None)
             then sf else 0 in
  exists a' rpeaks d,
    rdann db rec manual_ann_ext sf sampto = Ok a' /\
    a' `sublist_of` a /\
    load_rpeak_indices db rec sampfrom sampto true keep_original = Ok rpeaks /\
    rpeaks = (fun e => entry_sample e - off)
               <$> filter (fun e => entry_symbol e ∈ beat_types) a' /\
    load_beat_ann db rec sampfrom sampto "dict" keep_original
      = Ok (BeatDict d) /\
    mjoin d.*2 ≡ₚ rpeaks.
Proof.
  intros Hh Ha Hw Hto sf off.
  destruct (rdann_valid db rec manual_ann_ext a sf sampto sig_len Ha Hw Hto)
    as (a' & Hrd & Hsub).
  assert (load_rpeak_indices db rec sampfrom sampto true keep_original
          = Ok ((fun e => entry_sample e - off)
                  <$> filter (fun e => entry_symbol e ∈ beat_types) a'))
    as Hr.
  { unfold load_rpeak_indices. fold sf. rewrite Hrd.
    cbn [mbind result_bind rbind].
    assert (fst <$> filter (fun it : Z * string => str_in it.2 beat_types)
                      (zip (sample a') (symbol a'))
            = entry_sample <$> filter (fun e => entry_symbol e ∈ beat_types) a')
      as ->.
    { clear. induction a' as [|e l IH]; [done|].
      unfold sample, symbol in *. cbn [fmap list_fmap zip zip_with].
      rewrite !filter_cons. cbn [fst snd].
      pose proof (str_in_elem (entry_symbol e) beat_types) as Hiff.
      destruct (decide (Is_true (str_in (entry_symbol e) beat_types)))
        as [Hs|Hs], (decide (entry_symbol e ∈ beat_types)) as [Hin|Hin].
      - cbn [fmap list_fmap]. f_equal. exact IH.
      - exfalso. apply Hin, Hiff. by apply Is_true_eq_true.
      - exfalso. apply Hs, Is_true_eq_left. by apply Hiff.
      - exact IH. }
    subst off sf. destruct keep_original, sampfrom as [s|]; simpl.
    - f_equal. apply Forall_fmap_ext, Forall_forall. intros e _. simpl. lia.
    - f_equal. apply Forall_fmap_ext, Forall_forall. intros e _. simpl. lia.
    - rewrite <- list_fmap_compose.
      f_equal. apply Forall_fmap_ext, Forall_forall. intros e _. simpl.
      destruct (Z.eqb s 0) eqn:Es; [apply Z.eqb_eq in Es|]; lia.
    - f_equal. apply Forall_fmap_ext, Forall_forall. intros e _. simpl. lia. }
  exists a'. eexists _, _. split; [exact Hrd|]. split; [exact Hsub|].
  split; [exact Hr|]. split; [done|].
  split.
  { apply (load_beat_ann_dict _ _ _ _ _ sig_len a'); [done|done|].
    subst sf. lia. }
  rewrite <- list_fmap_compose. fold sf. fold off.
  apply (filter_by_key_perm entry_symbol).
  apply (bool_decide_unpack _). vm_compute. exact I.
Qed.

Lemma X8_rpeaks_are_the_beats_witness :
  load_rpeak_indices Fixtures.db1 "r" (Some 3) (Some 10) true false
    = Ok [0; 4; 6] /\
  load_rpeak_indices Fixtures.db1 "r" (Some 5) None true false
    = Ok [-2; 2; 4].
Proof.
  split.
  - destruct (X8_rpeaks_are_the_beats Fixtures.db1 "r" (Some 3) (Some 10)
                false 12 Fixtures.atr1)
      as (a' & rpeaks & d & Hrd & _ & Hr & -> & _).
    + reflexivity.
    + reflexivity.
    + simpl. lia.
    + discriminate.
    + injection Hrd as <-. exact Hr.
  - destruct (X8_rpeaks_are_the_beats Fixtures.db1 "r" (Some 5) None
                false 12 Fixtures.atr1)
      as (a' & rpeaks & d & Hrd & _ & Hr & -> & _).
    + reflexivity.
    + reflexivity.
    + simpl. lia.
    + discriminate.
    + injection Hrd as <-. exact Hr.
Defined.

(** *** The rhythm loader *)

Import LTAFDB_contract.
#[local] Arguments rhythm_types_map : simpl never.

Lemma elem_of_set {V : Type} (k : string) (v : V) (d : list (string * V))
    (kv : string * V) :
  kv ∈ PyDict.set k v d -> kv = (k, v) \/ kv ∈ d.
Proof.
  induction d as [|[k' v'] d IH]; simpl.
  - intros ->%list_elem_of_singleton. by left.
  - destruct (String.eqb k k') eqn:E.
    + apply String.eqb_eq in E. subst k'.
      intros [->|Hin]%elem_of_cons; [by left|right; by right].
    + intros [->|Hin]%elem_of_cons; [right; left|].
      destruct (IH Hin) as [->|Hd]; [by left|right; by right].
Qed.

(** A comprehension holds only items it was given, under distinct keys. *)
Lemma of_list_spec {V : Type} (items : list (string * V)) :
  (forall kv, kv ∈ PyDict.of_list items -> kv ∈ items) /\
  NoDup (PyDict.keys (PyDict.of_list items)).
Proof.
  unfold PyDict.of_list.
  assert (forall acc : list (string * V),
            NoDup (PyDict.keys acc) ->
            (forall kv, kv ∈ foldl (fun d kv => PyDict.set kv.1 kv.2 d) acc items
                        -> kv ∈ acc \/ kv ∈ items) /\
            NoDup (PyDict.keys
                     (foldl (fun d kv => PyDict.set kv.1 kv.2 d) acc items)))
    as Hgen.
  { induction items as [|[k v] items IH]; intros acc Hnd; simpl.
    - split; [by left|done].
    - destruct (IH (PyDict.set k v acc)) as [Hin Hnd'].
      { by apply CFG_update_facts.keys_set_spec. }
      split; [|done]. intros kv Hkv.
      destruct (Hin kv Hkv) as [Hs|Hi]; [|right; by right].
      destruct (elem_of_set _ _ _ _ Hs) as [->|Ha]; [right; left|by left]. }
  destruct (Hgen [] (NoDup_nil_2)) as [Hin Hnd]. split; [|done].
  intros kv Hkv. destruct (Hin kv Hkv) as [H|H]; [|done].
  by apply elem_of_nil in H.
Qed.

(** Every class that the windowing keeps comes from a class of the
    record and is not empty. *)
Lemma window_intervals_from `{IntervalOps} (sf st : Z)
    (ann : list (string * list interval)) (k : string) (l' : list interval) :
  (k, l') ∈ window_intervals sf st ann ->
  l' <> [] /\
  exists l, (k, l) ∈ ann /\
            l' = generalized_intervals_intersection l [(sf, st)].
Proof.
  unfold window_intervals. rewrite list_elem_of_filter. simpl.
  intros [Hlen Hin]. apply bool_decide_unpack in Hlen. split.
  - intros ->. simpl in Hlen. lia.
  - apply of_list_spec in Hin.
    apply list_elem_of_fmap in Hin as ([k0 l] & Heq & Hin). simpl in Heq.
    injection Heq as -> ->. by exists l.
Qed.

Lemma window_intervals_NoDup `{IntervalOps} (sf st : Z)
    (ann : list (string * list interval)) :
  NoDup (PyDict.keys (window_intervals sf st ann)).
Proof.
  unfold window_intervals, PyDict.keys.
  eapply sublist_NoDup; [|apply fmap_sublist, sublist_filter].
  apply of_list_spec.
Qed.

Lemma slice_assign_Forall (P : Z -> Prop) (a b v : Z) (arr : list Z) :
  P v -> Forall P arr -> Forall P (slice_assign a b v arr).
Proof.
  intros Hv Harr. apply Forall_lookup. intros i x.
  unfold slice_assign. rewrite list_lookup_imap.
  destruct (arr !! i) as [y|] eqn:E; [|done]. simpl.
  intros [= <-]. destruct (_ && _); [done|].
  by eapply Forall_lookup_1.
Qed.

(** Painting classes whose names have codes succeeds, and the array then
    holds what it held or codes. *)
Lemma paint_rhythms_codes (P : Z -> Prop) (sf : Z)
    (W : list (string * list interval)) (arr : list Z) :
  Forall (fun kl : string * list interval =>
            is_Some (PyDict.get kl.1 rhythm_types_map)) W ->
  (forall k v, PyDict.get k rhythm_types_map = Some v -> P v) ->
  Forall P arr ->
  exists m, paint_rhythms sf W arr = Ok m /\ length m = length arr /\
            Forall P m.
Proof.
  intros HW HP. revert arr.
  induction HW as [|[k l] W [v Hv] HW IH]; intros arr Harr.
  - by exists arr.
  - cbn [fst] in Hv.
    assert (Forall P (paint_intervals sf v l arr)) as Hl.
    { clear -Harr HP Hv. revert arr Harr.
      induction l as [|itv l IHl]; intros arr Harr; [done|].
      simpl. apply IHl. apply slice_assign_Forall; [by eapply HP|done]. }
    destruct (IH _ Hl) as (m & Hm & Hlen & Hall).
    rewrite paint_intervals_length in Hlen.
    exists m. split; [|done].
    cbn [paint_rhythms]. rewrite Hv.
    destruct l; [|done]. exact Hm.
Qed.

(** What the first lines of [load_rhythm_ann] compute. *)
Lemma scan_Ok_nonempty (a : Annotation) (sig_len : Z)
    (ann : list (string * list interval)) :
  scan_rhythms a sig_len = Ok ann -> a <> [].
Proof. by intros Hs ->. Qed.

Lemma scanned_window_codes `{IntervalOps} (a : Annotation) (sig_len sf st : Z)
    (ann : list (string * list interval)) :
  scan_rhythms a sig_len = Ok ann ->
  Forall (fun kl : string * list interval =>
            is_Some (PyDict.get kl.1 rhythm_types_map))
         (window_intervals sf st ann).
Proof.
  intros Hscan. apply Forall_forall. intros [k l'] Hin.
  apply window_intervals_from in Hin as (_ & l & Hl & _).
  apply get_is_Some_keys.
  rewrite <- (scanned_keys a sig_len ann);
    [|by eapply scan_Ok_nonempty|done].
  unfold PyDict.keys. apply list_elem_of_fmap. by exists (k, l).
Qed.

Lemma codes_range (k : string) (v : Z) :
  PyDict.get k rhythm_types_map = Some v -> 0 <= v <= 9.
Proof.
  rewrite rhythm_types_map_value. simpl.
  repeat (case_match; [intros [= <-]; lia|]). done.
Qed.

(** X9: a call of [load_rhythm_ann] that raises leaves the database
    directory as it was: the stored intervals are written only by calls
    that return. *)
Theorem X9_failed_call_writes_nothing `{IntervalOps} (db : db_dir)
    (rec : string) (sampfrom sampto : option Z) (rhythm_format : string)
    (keep_original : bool) (e : exn) :
  (load_rhythm_ann db rec sampfrom sampto rhythm_format keep_original).1
    = Raise e ->
  (load_rhythm_ann db rec sampfrom sampto rhythm_format keep_original).2
    = db.
Proof.
  unfold load_rhythm_ann.
  destruct (assert (str_in (lower rhythm_format) ["interval"; "mask"]))
    as [[]|e1]; cbn [mbind result_bind rbind]; [|done].
  destruct (rdheader db rec) as [sig_len|e1];
    cbn [mbind result_bind rbind]; [|done].
  destruct (assert (int_or sampfrom 0 <? int_or sampto sig_len))
    as [[]|e1]; cbn [mbind result_bind rbind]; [|done].
  unfold load_full_rhythm_ann.
  destruct (db !! simplified_fp rec) as [[| |ann|]|] eqn:Hc; try done.
  - by repeat case_match.
  - destruct (rdann db rec manual_ann_ext 0 None) as [a|e1];
      cbn [mbind result_bind rbind]; [|done].
    destruct (scan_rhythms a sig_len) as [ann|e1] eqn:Hscan; [|done].
    destruct (String.eqb (lower rhythm_format) "mask");
      [|by destruct (negb keep_original)].
    destruct (paint_rhythms_codes (fun _ => True)
                (int_or sampfrom 0)
                (window_intervals (int_or sampfrom 0)
                                  (int_or sampto sig_len) ann)
                (replicate
                   (Z.to_nat (int_or sampto sig_len - int_or sampfrom 0))
                   (default 0 (PyDict.get "N" rhythm_types_map))))
      as (m & -> & _); try done.
    + by eapply scanned_window_codes.
    + by apply Forall_forall.
Qed.

Lemma X9_failed_call_writes_nothing_witness :
  (@load_rhythm_ann Fixtures.clip_ops
     (<["r.atr" := FAnnotation []]> Fixtures.db1) "r" None None "mask"
     false).2
  = <["r.atr" := FAnnotation []]> Fixtures.db1.
Proof.
  apply (@X9_failed_call_writes_nothing Fixtures.clip_ops
           (<["r.atr" := FAnnotation []]> Fixtures.db1) "r" None None
           "mask" false IndexError).
  reflexivity.
Defined.

(** X10: the interval format never returns an empty class and never
    leaves the window.  Whatever is stored for the record, with the
    interval helper keeping its contract, the classes returned have
    distinct names, each holds at least one interval, and every interval
    lies in [[sampfrom, sampto]] when [keep_original] is set and in
    [[0, sampto - sampfrom]] when it is not. *)
Theorem X10_intervals_lie_in_window `{IntervalOps} `{!IntervalLaws}
    (db db' : db_dir) (rec : string) (sampfrom sampto : option Z)
    (keep_original : bool) (sig_len : Z)
    (ann : list (string * list interval)) :
  rdheader db rec = Ok sig_len ->
  load_rhythm_ann db rec sampfrom sampto "interval" keep_original
    = (Ok (RhythmIntervals ann), db') ->
  let sf := int_or sampfrom 0 in
  let st := int_or sampto sig_len in
  let off := if keep_original then 0 else sf in
  NoDup (PyDict.keys ann) /\
  forall k l, (k, l) ∈ ann ->
    l <> [] /\
    Forall (fun itv => sf - off <= itv.1 /\ itv.1 <= itv.2 /\
                       itv.2 <= st - off) l.
Proof.
  intros Hh Hload sf st off. unfold load_rhythm_ann in Hload.
  change (assert (str_in (lower "interval") ["interval"; "mask"]))
    with (Ok ()) in Hload.
  rewrite Hh in Hload. cbn [mbind result_bind rbind] in Hload.
  fold sf st in Hload.
  destruct (assert (sf <? st)) as [[]|e]; cbn [mbind result_bind rbind] in Hload;
    [|done].
  destruct (load_full_rhythm_ann db rec sig_len) as [[full|e] db1];
    [|done].
  change (String.eqb (lower "interval") "mask") with false in Hload.
  cbv iota in Hload.
  set (W := window_intervals sf st full) in *.
  assert (forall k l, (k, l) ∈ W ->
            l <> [] /\
            Forall (fun itv => sf <= itv.1 /\ itv.1 <= itv.2 /\ itv.2 <= st) l)
    as HW.
  { intros k l Hin. apply window_intervals_from in Hin as (Hne & l0 & _ & ->).
    split; [done|]. apply Forall_forall. intros itv Hitv.
    by apply intersection_bounds in Hitv. }
  pose proof (window_intervals_NoDup sf st full) as Hnd. fold W in Hnd.
  subst off. destruct keep_original; simpl in Hload.
  - injection Hload as <- <-. split; [done|]. intros k l Hin.
    destruct (HW k l Hin) as [Hne Hall]. split; [done|].
    eapply Forall_impl; [done|]. intros itv. simpl. lia.
  - injection Hload as <- <-.
    rewrite of_list_nodup.
    2:{ unfold PyDict.keys in *. by rewrite <- list_fmap_compose. }
    split; [unfold PyDict.keys in *; by rewrite <- list_fmap_compose|].
    intros k l Hin. apply list_elem_of_fmap in Hin as ([k0 l0] & Heq & Hin).
    simpl in Heq. injection Heq as -> ->.
    destruct (HW k0 l0 Hin) as [Hne Hall]. split; [by destruct l0|].
    apply Forall_fmap. eapply Forall_impl; [done|]. intros itv. simpl. lia.
Qed.

Lemma X10_intervals_lie_in_window_witness :
  NoDup (PyDict.keys [("N", [(0, 3); (6, 7)]); ("AFIB", [(3, 6)])]) /\
  forall k l, (k, l) ∈ [("N", [(0, 3); (6, 7)]); ("AFIB", [(3, 6)])] ->
    l <> [] /\
    Forall (fun itv : interval =>
              int_or (Some 2) 0 - int_or (Some 2) 0 <= itv.1 /\
              itv.1 <= itv.2 /\
              itv.2 <= int_or (Some 9) 12 - int_or (Some 2) 0) l.
Proof.
  apply (@X10_intervals_lie_in_window Fixtures.clip_ops clip_laws
           Fixtures.db1
           (@load_rhythm_ann Fixtures.clip_ops Fixtures.db1 "r" (Some 2)
              (Some 9) "interval" false).2
           "r" (Some 2) (Some 9) false 12).
  - reflexivity.
  - vm_compute. reflexivity.
Defined.

(** X11: calls of [load_rhythm_ann] are repeatable.  After a call that
    returns, the same call on the directory it leaves behind returns the
    same annotations and changes nothing more. *)
Theorem X11_second_call_agrees `{IntervalOps} (db db' : db_dir)
    (rec : string) (sampfrom sampto : option Z) (rhythm_format : string)
    (keep_original : bool) (x : rhythm_ann) :
  load_rhythm_ann db rec sampfrom sampto rhythm_format keep_original
    = (Ok x, db') ->
  load_rhythm_ann db' rec sampfrom sampto rhythm_format keep_original
    = (Ok x, db').
Proof.
  unfold load_rhythm_ann. intros Hload.
  destruct (assert (str_in (lower rhythm_format) ["interval"; "mask"]))
    as [[]|e]; cbn [mbind result_bind rbind] in *; [|done].
  destruct (rdheader db rec) as [sig_len|e] eqn:Hh;
    cbn [mbind result_bind rbind] in Hload; [|done].
  destruct (assert (int_or sampfrom 0 <? int_or sampto sig_len))
    as [[]|e] eqn:Hw; cbn [mbind result_bind rbind] in Hload; [|done].
  unfold load_full_rhythm_ann in Hload.
  destruct (db !! simplified_fp rec) as [c|] eqn:Hc.
  - assert (db' = db) as ->.
    { destruct c; try done. repeat case_match; by injection Hload. }
    rewrite Hh. cbn [mbind result_bind rbind]. rewrite Hw.
    cbn [mbind result_bind rbind]. unfold load_full_rhythm_ann.
    by rewrite Hc.
  - destruct (rdann db rec manual_ann_ext 0 None) as [a|e];
      cbn [mbind result_bind rbind] in Hload; [|done].
    destruct (scan_rhythms a sig_len) as [ann|e]; [|done].
    assert (db' = <[simplified_fp rec := FJson ann]> db) as ->.
    { repeat case_match; by injection Hload. }
    unfold simplified_fp at 1. rewrite rdheader_insert_other, Hh by done.
    cbn [mbind result_bind rbind]. rewrite Hw.
    cbn [mbind result_bind rbind]. unfold load_full_rhythm_ann.
    fold (simplified_fp rec). rewrite lookup_insert_eq.
    repeat case_match; try done; injection Hload as <- _; done.
Qed.

Lemma X11_second_call_agrees_witness :
  @load_rhythm_ann Fixtures.clip_ops
    (@load_rhythm_ann Fixtures.clip_ops Fixtures.db1 "r" (Some 2) (Some 9)
       "mask" false).2
    "r" (Some 2) (Some 9) "mask" false
  = (Ok (RhythmMask [0; 0; 0; 2; 2; 2; 0]),
     (@load_rhythm_ann Fixtures.clip_ops Fixtures.db1 "r" (Some 2) (Some 9)
        "mask" false).2).
Proof.
  apply (@X11_second_call_agrees Fixtures.clip_ops Fixtures.db1).
  vm_compute. reflexivity.
Defined.

(** X12: on the scanning path the mask is always made of rhythm codes.
    For a record with its header and at least one annotation, nothing
    stored yet and a window with [sf < st], whatever the interval helper
    returns and in whatever order the annotations come, the ["mask"]
    format returns an array of length [st - sf] whose entries all are
    codes of [rhythm_types_map] (the integers from 0 to 9). *)
Theorem X12_mask_holds_codes `{IntervalOps} (db : db_dir) (rec : string)
    (sampfrom sampto : option Z) (keep_original : bool) (sig_len : Z)
    (a : Annotation) :
  db !! (rec +:+ ".hea") = Some (FHeader sig_len) ->
  db !! (rec +:+ ".atr") = Some (FAnnotation a) ->
  db !! simplified_fp rec = None ->
  a <> [] ->
  int_or sampfrom 0 < int_or sampto sig_len ->
  exists mask,
    (load_rhythm_ann db rec sampfrom sampto "mask" keep_original).1
      = Ok (RhythmMask mask) /\
    Z.of_nat (length mask) = int_or sampto sig_len - int_or sampfrom 0 /\
    Forall (fun c => 0 <= c <= 9 /\
                     exists k, PyDict.get k rhythm_types_map = Some c) mask.
Proof.
  intros Hh Ha Hc Hne Hw. unfold load_rhythm_ann.
  change (assert (str_in (lower "mask") ["interval"; "mask"])) with (Ok ()).
  unfold rdheader. rewrite Hh. cbn [mbind result_bind rbind].
  set (sf := int_or sampfrom 0) in *. set (st := int_or sampto sig_len) in *.
  assert ((sf <? st) = true) as -> by (by apply Z.ltb_lt).
  cbn [mbind result_bind rbind assert].
  unfold load_full_rhythm_ann. rewrite Hc.
  rewrite (rdann_whole db rec manual_ann_ext a Ha).
  cbn [mbind result_bind rbind].
  destruct (scan_rhythms_trace a sig_len Hne) as (ann & Hscan & _).
  rewrite Hscan. change (String.eqb (lower "mask") "mask") with true.
  cbv iota.
  destruct (paint_rhythms_codes
              (fun c => 0 <= c <= 9 /\
                        exists k, PyDict.get k rhythm_types_map = Some c)
              sf (window_intervals sf st ann)
              (replicate (Z.to_nat (st - sf))
                 (default 0 (PyDict.get "N" rhythm_types_map))))
    as (m & Hm & Hlen & Hall).
  - by eapply scanned_window_codes.
  - intros k v Hv. split; [by eapply codes_range|by exists k].
  - apply Forall_replicate. split; [done|]. by exists "N".
  - exists m. rewrite Hm. split; [done|]. split; [|done].
    rewrite Hlen, length_replicate. lia.
Qed.

Lemma X12_mask_holds_codes_witness :
  exists mask,
    (@load_rhythm_ann Fixtures.clip_ops Fixtures.db1 "r" (Some 2) (Some 9)
       "mask" false).1 = Ok (RhythmMask mask) /\
    Z.of_nat (length mask) = int_or (Some 9) 12 - int_or (Some 2) 0 /\
    Forall (fun c => 0 <= c <= 9 /\
                     exists k, PyDict.get k rhythm_types_map = Some c) mask.
Proof.
  apply (@X12_mask_holds_codes Fixtures.clip_ops Fixtures.db1 "r" (Some 2)
           (Some 9) false 12 Fixtures.atr1).
  - reflexivity.
  - reflexivity.
  - reflexivity.
  - discriminate.
  - simpl. lia.
Defined.
End LTAFDB_reader_facts.

(** ** Further properties of the PhysioNet reader *)

Module PhysioNetDataBase_more_facts.
Import PyStr Numpy PhysioNetDataBase PhysioNetDataBase_facts.

(** *** [_normalize_leads] *)

Lemma list_index_Some `{EqDecision X} (l : list X) (x : X) (i : nat) :
  list_index x l = Some i ->
  l !! i = Some x /\ forall j, (j < i)%nat -> l !! j <> Some x.
Proof.
  revert i. induction l as [|y l IH]; intros i; simpl; [done|].
  destruct (decide (y = x)) as [->|Hne].
  - intros [= <-]. split; [done|]. intros j Hj. lia.
  - destruct (list_index x l) as [i'|] eqn:E; [|done].
    intros [= <-]. destruct (IH i' eq_refl) as [Hi Hfirst].
    split; [done|]. intros [|j] Hj; simpl; [congruence|].
    apply Hfirst. lia.
Qed.

Lemma list_index_elem `{EqDecision X} (l : list X) (x : X) :
  x ∈ l -> is_Some (list_index x l).
Proof.
  induction l as [|y l IH]; [by intros ?%elem_of_nil|]. simpl.
  destruct (decide (y = x)); [by eauto|].
  intros [->|Hin]%elem_of_cons; [done|].
  destruct (IH Hin) as [i ->]. by eauto.
Qed.

Lemma _normalize_leads_Ok (leads : leads_arg) (all_leads l : list lead) :
  _normalize_leads leads all_leads = Ok l -> l ⊆ all_leads.
Proof.
  unfold _normalize_leads. intros Hn.
  match type of Hn with
  | (mbind _ ?r) = _ => destruct r as [l'|e]; [|done]
  end.
  cbn [mbind result_bind rbind] in Hn.
  destruct (forallb (fun ld => bool_decide (ld ∈ all_leads)) l') eqn:E;
    [|done].
  cbn [assert mbind result_bind rbind] in Hn. injection Hn as <-.
  intros ld Hld. rewrite forallb_forall in E.
  apply list_elem_of_In, E in Hld. by apply bool_decide_eq_true in Hld.
Qed.

(** X13: leads that pass [_normalize_leads] are leads of the table, and
    asking for positions ([numeric=True]) then cannot fail: every lead is
    answered by the first position at which the table holds it. *)
Theorem X13_numeric_leads_are_positions (leads : leads_arg)
    (all_leads l : list lead) :
  _normalize_leads leads all_leads = Ok l ->
  l ⊆ all_leads /\
  exists idxs,
    _normalize_leads_numeric leads all_leads = Ok idxs /\
    Forall2 (fun i ld => all_leads !! i = Some ld /\
                         forall j, (j < i)%nat -> all_leads !! j <> Some ld)
            idxs l.
Proof.
  intros Hn. pose proof (_normalize_leads_Ok _ _ _ Hn) as Hsub.
  split; [done|]. unfold _normalize_leads_numeric. rewrite Hn.
  cbn [mbind result_bind rbind]. clear Hn.
  induction l as [|ld l IH].
  - exists []. by split.
  - destruct IH as (idxs & Hidx & Hall).
    { intros x Hx. apply Hsub. by right. }
    destruct (list_index_elem all_leads ld) as [i Hi]; [apply Hsub; left|].
    exists (i :: idxs). cbn [result_mapM]. rewrite Hi.
    cbn [mbind result_bind rbind]. rewrite Hidx.
    split; [done|]. constructor; [|done]. by apply list_index_Some.
Qed.

Lemma X13_numeric_leads_are_positions_witness :
  [LeadName "II"; LeadName "I"] ⊆ [LeadName "I"; LeadName "II"; LeadName "II"] /\
  exists idxs,
    _normalize_leads_numeric (ManyLeads [LeadNumber (-1); LeadName "I"])
      [LeadName "I"; LeadName "II"; LeadName "II"] = Ok idxs /\
    Forall2 (fun i ld =>
               [LeadName "I"; LeadName "II"; LeadName "II"] !! i = Some ld /\
               forall j, (j < i)%nat ->
                 [LeadName "I"; LeadName "II"; LeadName "II"] !! j <> Some ld)
            idxs [LeadName "II"; LeadName "I"].
Proof.
  apply (X13_numeric_leads_are_positions
           (ManyLeads [LeadNumber (-1); LeadName "I"])
           [LeadName "I"; LeadName "II"; LeadName "II"]).
  reflexivity.
Defined.

(** X14: a negative integer is rejected as a single lead but accepted
    inside a sequence, where it counts from the end of the table as
    Python indices do. *)
Theorem X14_negative_lead_number (all_leads : list lead) (n : Z) :
  - Z.of_nat (length all_leads) <= n < 0 ->
  _normalize_leads (OneLead (LeadNumber n)) all_leads = Raise AssertionError /\
  exists ld,
    all_leads !! Z.to_nat (Z.of_nat (length all_leads) + n) = Some ld /\
    _normalize_leads (ManyLeads [LeadNumber n]) all_leads = Ok [ld].
Proof.
  intros Hn. split.
  - unfold _normalize_leads.
    assert ((0 <=? n) = false) as -> by lia.
    by rewrite andb_false_r.
  - destruct (lookup_lt_is_Some_2 all_leads
                (Z.to_nat (Z.of_nat (length all_leads) + n))) as [ld Hld];
      [lia|].
    exists ld. split; [done|].
    unfold _normalize_leads. cbn [result_mapM]. unfold py_getitem.
    assert ((0 <=? n) = false) as -> by lia.
    assert ((- Z.of_nat (length all_leads) <=? n) && (n <? 0) = true) as ->
      by lia.
    cbn [andb]. rewrite Z.add_comm, Hld.
    cbn [mbind result_bind rbind forallb].
    rewrite bool_decide_true by (by eapply list_elem_of_lookup_2).
    done.
Qed.

Lemma X14_negative_lead_number_witness :
  _normalize_leads (OneLead (LeadNumber (-1))) [LeadNumber 0; LeadNumber 1]
    = Raise AssertionError /\
  exists ld,
    [LeadNumber 0; LeadNumber 1] !! Z.to_nat (Z.of_nat 2 + -1) = Some ld /\
    _normalize_leads (ManyLeads [LeadNumber (-1)]) [LeadNumber 0; LeadNumber 1]
      = Ok [ld].
Proof.
  apply (X14_negative_lead_number [LeadNumber 0; LeadNumber 1] (-1)).
  simpl. lia.
Defined.

(** *** [load_data] *)

Section load_data.
Context {A : Type} `{SignalOps A}.


(** X15: microvolts are a thousand times millivolts.  When no resampling
    takes place (the frequency to deliver is the record's), a call with
    units ["uV"], ["μV"] or ["muV"], in any letter case (the capital of
    the Greek mu included), returns what the same call with ["mV"]
    returns with every sample multiplied by 1000, in every data
    format. *)
Theorem X15_microvolts_scale_millivolts (self : DataBase A) (rec : string)
    (r : WfdbRecord A) (leads : leads_arg) (sampfrom sampto : option nat)
    (fmt u : string) (fs : option Q) (return_fs : bool) (f : Q)
    (mv : ndarray A) (ret : option (option Q)) :
  records self !! rec = Some r ->
  match fs with Some f' => Some f' | None => self_fs self end = Some f ->
  Qeq_bool f (rec_fs r) = true ->
  str_in (lower u) ["μv"; "uv"; "muv"] = true ->
  load_data self rec leads sampfrom sampto fmt (Some "mV") fs return_fs
    = Ok (mv, ret) ->
  load_data self rec leads sampfrom sampto fmt (Some u) fs return_fs
    = Ok (map_ndarray times1000 mv, ret).
Proof.
  intros Hrec Hfs Hsame Hu. unfold load_data. rewrite Hrec, Hfs.
  cbn [mbind result_bind rbind].
  destruct (_normalize_leads leads _) as [_leads|e];
    cbn [mbind result_bind rbind]; [|done].
  destruct (assert (str_in (lower fmt) allowed_data_format)) as [[]|e];
    cbn [mbind result_bind rbind]; [|done].
  match goal with
  | |- (mbind _ ?x) = _ -> _ =>
      destruct x as [[]|e]; cbn [mbind result_bind rbind]; [|done]
  end.
  change (str_in (lower "mV") allowed_units) with true.
  assert (str_in (lower u) allowed_units = true
          /\ String.eqb (lower u) "mv" = false) as [-> Hmv].
  { unfold str_in in Hu. simpl in Hu.
    repeat (apply orb_true_iff in Hu as [Hu|Hu];
            [apply String.eqb_eq in Hu; by rewrite Hu|]).
    done. }
  cbn [assert mbind result_bind rbind].
  destruct (result_mapM _ _leads) as [channels|e];
    cbn [mbind result_bind rbind]; [|done].
  rewrite !bool_decide_true by done.
  destruct (rdrecord r (nat_or_0 sampfrom) sampto true channels)
    as [read|e]; cbn [mbind result_bind rbind]; [|done].
  unfold resample, convert_units. rewrite Hsame, Hmv.
  change (String.eqb (lower "mV") "mv") with true.
  cbn [mbind result_bind rbind].
  destruct (str_in (lower fmt) ["channel_first"; "lead_first"]);
    [|destruct (str_in (lower fmt) ["flat"; "plain"])];
    intros [= <- <-]; reflexivity.
Qed.
End load_data.

Section flat.
Context {A : Type} `{SignalOps A} `{!SignalLaws A}.

End flat.


Lemma X15_microvolts_scale_millivolts_witness :
  let ops := Fixtures.repeat_ops in
  load_data Fixtures.reader "100" (OneLead (LeadName "II")) (Some 1%nat)
            None "flat" (Some "ΜV") None true
  = Ok (map_ndarray times1000 (Arr1 3 (fun k => Fixtures.ramp (1 + k / 1) 1)),
        Some (Some (128 # 1))).
Proof.
  apply (@X15_microvolts_scale_millivolts Z Fixtures.repeat_ops
           Fixtures.reader "100"
           (mkRecord Z (128 # 1) ["I"; "II"] 4 Fixtures.ramp Fixtures.ramp)
           (OneLead (LeadName "II")) (Some 1%nat) None "flat" "ΜV" None
           true (128 # 1)); reflexivity.
Defined.
End PhysioNetDataBase_more_facts.

(** ** Rounding of floats *)

Module PyFloat_facts.
Import PyFloat.

Lemma rne_bounds (x : Q) : Qfloor x <= rne x <= Qfloor x + 1.
Proof.
  unfold rne. destruct (x - inject_Z (Qfloor x) ?= 1 # 2)%Q; [|lia|lia].
  destruct (Z.even (Qfloor x)); lia.
Qed.

(** Rounding does not pass an integer. *)
Lemma rne_le (x : Q) (n : Z) : (x <= inject_Z n)%Q -> rne x <= n.
Proof.
  intros Hx. pose proof (Qfloor_le x) as Hfl.
  assert (Qfloor x <= n) as Hn.
  { apply Qfloor_resp_le in Hx. by rewrite Qfloor_Z in Hx. }
  destruct (Z.eq_dec (Qfloor x) n) as [Heq|Hne]; [|pose proof (rne_bounds x); lia].
  assert (x == inject_Z (Qfloor x))%Q as Hint.
  { apply Qle_antisym; [by rewrite Heq|done]. }
  unfold rne.
  assert ((x - inject_Z (Qfloor x) ?= 1 # 2)%Q = Lt) as ->; [|lia].
  rewrite <- Qlt_alt. rewrite <- Hint. ring_simplify. reflexivity.
Qed.

Lemma rne_int (x : Q) (n : Z) : (x == inject_Z n)%Q -> rne x = n.
Proof.
  intros Hx. unfold rne.
  assert (Qfloor x = n) as Hfl.
  { rewrite (Qfloor_comp _ _ Hx). apply Qfloor_Z. }
  rewrite Hfl.
  assert ((x - inject_Z n ?= 1 # 2)%Q = Lt) as ->; [|done].
  rewrite <- Qlt_alt. rewrite Hx. ring_simplify. reflexivity.
Qed.

Lemma ilog2_le (q : Q) :
  (0 < q)%Q -> (q < inject_Z (2 ^ 53))%Q -> ilog2 q <= 52.
Proof.
  intros Hpos Hlt. unfold ilog2.
  set (a := Z.log2 (Qnum q) - Z.log2 (Z.pos (Qden q))).
  destruct (Qle_bool (pow2 a) q) eqn:E.
  - apply Qle_bool_iff in E.
    destruct (Z_lt_le_dec a 53) as [?|Hge]; [lia|]. exfalso.
    unfold pow2 in E. destruct (Z.leb_spec 0 a) as [_|?]; [|lia].
    assert (inject_Z (2 ^ 53) <= inject_Z (2 ^ a))%Q as Hpow.
    { rewrite <- Zle_Qle. apply Z.pow_le_mono_r; lia. }
    apply (Qlt_irrefl q). eapply Qlt_le_trans; [exact Hlt|].
    by eapply Qle_trans.
  - assert (0 < Qnum q) as Hnum.
    { destruct q as [n d]. unfold Qlt in Hpos. simpl in *. lia. }
    assert (Qnum q < 2 ^ 53 * Z.pos (Qden q)) as Hnd.
    { destruct q as [n d]. unfold Qlt in Hlt. simpl in *. lia. }
    pose proof (Z.log2_spec (Z.pos (Qden q)) eq_refl) as [_ Hden].
    pose proof (Z.log2_nonneg (Z.pos (Qden q))) as Hld.
    assert (Qnum q < 2 ^ (54 + Z.log2 (Z.pos (Qden q)))) as Hn.
    { replace (54 + Z.log2 (Z.pos (Qden q)))
        with (53 + Z.succ (Z.log2 (Z.pos (Qden q)))) by lia.
      rewrite Z.pow_add_r by lia. nia. }
    apply Z.log2_lt_pow2 in Hn; [|done]. lia.
Qed.

Lemma quantum_nonpos (q : Q) :
  (0 < q)%Q -> (q < inject_Z (2 ^ 53))%Q -> quantum q <= 0.
Proof.
  intros Hpos Hlt. pose proof (ilog2_le q Hpos Hlt). unfold quantum. lia.
Qed.

Lemma pow2_nonpos (e : Z) :
  e <= 0 -> (pow2 e == 1 / inject_Z (2 ^ (- e)))%Q.
Proof.
  intros He. unfold pow2. destruct (Z.leb_spec 0 e) as [H0|_]; [|done].
  replace e with 0 by lia. reflexivity.
Qed.

Lemma inject_pow_pos (k : Z) : 0 <= k -> (0 < inject_Z (2 ^ k))%Q.
Proof.
  intros Hk. change 0%Q with (inject_Z 0). rewrite <- Zlt_Qlt.
  by apply Z.pow_pos_nonneg.
Qed.

(** Below [2 ^ 53] rounding does not pass an integer, and the integers
    are their own roundings. *)
Lemma round_pos_le (q : Q) (n : Z) :
  (0 < q)%Q -> (q <= inject_Z n)%Q -> n < 2 ^ 53 ->
  (round_pos q <= inject_Z n)%Q.
Proof.
  intros Hpos Hle Hn.
  assert (q < inject_Z (2 ^ 53))%Q as Hlt.
  { eapply Qle_lt_trans; [exact Hle|]. by rewrite <- Zlt_Qlt. }
  pose proof (quantum_nonpos q Hpos Hlt) as He.
  unfold round_pos. set (e := quantum q) in *.
  pose proof (inject_pow_pos (- e) ltac:(lia)) as Hs.
  assert (~ inject_Z (2 ^ (- e)) == 0)%Q as Hs0.
  { intros H0. rewrite H0 in Hs. by apply Qlt_irrefl in Hs. }
  assert (rne (q / pow2 e) <= n * 2 ^ (- e)) as Hr.
  { apply rne_le. rewrite (pow2_nonpos e He). rewrite inject_Z_mult.
    assert (q / (1 / inject_Z (2 ^ (- e))) == q * inject_Z (2 ^ (- e)))%Q
      as -> by (by field).
    apply Qmult_le_compat_r; [done|]. by apply Qlt_le_weak. }
  revert Hr. generalize (rne (q / pow2 e)). intros r Hr.
  rewrite (pow2_nonpos e He).
  apply (Qle_trans _ (inject_Z (n * 2 ^ (- e)) * (1 / inject_Z (2 ^ (- e))))).
  - apply Qmult_le_compat_r; [by rewrite <- Zle_Qle|].
    apply Qlt_le_weak. apply Qlt_shift_div_l; [done|]. by rewrite Qmult_0_l.
  - rewrite inject_Z_mult. apply Qle_lteq. right. by field.
Qed.

Lemma round_pos_int (q : Q) (n : Z) :
  (0 < q)%Q -> (q == inject_Z n)%Q -> n < 2 ^ 53 ->
  (round_pos q == inject_Z n)%Q.
Proof.
  intros Hpos Heq Hn.
  assert (q < inject_Z (2 ^ 53))%Q as Hlt.
  { rewrite Heq. by rewrite <- Zlt_Qlt. }
  pose proof (quantum_nonpos q Hpos Hlt) as He.
  unfold round_pos. set (e := quantum q) in *.
  pose proof (inject_pow_pos (- e) ltac:(lia)) as Hs.
  assert (~ inject_Z (2 ^ (- e)) == 0)%Q as Hs0.
  { intros H0. rewrite H0 in Hs. by apply Qlt_irrefl in Hs. }
  assert (rne (q / pow2 e) = n * 2 ^ (- e)) as ->.
  { apply rne_int. rewrite (pow2_nonpos e He). rewrite inject_Z_mult, Heq.
    by field. }
  rewrite (pow2_nonpos e He). rewrite inject_Z_mult. by field.
Qed.

(** What [math.floor(n * c)] is for an integer [n] below [2 ^ 53] and a
    float [0 < c <= 1]. *)
Lemma floor_mul_le (n : Z) (c : Q) :
  0 <= n < 2 ^ 53 -> (0 < c)%Q -> (c <= 1)%Q ->
  Qfloor (mul (inject_Z n) c) <= n.
Proof.
  intros [Hn0 Hn] Hc0 Hc1. unfold mul, round.
  assert (inject_Z n * c <= inject_Z n)%Q as Hle.
  { rewrite <- (Qmult_1_r (inject_Z n)) at 2.
    rewrite (Qmult_comm _ c), (Qmult_comm _ 1).
    apply Qmult_le_compat_r; [done|].
    change 0%Q with (inject_Z 0). rewrite <- Zle_Qle. lia. }
  destruct (inject_Z n * c ?= 0)%Q eqn:E.
  - change (Qfloor 0) with 0. lia.
  - exfalso. apply Qlt_alt in E. apply (Qlt_irrefl 0).
    eapply Qle_lt_trans; [|exact E]. apply Qmult_le_0_compat.
    + change 0%Q with (inject_Z 0). rewrite <- Zle_Qle. lia.
    + by apply Qlt_le_weak.
  - apply Qgt_alt in E.
    pose proof (round_pos_le _ n E Hle Hn) as Hr.
    apply Qfloor_resp_le in Hr. by rewrite Qfloor_Z in Hr.
Qed.

Lemma floor_mul_one (n : Z) (c : Q) :
  0 <= n < 2 ^ 53 -> (c == 1)%Q -> Qfloor (mul (inject_Z n) c) = n.
Proof.
  intros [Hn0 Hn] Hc. unfold mul, round.
  assert (inject_Z n * c == inject_Z n)%Q as Heq.
  { rewrite Hc. apply Qmult_1_r. }
  destruct (inject_Z n * c ?= 0)%Q eqn:E.
  - apply Qeq_alt in E. rewrite Heq in E.
    assert (n = 0) as -> by (unfold Qeq in E; simpl in E; lia).
    reflexivity.
  - exfalso. apply Qlt_alt in E. rewrite Heq in E.
    change 0%Q with (inject_Z 0) in E. rewrite <- Zlt_Qlt in E. lia.
  - apply Qgt_alt in E.
    rewrite (Qfloor_comp _ _ (round_pos_int _ n E Heq Hn)).
    apply Qfloor_Z.
Qed.

End PyFloat_facts.

(** ** Further properties of DenseNet *)

Module DenseNet_more_facts.
Import PyStr Torch Nets DenseNet DenseNet_spec DenseNet_facts.

(** *** Constructors *)

Section constructors.
Context {A : Type} `{Layers A}.

(** X17: a growth rate that [groups] does not divide stops the
    construction.  With basic building blocks, integer growth rate and
    filter length, a first macro block of at least one layer, and input
    and initial filter counts that [groups] divides, [DenseNet.__init__]
    raises [AssertionError] as soon as [groups] does not divide the growth
    rate. *)
Theorem X17_growth_rate_must_divide (in_channels : nat) (config : Config)
    (g k s n0 : nat) (rest : list nat) :
  growth_rates config = AnInt2 g ->
  filter_lengths config = AnInt2 k ->
  subsample_lengths config = AnInt s ->
  num_layers config = n0 :: rest -> n0 <> 0%nat ->
  str_in (lower (building_block (block config))) ["basic"; "basic_block"]
    = true ->
  groups config <> 0%nat ->
  (in_channels mod groups config = 0)%nat ->
  (init_num_filters config mod groups config = 0)%nat ->
  (g mod groups config <> 0)%nat ->
  DenseNet.__init__ in_channels config = Raise AssertionError.
Proof.
  intros Hgr Hfl Hsl Hnl Hn0 Hbasic Hg Hin Hinit Hbad.
  assert (Nat.eqb (groups config) 0 = false) as Hg' by (by apply Nat.eqb_neq).
  assert (DenseBasicBlock.__init__ (init_num_filters config + 0 * g) g k
            (groups config) (dropout config) (block config)
          = Raise AssertionError) as Hblock.
  { unfold DenseBasicBlock.__init__.
    rewrite Hg', Nat.mul_0_l, Nat.add_0_r, Hinit.
    apply Nat.eqb_neq in Hbad. by rewrite Hbad. }
  assert (DenseMacroBlock.__init__ (init_num_filters config) n0 (AnInt g)
            (bn_size config) (AnInt k) (groups config) (dropout config)
            (block config) = Raise AssertionError) as Hmacro.
  { unfold DenseMacroBlock.__init__. cbn [as_list].
    rewrite !length_replicate, Nat.eqb_refl.
    cbn [assert mbind result_bind rbind].
    destruct n0 as [|n0]; [done|].
    cbn [seq DenseMacroBlock.make_blocks replicate].
    assert (DenseMacroBlock.make_block (init_num_filters config)
              (bn_size config) (groups config) (g :: replicate n0 g)
              (k :: replicate n0 k) (dropout config) (block config) 0
            = Raise AssertionError) as ->; [|done].
    unfold DenseMacroBlock.make_block, getitem.
    cbn [lookup list_lookup mbind result_bind rbind].
    by rewrite Hbasic, Hblock. }
  unfold DenseNet.__init__, Conv_Bn_Activation_init.
  cbn [conv_groups conv_in_channels conv_out_channels].
  rewrite Hg', Hin, Hinit. cbn [Nat.eqb andb mbind result_bind rbind].
  rewrite Hgr, Hfl, Hsl, Hnl. cbn [as_list2 as_list].
  rewrite length_replicate, Nat.eqb_refl.
  cbn [assert mbind result_bind rbind make_macro_blocks].
  cbn [length replicate].
  assert (forall (X : Type) (x : X) l, getitem (x :: l) 0 = Ok x) as Hget
    by done.
  rewrite !Hget. cbn [mbind result_bind rbind].
  by rewrite Hmacro.
Qed.
End constructors.

Lemma X17_growth_rate_must_divide_witness :
  @DenseNet.__init__ Z Fixtures.shape_layers 12 model_configs.dense_net_leadwise
  = Raise AssertionError.
Proof.
  apply (@X17_growth_rate_must_divide Z Fixtures.shape_layers 12
           model_configs.dense_net_leadwise 16 15 2 6 [6; 6; 6]%nat);
    try reflexivity; done.
Defined.

(** *** Transitions *)

Section transition.
Context {A : Type} `{Layers A} `{!LayersLaws A}.

(** X18: a transition compresses, and never widens.  When
    [DenseTransition.__init__] returns for fewer than [2 ^ 53] input
    channels, the block is a convolution followed by a [DownSample], both
    for [floor(in_channels // groups * compression) * groups] channels,
    the product being the product of floats; that number is a multiple of
    [groups], is at most [in_channels], and is [in_channels] itself for
    [compression = 1]; and on an input of [in_channels] channels
    [forward] returns a tensor with that many channels. *)
Theorem X18_transition_compresses (in_channels : nat) (compression : Q)
    (subsample_length groups : nat) (subsample_mode : string) (m : module) :
  DenseTransition.__init__ in_channels compression subsample_length groups
                           subsample_mode = Ok m ->
  Z.of_nat in_channels < 2 ^ 53 ->
  let out :=
    (Z.to_nat (Qfloor (PyFloat.mul (inject_Z (Z.of_nat (in_channels / groups)))
                                   compression)) * groups)%nat in
  m = Sequential
        [Conv_Bn_Activation (mkConv in_channels out 1 1 1 groups);
         DownSample (mkDown subsample_length out None None
                            (lower subsample_mode))] /\
  (out mod groups = 0)%nat /\ (out <= in_channels)%nat /\
  (Qeq_bool compression 1 = true -> out = in_channels) /\
  forall x : Tensor A, channels x = in_channels ->
    exists y, forward m x = Ok y /\ channels y = out /\ batch y = batch x.
Proof.
  intros Hm Hsmall out.
  pose proof (transition_init_accepts _ _ _ _ _ _ Hm) as Hacc.
  unfold DenseTransition.__init__ in Hm.
  destruct (Qpositive compression && Qle_bool compression 1) eqn:Hc;
    [|discriminate].
  apply andb_true_iff in Hc as [Hpos Hle]. cbn [negb] in Hm.
  destruct (Nat.eqb groups 0) eqn:Hg; [discriminate|].
  apply Nat.eqb_neq in Hg.
  bind_inv Hm. apply assert_Ok, Nat.eqb_eq in E.
  pose proof (div_groups in_channels groups Hg E) as Hdiv.
  assert (0 <= Z.of_nat (in_channels / groups) < 2 ^ 53) as Hiw by nia.
  unfold PyFloat.int_mul, PyFloat.of_int in E0.
  destruct (Z.ltb_spec (Z.abs (Z.of_nat (in_channels / groups))) (2 ^ 53))
    as [_|?]; [|lia].
  cbn [mbind result_bind rbind] in E0. injection E0 as <-.
  apply Conv_Bn_Activation_init_Ok in E1 as (-> & _).
  injection Hm as <-. fold out.
  assert (0 < compression)%Q as Hpos'.
  { destruct compression as [[|n|n] d]; try discriminate Hpos. reflexivity. }
  apply Qle_bool_iff in Hle.
  pose proof (PyFloat_facts.floor_mul_le _ compression Hiw Hpos' Hle) as Hfl.
  split; [done|]. split; [by apply Nat.Div0.mod_mul|].
  split; [subst out; nia|]. split.
  - intros Heq. apply Qeq_bool_iff in Heq. subst out.
    rewrite (PyFloat_facts.floor_mul_one _ compression Hiw Heq). lia.
  - intros x Hx. subst in_channels.
    destruct (accepts_agrees _ x Hacc) as (y & Hy & _ & Hyc & Hyb).
    exists y. split; [exact Hy|]. split; [|done]. by rewrite Hyc.
Qed.
End transition.

Lemma X18_transition_compresses_witness :
  let layers := Fixtures.shape_layers in
  exists y, forward
              (Sequential
                 [Conv_Bn_Activation (mkConv 100 28 1 1 1 1);
                  DownSample (mkDown 2 28 None None "avg")])
              (Fixtures.zeros 1 100 16) = Ok y /\
            channels y = 28%nat /\ batch y = 1%nat.
Proof.
  refine (proj2 (proj2 (proj2 (proj2
            (@X18_transition_compresses Z Fixtures.shape_layers
               shape_layers_laws 100 (PyFloat.round (29 # 100)) 2 1 "AVG"
               _ _ _))))
            (Fixtures.zeros 1 100 16) _); reflexivity.
Defined.

(** *** Macro blocks with one growth rate *)

Lemma make_blocks_lookup (mk : nat -> result module) (idxs : list nat)
    (bs : list module) (j idx : nat) (b : module) :
  DenseMacroBlock.make_blocks mk idxs = Ok bs ->
  idxs !! j = Some idx -> bs !! j = Some b -> mk idx = Ok b.
Proof.
  revert bs j. induction idxs as [|i idxs IH]; intros bs j Hbs Hj Hb;
    [done|].
  simpl in Hbs. bind_inv Hbs. injection Hbs as <-.
  destruct j as [|j]; simpl in *.
  - by injection Hj as <-; injection Hb as <-.
  - by eapply IH.
Qed.

Section macro.
Context {A : Type} `{Layers A} `{!LayersLaws A}.

(** X19: with one growth rate for all its layers a macro block grows
    linearly.  When [DenseMacroBlock.__init__] returns for [n >= 1]
    layers of growth rate [g] (building blocks basic, or bottlenecks with
    [memory_efficient] off), it holds [n] blocks, the block at position
    [idx] is wired for [in_channels + idx * g] input channels, the
    accumulated growth of the blocks before it, and on an input of
    [in_channels] channels [forward] returns a tensor of
    [in_channels + n * g] channels. *)
Theorem X19_uniform_macro_block (in_channels n g bn : nat)
    (growth_rates filter_lengths : int_or_seq) (groups : nat)
    (dropout : dropout_arg) (config : BlockConfig) (m : module) :
  DenseMacroBlock.__init__ in_channels n growth_rates bn filter_lengths
                           groups dropout config = Ok m ->
  as_list growth_rates n = replicate n g ->
  n <> 0%nat -> runnable config ->
  exists blocks,
    m = Sequential blocks /\ length blocks = n /\
    (forall idx b, blocks !! idx = Some b ->
       accepts b (in_channels + idx * g) /\
       out_channels b (in_channels + idx * g)
       = (in_channels + (idx + 1) * g)%nat) /\
    forall x : Tensor A, channels x = in_channels ->
      exists y, forward m x = Ok y /\
                channels y = (in_channels + n * g)%nat /\
                batch y = batch x.
Proof.
  intros Hm Hu Hn Hrun.
  pose proof (macro_init_accepts _ _ _ _ _ _ _ _ _ Hm (ex_intro _ g Hu) Hn Hrun)
    as Hacc.
  unfold DenseMacroBlock.__init__ in Hm. bind_inv Hm. injection Hm as <-.
  rename a1 into blocks. rewrite Hu in E1.
  destruct (make_blocks_accepts in_channels bn groups (replicate n g)
              (as_list filter_lengths n) dropout config g Hrun n 0 blocks E1)
    as (_ & Hout & Hlen).
  { intros idx Hidx. apply lookup_replicate_2. lia. }
  exists blocks. split; [done|]. split; [done|]. split.
  - intros idx b Hb.
    assert (idx < n)%nat as Hidx by (rewrite <- Hlen; by eapply lookup_lt_Some).
    pose proof (make_blocks_lookup _ _ _ idx idx b E1) as Hmk.
    destruct (make_block_accepts _ _ _ _ _ _ _ _ g _
                (Hmk (lookup_seq_lt _ _ _ Hidx) Hb)) as [Hb1 Hb2];
      [by apply lookup_replicate_2|done|].
    split; [done|]. rewrite Hb2. lia.
  - intros x Hx. subst in_channels.
    destruct (accepts_agrees _ x Hacc) as (y & Hy & _ & Hyc & Hyb).
    exists y. split; [exact Hy|]. split; [|done].
    rewrite Hyc, out_channels_Sequential.
    simpl in Hout. rewrite Nat.add_0_r in Hout. by rewrite Hout.
Qed.
End macro.

Lemma X19_uniform_macro_block_witness :
  let layers := Fixtures.shape_layers in
  exists y, forward
              (Sequential
                 [BasicBlock (DenseBasicBlock.mk 4 2 3 1 (mkConv 4 2 3 1 1 1)
                                                 Identity);
                  BasicBlock (DenseBasicBlock.mk 6 2 3 1 (mkConv 6 2 3 1 1 1)
                                                 Identity)])
              Fixtures.x148 = Ok y /\
            channels y = (4 + 2 * 2)%nat /\ batch y = 1%nat.
Proof.
  destruct (@X19_uniform_macro_block Z Fixtures.shape_layers
              shape_layers_laws 4 2 2 4 (AnInt 2) (AnInt 3) 1 (DropoutRate 0)
              Fixtures.basic_config _ eq_refl eq_refl)
    as (blocks & Hm & _ & _ & Hfwd).
  - done.
  - by left.
  - injection Hm as <-. by apply Hfwd.
Defined.

(** *** Blocks with [groups > 1] *)

Section grouped.
Context {A : Type}.
Implicit Types x nf y t acc : Tensor A.

Lemma cat2_elem t1 t2 y (n c l : nat) :
  cat2 t1 t2 = Ok y ->
  elem y n c l = if (c <? channels t1)%nat then elem t1 n c l
                 else elem t2 n (c - channels t1)%nat l.
Proof.
  unfold cat2. destruct (_ && _); [|discriminate]. by intros [= <-].
Qed.

Lemma cat_from_prefix (ts : list (Tensor A)) acc y (n c l : nat) :
  cat_from acc ts = Ok y -> (c < channels acc)%nat ->
  elem y n c l = elem acc n c l.
Proof.
  revert acc. induction ts as [|t ts IH]; intros acc Hy Hc; simpl in Hy.
  - by injection Hy as <-.
  - destruct (cat2 acc t) as [acc'|] eqn:E; [|discriminate]. simpl in Hy.
    pose proof (cat2_Ok _ _ _ E) as (_ & _ & _ & _ & Hch & _).
    rewrite (IH acc' Hy) by lia.
    rewrite (cat2_elem _ _ _ n c l E).
    by apply Nat.ltb_lt in Hc as ->.
Qed.

(** Where [torch.cat] puts the channels of its [k]-th argument. *)
Lemma cat_from_lookup (ts : list (Tensor A)) acc y (k : nat) t
    (n c l : nat) :
  cat_from acc ts = Ok y -> ts !! k = Some t -> (c < channels t)%nat ->
  elem y n (channels acc + sum_list (channels <$> take k ts) + c)%nat l
  = elem t n c l.
Proof.
  revert acc k. induction ts as [|t0 ts IH]; intros acc k Hy Hk Hc; [done|].
  simpl in Hy. destruct (cat2 acc t0) as [acc'|] eqn:E; [|discriminate].
  simpl in Hy.
  pose proof (cat2_Ok _ _ _ E) as (_ & _ & _ & _ & Hch & _).
  destruct k as [|k]; simpl in Hk.
  - injection Hk as ->. simpl.
    rewrite (cat_from_prefix ts acc' y n _ l Hy) by lia.
    rewrite (cat2_elem _ _ _ n _ l E).
    assert ((channels acc + 0 + c <? channels acc)%nat = false) as ->
      by (apply Nat.ltb_ge; lia).
    f_equal. lia.
  - specialize (IH acc' k Hy Hk Hc). rewrite <- IH. f_equal.
    rewrite Hch. cbn [take fmap list_fmap sum_list sum_list_with id].
    change (list_fmap (Tensor A) nat channels (take k ts))
      with (channels <$> take k ts). lia.
Qed.

Lemma cat_lookup (ts : list (Tensor A)) y (k : nat) t (n c l : nat) :
  cat ts = Ok y -> ts !! k = Some t -> (c < channels t)%nat ->
  elem y n (sum_list (channels <$> take k ts) + c)%nat l = elem t n c l.
Proof.
  destruct ts as [|t0 ts]; [done|]. simpl. intros Hy Hk Hc.
  destruct k as [|k]; simpl in Hk.
  - injection Hk as ->. simpl. by apply (cat_from_prefix ts).
  - rewrite <- (cat_from_lookup ts t0 y k t n c l Hy Hk Hc).
    f_equal; cbn [take fmap list_fmap sum_list sum_list_with id]; lia.
Qed.

(** The list that a grouped block hands to [torch.cat]: the slices of
    group [i] sit at positions [2 i] and [2 i + 1], after [i] pairs of
    full width. *)
Lemma interleave_lookup (iw nfw groups : nat) x nf (i : nat) :
  channels x = (iw * groups)%nat -> channels nf = (nfw * groups)%nat ->
  (i < groups)%nat ->
  let ts := DenseBasicBlock.interleave iw nfw groups x nf in
  ts !! (2 * i)%nat
    = Some (slice_channels (iw * i) (iw * (i + 1)) x) /\
  ts !! (2 * i + 1)%nat
    = Some (slice_channels (nfw * i) (nfw * (i + 1)) nf) /\
  sum_list (channels <$> take (2 * i) ts) = (i * (iw + nfw))%nat /\
  channels (slice_channels (iw * i) (iw * (i + 1)) x) = iw /\
  channels (slice_channels (nfw * i) (nfw * (i + 1)) nf) = nfw.
Proof.
  intros Hx Hnf Hi ts. subst ts. unfold DenseBasicBlock.interleave.
  set (f := fun i : nat =>
              [slice_channels (iw * i) (iw * (i + 1)) x;
               slice_channels (nfw * i) (nfw * (i + 1)) nf]).
  assert (forall j, (j < groups)%nat ->
            channels (slice_channels (iw * j) (iw * (j + 1)) x) = iw /\
            channels (slice_channels (nfw * j) (nfw * (j + 1)) nf) = nfw)
    as Hwidth.
  { intros j Hj. simpl. rewrite Hx, Hnf.
    assert (iw * (j + 1) <= iw * groups)%nat by (apply Nat.mul_le_mono_l; lia).
    assert (nfw * (j + 1) <= nfw * groups)%nat
      by (apply Nat.mul_le_mono_l; lia).
    rewrite !Nat.min_l by nia. nia. }
  assert (forall g s j, (j < g)%nat -> (s + g <= groups)%nat ->
            mjoin (f <$> seq s g) !! (2 * j)%nat
              = Some (slice_channels (iw * (s + j)) (iw * (s + j + 1)) x) /\
            mjoin (f <$> seq s g) !! (2 * j + 1)%nat
              = Some (slice_channels (nfw * (s + j)) (nfw * (s + j + 1)) nf) /\
            sum_list (channels <$> take (2 * j) (mjoin (f <$> seq s g)))
              = (j * (iw + nfw))%nat) as Hgen.
  { induction g as [|g IH]; intros s j Hj Hs; [lia|].
    destruct j as [|j].
    - rewrite Nat.add_0_r. by repeat split.
    - destruct (IH (S s) j) as (H1 & H2 & H3); [lia|lia|].
      replace (S s + j)%nat with (s + S j)%nat in H1, H2 by lia.
      replace (2 * S j)%nat with (S (S (2 * j))) by lia.
      split; [exact H1|]. split; [exact H2|].
      change (mjoin (f <$> seq s (S g)))
        with (slice_channels (iw * s) (iw * (s + 1)) x
              :: slice_channels (nfw * s) (nfw * (s + 1)) nf
              :: mjoin (f <$> seq (S s) g)).
      cbn [take fmap list_fmap sum_list sum_list_with id].
      change (list_fmap (Tensor A) nat channels
                (take (2 * j) (mjoin (f <$> seq (S s) g))))
        with (channels <$> take (2 * j) (mjoin (f <$> seq (S s) g))).
      rewrite H3. destruct (Hwidth s) as [-> ->]; lia. }
  destruct (Hgen groups 0%nat i Hi) as (H1 & H2 & H3); [lia|].
  split; [exact H1|]. split; [exact H2|]. split; [exact H3|].
  by apply Hwidth.
Qed.
End grouped.

Section grouped_block.
Context {A : Type} `{Layers A} `{!LayersLaws A}.

(** X20: with [groups > 1] a basic block interleaves, group by group.
    For a block that [DenseBasicBlock.__init__] returns with
    [groups <> 1] and an input of [in_channels] channels, [forward]
    returns [in_channels + growth_rate] channels made of [groups]
    consecutive runs: run [i] holds the [in_channels // groups] input
    channels of group [i], unchanged, followed by the
    [growth_rate // groups] new features of group [i]. *)
Theorem X20_grouped_block_interleaves (in_channels growth_rate k
    groups : nat) (dropout : dropout_arg) (config : BlockConfig)
    (b : DenseBasicBlock.t) (x : Tensor A) :
  DenseBasicBlock.__init__ in_channels growth_rate k groups dropout config
    = Ok b ->
  groups <> 1%nat -> channels x = in_channels ->
  let iw := (in_channels / groups)%nat in
  let nfw := (growth_rate / groups)%nat in
  exists nf y,
    DenseBasicBlock.new_features b x = Ok nf /\
    DenseBasicBlock.forward b x = Ok y /\
    channels y = (in_channels + growth_rate)%nat /\
    forall i n l, (i < groups)%nat ->
      (forall r, (r < iw)%nat ->
         elem y n (i * (iw + nfw) + r)%nat l = elem x n (i * iw + r)%nat l) /\
      (forall r, (r < nfw)%nat ->
         elem y n (i * (iw + nfw) + iw + r)%nat l
         = elem nf n (i * nfw + r)%nat l).
Proof.
  intros Hb Hg1 Hx iw nfw.
  destruct (basic_init_accepts _ _ _ _ _ _ _ Hb) as [Hacc _].
  apply DenseBasicBlock_init_Ok in Hb as (Hg & Hin & Hgr & Hbeq).
  destruct Hacc as (_ & _ & _ & _ & Hconv). rewrite <- Hx in Hconv.
  destruct (basic_new_features b x Hconv) as (nf & Hnf & Hnb & Hnl & Hnc).
  subst b. cbn [DenseBasicBlock.growth_rate] in Hnc.
  assert (channels x = (iw * groups)%nat) as Hxw
    by (rewrite Hx; by apply div_groups).
  assert (channels nf = (nfw * groups)%nat) as Hnw
    by (rewrite Hnc; by apply div_groups).
  destruct (cat_interleave iw nfw groups x nf Hg Hnb Hnl Hxw Hnw)
    as (y & Hy & Hyb & Hyl & Hyc).
  exists nf, y. split; [exact Hnf|]. split.
  { unfold DenseBasicBlock.forward. rewrite Hnf.
    cbn [mbind result_bind rbind DenseBasicBlock.groups
         DenseBasicBlock.in_channels DenseBasicBlock.growth_rate].
    apply Nat.eqb_neq in Hg1, Hg. by rewrite Hg1, Hg. }
  split; [lia|].
  intros i n l Hi.
  destruct (interleave_lookup iw nfw groups x nf i Hxw Hnw Hi)
    as (H1 & H2 & H3 & Hw1 & Hw2).
  assert (iw * i <= channels x)%nat as Hlo1 by (rewrite Hxw; nia).
  assert (nfw * i <= channels nf)%nat as Hlo2 by (rewrite Hnw; nia).
  split.
  - intros r Hr.
    pose proof (cat_lookup _ y _ _ n r l Hy H1) as Hel.
    rewrite H3, Hw1 in Hel. rewrite (Hel Hr). cbn [slice_channels elem].
    rewrite Nat.min_l by done. f_equal. lia.
  - intros r Hr.
    pose proof (cat_lookup _ y _ _ n r l Hy H2) as Hel.
    rewrite Hw2 in Hel.
    replace (2 * i + 1)%nat with (S (2 * i)) in Hel, H2 by lia.
    rewrite (take_S_r _ _ _ H1) in Hel.
    rewrite fmap_app in Hel.
    rewrite (sum_list_with_app id : forall l k : list nat,
               sum_list (l ++ k) = (sum_list l + sum_list k)%nat), H3 in Hel.
    cbn [fmap list_fmap sum_list sum_list_with id] in Hel.
    rewrite Hw1, Nat.add_0_r in Hel. rewrite (Hel Hr).
    cbn [slice_channels elem]. rewrite Nat.min_l by done. f_equal. lia.
Qed.
End grouped_block.

Lemma X20_grouped_block_interleaves_witness :
  let layers := Fixtures.shape_layers in
  let b := DenseBasicBlock.mk 4 2 3 2 (mkConv 4 2 3 1 1 2) Identity in
  exists nf y,
    DenseBasicBlock.new_features b Fixtures.x148 = Ok nf /\
    DenseBasicBlock.forward b Fixtures.x148 = Ok y /\
    channels y = (4 + 2)%nat /\
    forall i n l, (i < 2)%nat ->
      (forall r, (r < 4 / 2)%nat ->
         elem y n (i * (4 / 2 + 2 / 2) + r)%nat l
         = elem Fixtures.x148 n (i * (4 / 2) + r)%nat l) /\
      (forall r, (r < 2 / 2)%nat ->
         elem y n (i * (4 / 2 + 2 / 2) + 4 / 2 + r)%nat l
         = elem nf n (i * (2 / 2) + r)%nat l).
Proof.
  apply (@X20_grouped_block_interleaves Z Fixtures.shape_layers
           shape_layers_laws 4 2 3 2 (DropoutRate 0) Fixtures.basic_config
           _ Fixtures.x148).
  - reflexivity.
  - lia.
  - reflexivity.
Defined.
End DenseNet_more_facts.

(** ** Further properties of the units of a signal *)

Module DataBase_units_facts.
Import PyStr PhysioNetDataBase DataBase_units_spec.

Lemma Qle_bool_max (a b c : Q) :
  Qle_bool (Qmax a b) c = Qle_bool a c && Qle_bool b c.
Proof.
  apply eq_true_iff_eq.
  rewrite andb_true_iff, !Qle_bool_iff. apply Q.max_lub_iff.
Qed.

Lemma gt_fmax (c : Z) (x : float) (l : list float) :
  gt (FloatScalar (foldl fmax x l)) c
  = negb (existsb is_nan (x :: l))
    && existsb (fun y => gt (FloatScalar y) c) (x :: l).
Proof.
  revert x. induction l as [|y l IH]; intros x.
  - destruct x; simpl; by rewrite ?orb_false_r.
  - cbn [foldl]. rewrite IH. cbn [existsb].
    destruct x as [a| | |], y as [b| | |]; cbn [fmax is_nan gt orb negb andb];
      rewrite ?orb_true_r, ?orb_false_r, ?andb_false_r; try reflexivity.
    rewrite Qle_bool_max.
    by destruct (Qle_bool a (inject_Z c)), (Qle_bool b (inject_Z c)).
Qed.

Lemma gt_Zmax (c z : Z) (l : list Z) :
  (c <? foldl Z.max z l) = existsb (fun y => c <? y) (z :: l).
Proof.
  revert z. induction l as [|y l IH]; intros z.
  - simpl. by rewrite orb_false_r.
  - cbn [foldl]. rewrite IH. cbn [existsb]. rewrite orb_assoc. f_equal.
    apply eq_true_iff_eq. rewrite orb_true_iff, !Z.ltb_lt. lia.
Qed.

Lemma existsb_fmap {X Y : Type} (f : X -> Y) (p : Y -> bool) (l : list X) :
  existsb p (f <$> l) = existsb (fun x => p (f x)) l.
Proof.
  induction l as [|x l IH]; [done|].
  rewrite fmap_cons. cbn [existsb]. by rewrite IH.
Qed.

Lemma existsb_ext' {X : Type} (p q : X -> bool) (l : list X) :
  (forall x, p x = q x) -> existsb p l = existsb q l.
Proof. intros H. induction l as [|x l IH]; [done|]. simpl. by rewrite H, IH. Qed.

(** X21: on a non-empty signal of type ["ecg"] (in any letter case)
    [_auto_infer_units] answers ["μV"] or ["mV"].  For floating-point
    samples it answers ["μV"] exactly when no sample is a NaN and some
    sample is beyond 20 in absolute value, an infinite one included; for
    signed integer samples exactly when some sample is beyond 20 in
    absolute value and is not the least integer of its width, whose
    absolute value [np.abs] gives as negative. *)
Theorem X21_auto_infer_units (sig : samples) (sig_type : string) :
  lower sig_type = "ecg" -> size sig <> 0%nat ->
  _auto_infer_units sig sig_type
  = Ok (match sig with
        | Floats l =>
            if negb (existsb is_nan l) && existsb (beyond 20) l
            then "μV" else "mV"
        | Ints bits l =>
            if existsb (beyond_int bits 20) l then "μV" else "mV"
        end).
Proof.
  intros Hecg Hne. unfold _auto_infer_units. rewrite Hecg.
  change (String.eqb "ecg" "ecg") with true. cbv iota.
  destruct sig as [[|x l]|bits [|z l]]; try done.
  - cbn [np_abs fmap list_fmap np_max mbind result_bind rbind].
    change (list_fmap float float fabs l) with (fabs <$> l).
    rewrite gt_fmax.
    change (fabs x :: (fabs <$> l)) with (fabs <$> (x :: l)).
    rewrite !existsb_fmap.
    rewrite (existsb_ext' (fun y => is_nan (fabs y)) is_nan)
      by (by intros []).
    rewrite (existsb_ext' (fun y => gt (FloatScalar (fabs y)) 20) (beyond 20))
      by (by intros []).
    by destruct (negb _ && _).
  - cbn [np_abs fmap list_fmap np_max mbind result_bind rbind gt].
    change (list_fmap Z Z (iabs bits) l) with (iabs bits <$> l).
    rewrite gt_Zmax.
    change (iabs bits z :: (iabs bits <$> l)) with (iabs bits <$> (z :: l)).
    rewrite existsb_fmap.
    rewrite (existsb_ext' (fun y => 20 <? iabs bits y) (beyond_int bits 20)).
    + by destruct (existsb _ _).
    + intros y. unfold iabs, beyond_int.
      destruct (Z.eqb_spec y (- 2 ^ (bits - 1))) as [->|_]; [|done].
      cbn [negb andb]. apply Z.ltb_ge.
      pose proof (Z.pow_nonneg 2 (bits - 1)). lia.
Qed.

Lemma X21_auto_infer_units_witness :
  _auto_infer_units (Floats [Finite (1 # 2); Finite ((-45) # 2); NaN]) "ECG"
  = Ok "mV" /\
  _auto_infer_units (Floats [Finite (1 # 2); Finite ((-45) # 2)]) "ECG"
  = Ok "μV" /\
  _auto_infer_units (Ints 16 [3; -32768]) "Ecg" = Ok "mV" /\
  _auto_infer_units (Ints 16 [3; -32767]) "Ecg" = Ok "μV".
Proof.
  split; [|split; [|split]].
  - by apply (X21_auto_infer_units
                (Floats [Finite (1 # 2); Finite ((-45) # 2); NaN]) "ECG").
  - by apply (X21_auto_infer_units
                (Floats [Finite (1 # 2); Finite ((-45) # 2)]) "ECG").
  - by apply (X21_auto_infer_units (Ints 16 [3; -32768]) "Ecg").
  - by apply (X21_auto_infer_units (Ints 16 [3; -32767]) "Ecg").
Defined.

End DataBase_units_facts.

(** ** Further properties of the sleep stage mask *)

Module PSG_mask_facts.
Import PyStr PhysioNetDataBase PSGDataBaseMixin PSG_contract Intervals.
Import LTAFDB LTAFDB_facts.

Lemma set_code_fresh {V : Type} (k : Z) (v : V) (d : list (Z * V)) :
  k ∉ d.*1 -> set_code k v d = d ++ [(k, v)].
Proof.
  induction d as [|[k' v'] d IH]; intros Hk; [done|].
  rewrite fmap_cons, not_elem_of_cons in Hk. destruct Hk as [Hne Hk].
  cbn [set_code app fst]. destruct (Z.eqb_spec k k') as [->|_]; [done|].
  by rewrite IH.
Qed.

Lemma foldl_set_code_distinct {V : Type} (d items : list (Z * V)) :
  NoDup (d.*1 ++ items.*1) ->
  foldl (fun d kv => set_code kv.1 kv.2 d) d items = d ++ items.
Proof.
  revert d. induction items as [|[k v] items IH]; intros d Hnd.
  - by rewrite app_nil_r.
  - cbn [foldl fst snd].
    assert (k ∉ d.*1) as Hk.
    { intros Hin. apply NoDup_app in Hnd as (_ & Hd & _).
      apply (Hd k Hin). rewrite fmap_cons. by left. }
    rewrite set_code_fresh by done.
    rewrite IH; [by rewrite <- app_assoc|].
    rewrite fmap_app, <- app_assoc. done.
Qed.

Lemma of_codes_distinct {V : Type} (items : list (Z * V)) :
  NoDup items.*1 -> of_codes items = items.
Proof. intros Hnd. by apply (foldl_set_code_distinct []). Qed.

Lemma paint_stages_length (D : list (Z * list interval)) (arr : list Z) :
  length (paint_stages D arr) = length arr.
Proof.
  revert arr. induction D as [|[k l] D IH]; intros arr; [done|].
  cbn [paint_stages]. by rewrite IH, paint_intervals_length.
Qed.

Lemma paint_stages_lookup (D : list (Z * list interval)) (arr : list Z)
    (i : nat) :
  Forall (fun kl : Z * list interval =>
            Forall (fun itv : interval =>
                      0 <= itv.1 /\ itv.1 <= itv.2 /\
                      itv.2 <= 0 + Z.of_nat (length arr)) kl.2) D ->
  (i < length arr)%nat ->
  (existsb (fun kl : Z * list interval =>
              existsb (covers (0 + Z.of_nat i)) kl.2) D = false ->
   paint_stages D arr !! i = arr !! i) /\
  (forall c,
      existsb (fun kl : Z * list interval =>
                 existsb (covers (0 + Z.of_nat i)) kl.2) D = true ->
      (forall kl : Z * list interval,
          kl ∈ D -> existsb (covers (0 + Z.of_nat i)) kl.2 = true ->
          kl.1 = c) ->
      paint_stages D arr !! i = Some c).
Proof.
  revert arr. induction D as [|[k l] D IH]; intros arr HD Hi.
  - split; [done|]. intros c Hex. discriminate.
  - apply Forall_cons in HD as [Hl HD]. cbn [fst snd] in Hl.
    cbn [paint_stages existsb snd].
    destruct (IH (paint_intervals 0 k l arr)) as [Hnone Hsome].
    { by rewrite paint_intervals_length. }
    { by rewrite paint_intervals_length. }
    rewrite paint_intervals_lookup in Hnone by done. split.
    + intros [E1 E2]%orb_false_iff. rewrite E1 in Hnone. by apply Hnone.
    + intros c Hex Hall.
      destruct (existsb (fun kl : Z * list interval =>
                           existsb (covers (0 + Z.of_nat i)) kl.2) D) eqn:ED.
      * apply Hsome; [done|]. intros kl Hkl. apply Hall. by right.
      * rewrite orb_false_r in Hex. rewrite Hnone by done. rewrite Hex.
        f_equal. apply (Hall (k, l)); [by left|done].
Qed.

Lemma foldl_max_spec (e : Z) (es : list Z) :
  foldl Z.max e es ∈ e :: es /\ Forall (fun x => x <= foldl Z.max e es) (e :: es).
Proof.
  revert e. induction es as [|y es IH]; intros e.
  - split; [by left|]. by repeat constructor.
  - cbn [foldl]. destruct (IH (Z.max e y)) as [Hin Hall].
    apply Forall_cons in Hall as [He Hall]. split.
    + apply elem_of_cons in Hin as [Hin|Hin].
      * rewrite Hin. destruct (Z.max_spec e y) as [[_ ->]|[_ ->]].
        -- right. by left.
        -- by left.
      * right. by right.
    + constructor; [lia|]. constructor; [lia|done].
Qed.

Section mask.
Context `{Rounding}.

Lemma coded_intervals_Ok (cm : list (string * Z)) (f g : Q)
    (intervals : list (string * list interval)) :
  Forall (fun kv : string * list interval =>
            is_Some (PyDict.get kv.1 cm)) intervals ->
  NoDup ((fun kv : string * list interval => PyDict.get kv.1 cm)
           <$> intervals) ->
  coded_intervals cm f g intervals
  = Ok ((fun kv : string * list interval =>
           (from_option id 0 (PyDict.get kv.1 cm), epochs f g kv.2))
          <$> intervals).
Proof.
  intros Hall Hnd. unfold coded_intervals.
  assert (result_mapM
      (fun kv : string * list interval =>
         match PyDict.get kv.1 cm with
         | Some c => Ok (c, epochs f g kv.2)
         | None => Raise KeyError
         end) intervals
    = Ok ((fun kv : string * list interval =>
           (from_option id 0 (PyDict.get kv.1 cm), epochs f g kv.2))
          <$> intervals)) as ->.
  { clear Hnd. induction Hall as [|[k l] rest [c Hc] _ IH]; [done|].
    cbn [result_mapM fst snd fmap list_fmap] in *. rewrite Hc, IH. done. }
  cbn. f_equal. apply of_codes_distinct.
  rewrite <- list_fmap_compose.
  assert (forall l : list (string * list interval),
    Forall (fun kv => is_Some (PyDict.get kv.1 cm)) l ->
    Some <$> (fst ∘ (fun kv : string * list interval =>
           (from_option id 0 (PyDict.get kv.1 cm), epochs f g kv.2)) <$> l)
    = (fun kv : string * list interval => PyDict.get kv.1 cm) <$> l) as Heq.
  { intros l Hl. rewrite <- list_fmap_compose.
    apply Forall_fmap_ext. eapply Forall_impl; [exact Hl|].
    intros [k v] [c Hc]. cbn in *. by rewrite Hc. }
  rewrite <- (Heq _ Hall) in Hnd.
  eapply NoDup_fmap_1. exact Hnd.
Qed.

Lemma existsb_covers (i : Z) (l : list interval) :
  existsb (covers i) l = true
  <-> exists itv : interval, itv ∈ l /\ covers i itv = true.
Proof.
  rewrite existsb_exists. split; intros (itv & Hin & Hc); exists itv;
    (split; [by apply list_elem_of_In|done]).
Qed.

Lemma kept_intervals_elem (C : list (Z * list interval))
    (kl : Z * list interval) :
  kl ∈ kept_intervals C
  <-> exists cv, cv ∈ C /\ kl.1 = cv.1 /\
                 kl.2 = filter (fun itv : interval => itv.1 < itv.2) cv.2 /\
                 kl.2 <> [].
Proof.
  unfold kept_intervals. rewrite list_elem_of_filter, list_elem_of_fmap.
  split.
  - intros [Hlen (cv & -> & Hcv)]. exists cv. cbn [fst snd] in *.
    repeat split; try done. intros E. rewrite E in Hlen. simpl in Hlen. lia.
  - intros (cv & Hcv & H1 & H2 & Hne). split.
    + destruct (kl.2); [done|simpl; lia].
    + exists cv. split; [|done]. destruct kl. cbn [fst snd] in *. by subst.
Qed.

Lemma in_stage_kept (cm : list (string * Z)) (f g : Q)
    (intervals : list (string * list interval)) (i c : Z) :
  Forall (fun kv : string * list interval =>
            is_Some (PyDict.get kv.1 cm)) intervals ->
  in_stage cm f g intervals i c
  <-> exists kl,
        kl ∈ kept_intervals
               ((fun kv : string * list interval =>
                   (from_option id 0 (PyDict.get kv.1 cm), epochs f g kv.2))
                  <$> intervals) /\
        kl.1 = c /\ existsb (covers i) kl.2 = true.
Proof.
  intros Hall. unfold in_stage. split.
  - intros (k & l & s & e & Hkl & Hse & Hc & Hi).
    assert ((to_epoch s f g, to_epoch e f g)
              ∈ filter (fun itv : interval => itv.1 < itv.2) (epochs f g l))
      as Hin.
    { apply list_elem_of_filter. cbn [fst snd]. split; [lia|].
      unfold epochs. apply list_elem_of_fmap. by exists (s, e). }
    exists (c, filter (fun itv : interval => itv.1 < itv.2) (epochs f g l)).
    split; [|split; [done|]].
    + apply kept_intervals_elem. exists (c, epochs f g l).
      cbn [fst snd]. repeat split; try done.
      * apply list_elem_of_fmap. exists (k, l). cbn [fst snd].
        by rewrite Hc.
      * intros E. rewrite E in Hin. by apply elem_of_nil in Hin.
    + apply existsb_covers. eexists. split; [exact Hin|].
      unfold covers. cbn [fst snd]. lia.
  - intros (kl & Hkl & Hc & Hcov).
    apply kept_intervals_elem in Hkl as (cv & Hcv & H1 & H2 & _).
    apply list_elem_of_fmap in Hcv as ([k l] & -> & Hkv).
    cbn [fst snd] in *.
    apply existsb_covers in Hcov as (itv & Hitv & Hcov).
    rewrite H2 in Hitv. apply list_elem_of_filter in Hitv as [_ Hitv].
    unfold epochs in Hitv.
    apply list_elem_of_fmap in Hitv as ([s e] & -> & Hse).
    exists k, l, s, e. repeat split; try done.
    + rewrite Forall_forall in Hall. destruct (Hall _ Hkv) as [c' Hc'].
      cbn [fst] in Hc'. rewrite Hc' in H1 |- *. cbn in H1. congruence.
    + unfold covers in Hcov. cbn [fst snd] in *. lia.
    + unfold covers in Hcov. cbn [fst snd] in *. lia.
Qed.

(** X22: with a positive sampling frequency and granularity, stage names
    that all have a code, pairwise distinct codes for the stages given,
    some interval that is not empty after rounding and none of these
    starting before epoch 0, [sleep_stage_intervals_to_mask] returns a
    mask that is as long as the last epoch of an interval requires and
    no longer; an epoch in no interval holds 0, and an epoch whose
    intervals all belong to one stage holds the code of that stage. *)
Theorem X22_mask_holds_the_stage_codes (self : Self)
    (intervals : list (string * list interval)) (fs : option Q) (g : Q)
    (class_map : option (list (string * Z))) (f : Q)
    (cm : list (string * Z)) :
  fs_or self fs = Some f -> (0 < f)%Q -> (0 < g)%Q ->
  class_map_or self class_map = Ok cm ->
  Forall (fun kv : string * list interval =>
            is_Some (PyDict.get kv.1 cm)) intervals ->
  NoDup ((fun kv : string * list interval => PyDict.get kv.1 cm)
           <$> intervals) ->
  Forall (fun kv : string * list interval =>
            Forall (fun itv : interval =>
                      to_epoch itv.1 f g < to_epoch itv.2 f g ->
                      0 <= to_epoch itv.1 f g) kv.2) intervals ->
  (exists i c, in_stage cm f g intervals i c) ->
  exists mask,
    sleep_stage_intervals_to_mask self intervals fs g class_map = Ok mask /\
    (forall i c, in_stage cm f g intervals i c ->
                 0 <= i < Z.of_nat (length mask)) /\
    (exists c, in_stage cm f g intervals (Z.of_nat (length mask) - 1) c) /\
    (forall i : nat, (i < length mask)%nat ->
       ((forall c, ~ in_stage cm f g intervals (Z.of_nat i) c) ->
        mask !! i = Some 0) /\
       (forall c, in_stage cm f g intervals (Z.of_nat i) c ->
          (forall c', in_stage cm f g intervals (Z.of_nat i) c' -> c' = c) ->
          mask !! i = Some c)).
Proof.
  intros Hfs Hf Hg Hcm Hall Hnd Hpos Hsome.
  unfold sleep_stage_intervals_to_mask. rewrite Hfs.
  assert (forall q : Q, (0 < q)%Q -> Qle_bool q 0 = false) as Hlt.
  { intros q Hq. destruct (Qle_bool q 0) eqn:E; [|done].
    apply Qle_bool_iff in E. by apply Qlt_not_le in Hq. }
  rewrite (Hlt f Hf), (Hlt g Hg). cbn [negb assert mbind result_bind rbind].
  rewrite Hcm. cbn [mbind result_bind rbind].
  rewrite (coded_intervals_Ok cm f g intervals Hall Hnd).
  cbn [mbind result_bind rbind].
  set (D := kept_intervals _).
  assert (forall i c, in_stage cm f g intervals i c
            <-> exists kl, kl ∈ D /\ kl.1 = c /\
                           existsb (covers i) kl.2 = true) as Hstage.
  { intros i c. by apply in_stage_kept. }
  assert (forall kl itv, kl ∈ D -> itv ∈ kl.2 ->
            0 <= itv.1 /\ itv.1 < itv.2) as Hkept.
  { intros kl itv Hkl Hitv.
    apply kept_intervals_elem in Hkl as (cv & Hcv & _ & H2 & _).
    apply list_elem_of_fmap in Hcv as ([k l] & -> & Hkv). cbn [snd] in H2.
    rewrite H2 in Hitv. apply list_elem_of_filter in Hitv as [Hlt' Hitv].
    split; [|done]. unfold epochs in Hitv.
    apply list_elem_of_fmap in Hitv as ([s e] & -> & Hse).
    rewrite Forall_forall in Hpos. specialize (Hpos _ Hkv).
    cbn [fst snd] in *. rewrite Forall_forall in Hpos.
    by apply (Hpos _ Hse). }
  set (E := mjoin _).
  assert (forall x, x ∈ E <-> exists kl itv, kl ∈ D /\ itv ∈ kl.2 /\
                                             x = itv.2) as HE.
  { intros x. unfold E. rewrite list_elem_of_join. split.
    - intros (l & Hx & Hl). apply list_elem_of_fmap in Hl as (kl & -> & Hkl).
      apply list_elem_of_fmap in Hx as (itv & -> & Hitv). by exists kl, itv.
    - intros (kl & itv & Hkl & Hitv & ->). exists (snd <$> kl.2). split.
      + apply list_elem_of_fmap. by exists itv.
      + apply list_elem_of_fmap. by exists kl. }
  destruct E as [|e es] eqn:EE.
  { exfalso. destruct Hsome as (i & c & Hic).
    apply Hstage in Hic as (kl & Hkl & _ & Hcov).
    apply existsb_covers in Hcov as (itv & Hitv & _).
    assert (itv.2 ∈ ([] : list Z)) as Hin
      by (apply HE; by exists kl, itv).
    by apply elem_of_nil in Hin. }
  destruct (foldl_max_spec e es) as [Hmax Hle].
  set (siglen := foldl Z.max e es) in *.
  apply HE in Hmax as (klm & itvm & Hklm & Hitvm & Hsig).
  destruct (Hkept _ _ Hklm Hitvm) as [Hm0 Hm1].
  assert ((siglen <? 0) = false) as -> by lia.
  eexists. split; [reflexivity|].
  rewrite paint_stages_length, length_replicate.
  assert (forall kl itv, kl ∈ D -> itv ∈ kl.2 -> itv.2 <= siglen) as Hend.
  { intros kl itv Hkl Hitv. rewrite Forall_forall in Hle. apply Hle.
    apply HE. by exists kl, itv. }
  split; [|split].
  - intros i c Hic. apply Hstage in Hic as (kl & Hkl & _ & Hcov).
    apply existsb_covers in Hcov as (itv & Hitv & Hcov).
    destruct (Hkept _ _ Hkl Hitv). specialize (Hend _ _ Hkl Hitv).
    unfold covers in Hcov. lia.
  - exists klm.1. apply Hstage. exists klm. split; [done|]. split; [done|].
    apply existsb_covers. exists itvm. split; [done|].
    unfold covers. apply andb_true_iff.
    split; [apply Z.leb_le|apply Z.ltb_lt]; lia.
  - intros i Hi.
    destruct (paint_stages_lookup D (replicate (Z.to_nat siglen) 0) i)
      as [Hnone Hone].
    { apply Forall_forall. intros kl Hkl. apply Forall_forall.
      intros itv Hitv. destruct (Hkept _ _ Hkl Hitv).
      specialize (Hend _ _ Hkl Hitv). rewrite length_replicate. lia. }
    { by rewrite length_replicate. }
    rewrite Z.add_0_l in Hnone, Hone.
    rewrite lookup_replicate_2 in Hnone by done.
    split.
    + intros Hno. apply Hnone. apply not_true_is_false. intros Hex.
      apply existsb_exists in Hex as (kl & Hkl & Hcov).
      apply (Hno kl.1). apply Hstage. exists kl.
      split; [by apply list_elem_of_In|done].
    + intros c Hic Huniq. apply Hone.
      * apply Hstage in Hic as (kl & Hkl & _ & Hcov).
        apply existsb_exists. exists kl.
        split; [by apply list_elem_of_In|done].
      * intros kl Hkl Hcov. apply Huniq. apply Hstage. by exists kl.
Qed.

End mask.

Lemma X22_mask_holds_the_stage_codes_witness :
  exists mask,
    @sleep_stage_intervals_to_mask PSG_fixtures.exact_rounding
      PSG_fixtures.reader PSG_fixtures.hypnogram None 30 None = Ok mask /\
    mask = [2; 2; 1; 0; 0].
Proof.
  destruct (@X22_mask_holds_the_stage_codes PSG_fixtures.exact_rounding
              PSG_fixtures.reader PSG_fixtures.hypnogram None 30 None 100
              [("W", 2); ("N1", 1); ("N2", 0)])
    as (mask & Hmask & _).
  - reflexivity.
  - reflexivity.
  - reflexivity.
  - reflexivity.
  - repeat constructor; eexists; reflexivity.
  - vm_compute.
    repeat (apply NoDup_cons; split;
      [rewrite ?not_elem_of_cons; repeat split; try discriminate;
       apply not_elem_of_nil|]).
    apply NoDup_nil_2.
  - repeat constructor; vm_compute; discriminate.
  - exists 0, 2, "W", [(0, 6000)], 0, 6000.
    split; [by left|]. split; [by left|]. split; [reflexivity|].
    vm_compute. split; [discriminate|reflexivity].
  - exists mask. split; [exact Hmask|].
    vm_compute in Hmask. congruence.
Defined.


Section failures.
Context `{Rounding}.

Lemma set_code_Forall {V : Type} (P : Z * V -> Prop) (k : Z) (v : V)
    (d : list (Z * V)) :
  (forall k', P (k', v)) -> Forall P d -> Forall P (set_code k v d).
Proof.
  intros Hv. induction 1 as [|[k' v'] d Hx Hd IH]; cbn [set_code].
  - by repeat constructor.
  - destruct (k =? k'); constructor; done.
Qed.

Lemma coded_items_Ok (cm : list (string * Z)) (f g : Q)
    (intervals : list (string * list interval)) :
  Forall (fun kv : string * list interval =>
            is_Some (PyDict.get kv.1 cm)) intervals ->
  result_mapM
      (fun kv : string * list interval =>
         match PyDict.get kv.1 cm with
         | Some c => Ok (c, epochs f g kv.2)
         | None => Raise KeyError
         end) intervals
    = Ok ((fun kv : string * list interval =>
           (from_option id 0 (PyDict.get kv.1 cm), epochs f g kv.2))
          <$> intervals).
Proof.
  induction 1 as [|[k l] rest [c Hc] _ IH]; [done|].
  cbn [result_mapM fst snd fmap list_fmap] in *. rewrite Hc, IH. done.
Qed.

(** X23: with a positive sampling frequency and granularity and a class
    map, a stage name without a code makes the call raise [KeyError];
    and when every name has a code but no interval is left after
    rounding, because each one ends at or before the epoch it starts in
    (or there is none at all), the call raises [ValueError] instead of
    returning an empty mask. *)
Theorem X23_mask_failures (self : Self)
    (intervals : list (string * list interval)) (fs : option Q) (g : Q)
    (class_map : option (list (string * Z))) (f : Q)
    (cm : list (string * Z)) :
  fs_or self fs = Some f -> (0 < f)%Q -> (0 < g)%Q ->
  class_map_or self class_map = Ok cm ->
  (Exists (fun kv : string * list interval =>
             PyDict.get kv.1 cm = None) intervals ->
   sleep_stage_intervals_to_mask self intervals fs g class_map
   = Raise KeyError) /\
  (Forall (fun kv : string * list interval =>
             is_Some (PyDict.get kv.1 cm)) intervals ->
   Forall (fun kv : string * list interval =>
             Forall (fun itv : interval =>
                       to_epoch itv.2 f g <= to_epoch itv.1 f g) kv.2)
          intervals ->
   sleep_stage_intervals_to_mask self intervals fs g class_map
   = Raise ValueError).
Proof.
  intros Hfs Hf Hg Hcm.
  unfold sleep_stage_intervals_to_mask. rewrite Hfs.
  assert (forall q : Q, (0 < q)%Q -> Qle_bool q 0 = false) as Hlt.
  { intros q Hq. destruct (Qle_bool q 0) eqn:E; [|done].
    apply Qle_bool_iff in E. by apply Qlt_not_le in Hq. }
  rewrite (Hlt f Hf), (Hlt g Hg). cbn [negb assert mbind result_bind rbind].
  rewrite Hcm. cbn [mbind result_bind rbind]. unfold coded_intervals.
  split.
  - intros Hex.
    assert (result_mapM
      (fun kv : string * list interval =>
         match PyDict.get kv.1 cm with
         | Some c => Ok (c, epochs f g kv.2)
         | None => Raise KeyError
         end) intervals = Raise KeyError) as ->; [|done].
    induction intervals as [|[k l] rest IH]; [by apply Exists_nil in Hex|].
    cbn [result_mapM fst snd].
    destruct (PyDict.get k cm) as [c|] eqn:Hk; [|done].
    apply Exists_cons in Hex as [Hex|Hex].
    + cbn [fst] in Hex. congruence.
    + cbn [mbind result_bind rbind]. by rewrite (IH Hex).
  - intros Hall Hempty. rewrite (coded_items_Ok cm f g intervals Hall).
    cbn [fmap result_fmap mbind result_bind rbind].
    assert (Forall (fun cv : Z * list interval =>
                      filter (fun itv : interval => itv.1 < itv.2) cv.2 = [])
                   (of_codes ((fun kv : string * list interval =>
                      (from_option id 0 (PyDict.get kv.1 cm),
                       epochs f g kv.2)) <$> intervals))) as Hvals.
    { unfold of_codes.
      assert (Forall (fun cv : Z * list interval =>
                filter (fun itv : interval => itv.1 < itv.2) cv.2 = [])
              ([] : list (Z * list interval))) as Hnil by constructor.
      revert Hnil. generalize ([] : list (Z * list interval)) as d.
      clear Hall. induction Hempty as [|[k l] rest Hl _ IH]; intros d Hd;
        [done|].
      cbn [fmap list_fmap foldl fst snd]. apply IH.
      apply set_code_Forall; [|done]. intros k'. cbn [snd] in *.
      induction Hl as [|[s e] l' Hse _ IHl]; [done|].
      unfold epochs. rewrite fmap_cons. cbn [fst snd] in *.
      rewrite filter_cons_False by (cbn [fst snd]; lia). exact IHl. }
    assert (kept_intervals (of_codes ((fun kv : string * list interval =>
                      (from_option id 0 (PyDict.get kv.1 cm),
                       epochs f g kv.2)) <$> intervals)) = []) as ->; [|done].
    unfold kept_intervals.
    induction Hvals as [|[c l] rest Hl _ IH]; [done|].
    rewrite fmap_cons. cbn [fst snd] in *. rewrite Hl.
    rewrite filter_cons_False by (simpl; lia). exact IH.
Qed.

End failures.

Lemma X23_mask_failures_witness :
  @sleep_stage_intervals_to_mask PSG_fixtures.exact_rounding
    PSG_fixtures.reader [("W", [(0, 900)]); ("REM", [(0, 6000)])]
    None 30 None = Raise KeyError /\
  @sleep_stage_intervals_to_mask PSG_fixtures.exact_rounding
    PSG_fixtures.reader [("W", [(0, 900)]); ("N1", [(2000, 4000)])]
    None 30 None = Raise ValueError.
Proof.
  split.
  - refine (proj1 (@X23_mask_failures PSG_fixtures.exact_rounding
                     PSG_fixtures.reader _ None 30 None 100
                     [("W", 2); ("N1", 1); ("N2", 0)]
                     eq_refl eq_refl eq_refl eq_refl) _).
    right. left. reflexivity.
  - refine (proj2 (@X23_mask_failures PSG_fixtures.exact_rounding
                     PSG_fixtures.reader _ None 30 None 100
                     [("W", 2); ("N1", 1); ("N2", 0)]
                     eq_refl eq_refl eq_refl eq_refl) _ _).
    + repeat constructor; eexists; reflexivity.
    + repeat constructor; vm_compute; discriminate.
Defined.

Section collisions.
Context `{Rounding}.

Lemma result_mapM_app {X Y : Type} (F : X -> result Y) (a b : list X) :
  result_mapM F (a ++ b)
  = xs ← result_mapM F a; ys ← result_mapM F b; Ok (xs ++ ys).
Proof.
  induction a as [|x a IH]; cbn [app result_mapM mbind result_bind rbind].
  - by destruct (result_mapM F b).
  - destruct (F x) as [y|e]; [|done]. cbn [rbind]. rewrite IH.
    cbn [mbind result_bind rbind].
    destruct (result_mapM F a) as [xs|e]; [|done]. cbn [rbind].
    by destruct (result_mapM F b).
Qed.

Lemma result_mapM_elem {X Y : Type} (F : X -> result Y) (l : list X)
    (ys : list Y) (x : X) :
  result_mapM F l = Ok ys -> x ∈ l -> exists y, F x = Ok y /\ y ∈ ys.
Proof.
  revert ys. induction l as [|x' l IH]; intros ys Hl Hx;
    [by apply elem_of_nil in Hx|].
  cbn [result_mapM mbind result_bind rbind] in Hl.
  destruct (F x') as [y'|] eqn:Hy'; [|done]. cbn [rbind] in Hl.
  destruct (result_mapM F l) as [ys'|]; [|done]. injection Hl as <-.
  apply elem_of_cons in Hx as [->|Hx].
  - exists y'. split; [done|by left].
  - destruct (IH ys' eq_refl Hx) as (y & Hy & Hin). exists y.
    split; [done|by right].
Qed.

Lemma set_code_app_l {V : Type} (k : Z) (x : V) (pre q : list (Z * V)) :
  k ∈ pre.*1 -> set_code k x (pre ++ q) = set_code k x pre ++ q.
Proof.
  induction pre as [|[k' v'] pre IH]; intros Hk;
    [by apply elem_of_nil in Hk|].
  cbn [app set_code]. destruct (Z.eqb_spec k k') as [->|Hne]; [done|].
  rewrite fmap_cons in Hk. apply elem_of_cons in Hk as [Hk|Hk]; [done|].
  cbn [app]. by rewrite IH.
Qed.

Lemma set_code_app_r {V : Type} (k : Z) (x : V) (pre q : list (Z * V)) :
  k ∉ pre.*1 -> set_code k x (pre ++ q) = pre ++ set_code k x q.
Proof.
  induction pre as [|[k' v'] pre IH]; intros Hk; [done|].
  rewrite fmap_cons, not_elem_of_cons in Hk. destruct Hk as [Hne Hk].
  cbn [app set_code fst]. destruct (Z.eqb_spec k k') as [->|_]; [done|].
  by rewrite IH.
Qed.

Lemma set_code_keys {V : Type} (k : Z) (x : V) (d : list (Z * V)) :
  k ∈ d.*1 -> (set_code k x d).*1 = d.*1.
Proof.
  induction d as [|[k' v'] d IH]; intros Hk; [by apply elem_of_nil in Hk|].
  cbn [set_code]. destruct (Z.eqb_spec k k') as [->|Hne]; [done|].
  rewrite fmap_cons in Hk. apply elem_of_cons in Hk as [Hk|Hk]; [done|].
  rewrite !fmap_cons. by rewrite IH.
Qed.

Lemma set_code_split {V : Type} (c : Z) (d : list (Z * V)) :
  exists pre post, (c ∉ pre.*1) /\
                   forall v, set_code c v d = pre ++ (c, v) :: post.
Proof.
  destruct (decide (c ∈ d.*1)) as [Hin|Hout].
  - induction d as [|[k' v'] d IH]; [by apply elem_of_nil in Hin|].
    destruct (Z.eqb_spec c k') as [->|Hne].
    + exists [], d. split; [apply not_elem_of_nil|]. intros v.
      cbn [set_code app]. by rewrite Z.eqb_refl.
    + rewrite fmap_cons in Hin.
      apply elem_of_cons in Hin as [Hin|Hin]; [done|].
      destruct (IH Hin) as (pre & post & Hpre & Hset).
      exists ((k', v') :: pre), post. split.
      * rewrite fmap_cons, not_elem_of_cons. by split.
      * intros v. cbn [set_code app].
        destruct (Z.eqb_spec c k') as [?|_]; [done|]. by rewrite Hset.
  - exists d, []. split; [done|]. intros v. by apply set_code_fresh.
Qed.

Lemma foldl_set_code_shared {V : Type} (c : Z) (va vb : V)
    (items pre post : list (Z * V)) :
  c ∉ pre.*1 -> c ∈ items.*1 ->
  foldl (fun d kv => set_code kv.1 kv.2 d) (pre ++ (c, va) :: post) items
  = foldl (fun d kv => set_code kv.1 kv.2 d) (pre ++ (c, vb) :: post) items.
Proof.
  revert pre post.
  induction items as [|[k x] items IH]; intros pre post Hpre Hc;
    [by apply elem_of_nil in Hc|].
  cbn [foldl fst snd]. rewrite fmap_cons in Hc. cbn [fst] in Hc.
  destruct (decide (k = c)) as [->|Hne].
  - rewrite !set_code_app_r by done. cbn [set_code]. by rewrite Z.eqb_refl.
  - apply elem_of_cons in Hc as [Hc|Hc]; [done|].
    destruct (decide (k ∈ pre.*1)) as [Hin|Hout].
    + rewrite !set_code_app_l by done. apply IH; [|done].
      by rewrite set_code_keys.
    + rewrite !set_code_app_r by done. cbn [set_code].
      destruct (Z.eqb_spec k c) as [?|_]; [done|]. by apply IH.
Qed.

(** X24: when two stages given to [sleep_stage_intervals_to_mask] have
    the same code, the intervals of the earlier one play no part: the
    call gives the same result (mask or exception) whatever they are. *)
Theorem X24_shared_code_drops_earlier_stage (self : Self)
    (pre rest : list (string * list interval)) (k1 k2 : string)
    (l1 l1' l2 : list interval) (fs : option Q) (g : Q)
    (class_map : option (list (string * Z))) (cm : list (string * Z)) :
  class_map_or self class_map = Ok cm ->
  (k2, l2) ∈ rest ->
  PyDict.get k2 cm = PyDict.get k1 cm ->
  sleep_stage_intervals_to_mask self (pre ++ (k1, l1) :: rest) fs g class_map
  = sleep_stage_intervals_to_mask self (pre ++ (k1, l1') :: rest) fs g
      class_map.
Proof.
  intros Hcm Hin Hsame.
  assert (forall f, coded_intervals cm f g (pre ++ (k1, l1) :: rest)
          = coded_intervals cm f g (pre ++ (k1, l1') :: rest)) as Hcoded.
  { intros f. unfold coded_intervals. rewrite !result_mapM_app.
    set (F := fun kv : string * list interval =>
                match PyDict.get kv.1 cm with
                | Some c => Ok (c, epochs f g kv.2)
                | None => Raise KeyError
                end).
    destruct (result_mapM F pre) as [Cpre|e]; [|reflexivity].
    cbn [mbind result_bind rbind result_mapM].
    assert (forall l, F (k1, l)
              = match PyDict.get k1 cm with
                | Some c => Ok (c, epochs f g l)
                | None => Raise KeyError
                end) as HF by done.
    rewrite !HF.
    destruct (PyDict.get k1 cm) as [c|] eqn:Hk1; [|reflexivity].
    cbn [rbind].
    destruct (result_mapM F rest) as [Crest|e] eqn:Hrest; [|reflexivity].
    cbn [rbind fmap result_fmap]. apply (f_equal Ok).
    assert (c ∈ Crest.*1) as Hc.
    { destruct (result_mapM_elem F rest Crest (k2, l2) Hrest Hin)
        as (y & Hy & Hin').
      unfold F in Hy. cbn [fst snd] in Hy. rewrite Hsame in Hy.
      injection Hy as <-. apply list_elem_of_fmap.
      by exists (c, epochs f g l2). }
    unfold of_codes. rewrite !foldl_app. cbn [foldl fst snd].
    destruct (set_code_split c
                (foldl (fun d kv => set_code kv.1 kv.2 d) [] Cpre))
      as (p & q & Hp & Hset).
    rewrite !Hset. by apply foldl_set_code_shared. }
  unfold sleep_stage_intervals_to_mask.
  destruct (fs_or self fs) as [f|]; [|reflexivity].
  destruct (assert (negb (Qle_bool f 0))); [|reflexivity].
  destruct (assert (negb (Qle_bool g 0))); [|reflexivity].
  rewrite Hcm. cbn [mbind result_bind rbind]. by rewrite Hcoded.
Qed.

End collisions.

Lemma X24_shared_code_drops_earlier_stage_witness :
  @sleep_stage_intervals_to_mask PSG_fixtures.exact_rounding
    PSG_fixtures.reader
    ([("W", [(0, 6000)])] ++ ("N1", [(6000, 9000)])
       :: [("N2", [(12000, 15000)])])
    None 30 (Some [("W", 2); ("N1", 1); ("N2", 1)])
  = @sleep_stage_intervals_to_mask PSG_fixtures.exact_rounding
      PSG_fixtures.reader
      ([("W", [(0, 6000)])] ++ ("N1", []) :: [("N2", [(12000, 15000)])])
      None 30 (Some [("W", 2); ("N1", 1); ("N2", 1)]).
Proof.
  apply (@X24_shared_code_drops_earlier_stage PSG_fixtures.exact_rounding
           PSG_fixtures.reader [("W", [(0, 6000)])]
           [("N2", [(12000, 15000)])] "N1" "N2" [(6000, 9000)] []
           [(12000, 15000)] None 30 (Some [("W", 2); ("N1", 1); ("N2", 1)])
           [("W", 2); ("N1", 1); ("N2", 1)]).
  - reflexivity.
  - by left.
  - reflexivity.
Defined.

End PSG_mask_facts.
